(** * MusicEngine: the procedural chiptune sequencer

    A shallow embedding of [MusicEngine] (the NES-style music engine built on
    the Web Audio API) and of its compiled-in song table, followed by the
    properties of the scheduler, the voices and the transport controls.

    Number model.  JavaScript numbers are embedded as rationals [Q].  The
    next-step time of the sequencer is the one number the engine accumulates
    and tests in a loop condition; every operation that produces it or the
    limit it is compared with -- [60 / tempo], the halving, the [+=] of
    [advanceStep], [now + 0.05] in [play], [currentTime + LOOKAHEAD] in
    [schedule] -- is rounded to binary64 by [fl], as are the literals
    involved.  The other quantities (event times, gains, frequencies) are
    written to the audio graph as the expression the code evaluates and are
    kept exact.  The harmonic coefficients of the pulse wave, which go
    through [Math.sin] and [Math.cos], are embedded as real numbers; the
    single-precision storage of a [Float32Array] is not part of the
    embedding.  [NaN] and the infinities have no counterpart in [Q].  The
    module [Binary64] replays the step-time arithmetic on primitive floats.

    Platform model.  The values the engine reads from the platform during a
    call -- the audio clock [audioCtx.currentTime], the present value of the
    master gain -- are arguments of the embedded method.  An [AudioParam] is
    its intrinsic value together with the automation events scheduled on it. *)

From Stdlib Require Import QArith Qround Qminmax Qabs Qpower ZArith Lia Lqa.
From Stdlib Require Import List String Ascii Bool Sorted.
From Stdlib Require Import Reals Lra Floats.
Import ListNotations.

(** ** Numbers *)

Definition Qltb (x y : Q) : bool := negb (Qle_bool y x).

(** [magnitude x] is the exponent of the binade of [x]:
    [2 ^ magnitude x <= |x| < 2 ^ (magnitude x + 1)]. *)
Definition magnitude (x : Q) : Z :=
  let e := (Z.log2 (Z.abs (Qnum x)) - Z.log2 (Zpos (Qden x)))%Z in
  if Qle_bool (2 ^ e) (Qabs x) then e else (e - 1)%Z.

(** The nearest integer, the even one of two that are equally near. *)
Definition rne (y : Q) : Z :=
  let f := Qfloor y in
  let r := y - inject_Z f in
  if Qltb r (1 # 2) then f
  else if Qltb (1 # 2) r then (f + 1)%Z
  else if Z.even f then f else (f + 1)%Z.

(** The binary64 number a JavaScript operation returns for the exact result
    [x]: [x] rounded to 53 significant bits, to nearest, ties to even.  The
    exponent is not bounded: overflow to infinity and the subnormal numbers
    (below [2^-1022]) are not represented, and the properties of the step
    times name the range they are stated for. *)
Definition fl (x : Q) : Q :=
  if Qeq_bool x 0 then 0
  else
    let e := (magnitude x - 52)%Z in   (* exponent of the last place *)
    inject_Z (rne (x / 2 ^ e)) * 2 ^ e.

(** [2^-53], the largest relative error of a rounding. *)
Definition unit_roundoff : Q := 1 # 9007199254740992.

(** ** Song data *)

Record SongData : Type := {
  name : string;
  tempo : Q;              (* BPM *)
  pulse1 : list Q;        (* lead melody (frequencies, R for rest, S for sustain) *)
  pulse2 : list Q;        (* harmony / arpeggios *)
  triangle : list Q;      (* bass line *)
  noise : list Q;         (* drums (K, SN, HH, OH, or R) *)
  pulse1Vol : Q;          (* channel volumes (0-1) *)
  pulse2Vol : Q;
  triVol : Q;
  noiseVol : Q;
  pulse1Duty : Q;         (* pulse duty cycle (0.125, 0.25, or 0.5) *)
  pulse2Duty : Q
}.

(** The step constants, the note frequencies and the four songs keep their
    source names; they live in a module of their own because [R] and [S]
    would otherwise hide the real numbers and the successor. *)
Module Songs.
Local Open Scope Q_scope.

(* Step constants *)
Definition R : Q := 0.    (* rest (silence) *)
Definition S : Q := -1.   (* sustain (continue previous note) *)

(* Drum hit types for the noise channel *)
Definition K : Q := 1.    (* kick drum *)
Definition SN : Q := 2.   (* snare drum *)
Definition HH : Q := 3.   (* closed hi-hat *)
Definition OH : Q := 4.   (* open hi-hat *)

(* Note frequencies (Hz, equal temperament, A4 = 440) *)
(* Octave 2 *)
Definition _C2 : Q := 65.41.
Definition _Cs2 : Q := 69.30.
Definition _D2 : Q := 73.42.
Definition _Eb2 : Q := 77.78.
Definition _E2 : Q := 82.41.
Definition _F2 : Q := 87.31.
Definition _Fs2 : Q := 92.50.
Definition _G2 : Q := 98.00.
Definition _Gs2 : Q := 103.83.
Definition _A2 : Q := 110.00.
Definition _Bb2 : Q := 116.54.
Definition _B2 : Q := 123.47.
(* Octave 3 *)
Definition _C3 : Q := 130.81.
Definition _Cs3 : Q := 138.59.
Definition _D3 : Q := 146.83.
Definition _Eb3 : Q := 155.56.
Definition _E3 : Q := 164.81.
Definition _F3 : Q := 174.61.
Definition _Fs3 : Q := 185.00.
Definition _G3 : Q := 196.00.
Definition _Gs3 : Q := 207.65.
Definition _A3 : Q := 220.00.
Definition _Bb3 : Q := 233.08.
Definition _B3 : Q := 246.94.
(* Octave 4 *)
Definition _C4 : Q := 261.63.
Definition _Cs4 : Q := 277.18.
Definition _D4 : Q := 293.66.
Definition _Eb4 : Q := 311.13.
Definition _E4 : Q := 329.63.
Definition _F4 : Q := 349.23.
Definition _Fs4 : Q := 369.99.
Definition _G4 : Q := 392.00.
Definition _Gs4 : Q := 415.30.
Definition _A4 : Q := 440.00.
Definition _Bb4 : Q := 466.16.
Definition _B4 : Q := 493.88.
(* Octave 5 *)
Definition _C5 : Q := 523.25.
Definition _Cs5 : Q := 554.37.
Definition _D5 : Q := 587.33.
Definition _Eb5 : Q := 622.25.
Definition _E5 : Q := 659.25.
Definition _F5 : Q := 698.46.
Definition _Fs5 : Q := 739.99.
Definition _G5 : Q := 783.99.
Definition _Gs5 : Q := 830.61.
Definition _A5 : Q := 880.00.
Definition _Bb5 : Q := 932.33.
Definition _B5 : Q := 987.77.
(* Each array position is one eighth note.  Songs loop. *)

Definition game : SongData := {|
  name := "Vault Hunter's Pursuit";
  tempo := 150;
  pulse1Duty := 0.25;
  pulse2Duty := 0.125;
  pulse1Vol := 0.105;
  pulse2Vol := 0.066;
  triVol := 0.09;
  noiseVol := 0.054;
  pulse1 := [
    (* Bar 1 (Dm): Rising run, Vampire Killer energy *)
    _D5; _E5; _F5; _G5; _A5; S; S; _G5;
    (* Bar 2 (Dm): Descending with chromatic Cs *)
    _F5; _E5; _D5; _Cs5; _D5; S; S; R;
    (* Bar 3 (Bb): Arpeggiated Bb major *)
    _Bb4; S; _D5; _F5; S; S; _D5; _Bb4;
    (* Bar 4 (A): Dominant tension *)
    _A4; S; _Cs5; _E5; S; S; _D5; _Cs5;
    (* Bar 5 (Dm): Second phrase, ascending further *)
    _D5; _E5; _F5; _A5; _Bb5; S; _A5; _G5;
    (* Bar 6 (C): Relative major brightness *)
    _F5; _E5; _C5; _E5; _G5; S; _A5; _G5;
    (* Bar 7 (Bb): Dramatic descending run *)
    _Bb5; _A5; _G5; _F5; _D5; _Bb4; _D5; _F5;
    (* Bar 8 (A->Dm): Resolution to tonic *)
    _E5; _Cs5; _A4; _Cs5; _E5; _Cs5; _D5; S
  ];
  pulse2 := [
    (* Bar 1 (Dm) *)
    _D4; _A4; _D4; _A4; _F4; _A4; _D4; _A4;
    (* Bar 2 (Dm) *)
    _D4; _A4; _F4; _A4; _D4; _A4; _D4; _A4;
    (* Bar 3 (Bb) *)
    _Bb3; _F4; _Bb3; _F4; _D4; _F4; _Bb3; _F4;
    (* Bar 4 (A) *)
    _A3; _E4; _A3; _E4; _Cs4; _E4; _A3; _E4;
    (* Bar 5 (Dm) *)
    _D4; _A4; _D4; _A4; _F4; _A4; _D4; _A4;
    (* Bar 6 (C) *)
    _C4; _G4; _C4; _G4; _E4; _G4; _C4; _G4;
    (* Bar 7 (Bb) *)
    _Bb3; _F4; _D4; _F4; _Bb3; _F4; _D4; _F4;
    (* Bar 8 (A->Dm) *)
    _A3; _E4; _Cs4; _E4; _A3; _Cs4; _D4; S
  ];
  triangle := [
    (* Bar 1 (Dm) *)
    _D2; _D3; _A2; _D3; _D2; _D3; _A2; _D3;
    (* Bar 2 (Dm) *)
    _D2; _F2; _A2; _D3; _A2; _F2; _D2; _D3;
    (* Bar 3 (Bb) *)
    _Bb2; _Bb3; _F2; _Bb3; _Bb2; _Bb3; _F2; _Bb2;
    (* Bar 4 (A) *)
    _A2; _A3; _E2; _A3; _A2; _A3; _E2; _A3;
    (* Bar 5 (Dm) *)
    _D2; _D3; _A2; _D3; _D2; _D3; _F2; _D3;
    (* Bar 6 (C) *)
    _C3; _C2; _G2; _C3; _C2; _E2; _G2; _C3;
    (* Bar 7 (Bb) *)
    _Bb2; _Bb3; _F2; _Bb3; _Bb2; _D3; _F2; _Bb2;
    (* Bar 8 (A->Dm) *)
    _A2; _A3; _E2; _A3; _A2; _E2; _D2; S
  ];
  noise := [
    (* Bars 1-2 *)
    K; HH; SN; HH; K; K; SN; HH; K; HH; SN; HH; K; K; SN; HH;
    (* Bars 3-4 (slight variation, open hat at end) *)
    K; HH; SN; HH; K; HH; SN; HH; K; HH; SN; HH; K; K; SN; OH;
    (* Bars 5-6 *)
    K; HH; SN; HH; K; K; SN; HH; K; HH; SN; HH; K; HH; SN; HH;
    (* Bars 7-8 (build-up, open hat finale) *)
    K; HH; SN; HH; K; K; SN; HH; K; K; SN; HH; K; K; SN; OH
  ]
|}.

Definition menu : SongData := {|
  name := "The Arena Awaits";
  tempo := 110;
  pulse1Duty := 0.25;
  pulse2Duty := 0.5;
  pulse1Vol := 0.075;
  pulse2Vol := 0.045;
  triVol := 0.075;
  noiseVol := 0.024;
  pulse1 := [
    (* Bar 1 (Am) *)
    _A4; S; S; _C5; S; _E5; S; S;
    (* Bar 2 (Am) *)
    _E5; S; _D5; S; _C5; S; _B4; S;
    (* Bar 3 (F) *)
    _A4; S; S; _F4; S; _A4; S; _C5;
    (* Bar 4 (Em) *)
    _B4; S; S; _Gs4; S; _E4; S; S;
    (* Bar 5 (Am) *)
    _A4; S; S; _E5; S; S; _A5; S;
    (* Bar 6 (Dm) *)
    S; _F5; _D5; S; _A4; S; S; _D5;
    (* Bar 7 (G) *)
    _B4; S; _D5; S; _G5; S; S; _D5;
    (* Bar 8 (E) *)
    _E5; S; S; _Gs4; _B4; S; _E5; S
  ];
  pulse2 := [
    (* Bar 1 (Am) *)
    R; R; _E4; S; S; S; R; R;
    (* Bar 2 (Am) *)
    R; R; _A4; S; S; S; R; R;
    (* Bar 3 (F) *)
    R; R; _C4; S; S; S; R; R;
    (* Bar 4 (Em) *)
    R; R; _E4; S; S; S; R; R;
    (* Bar 5 (Am) *)
    R; R; _C5; S; S; S; R; R;
    (* Bar 6 (Dm) *)
    R; R; _A4; S; S; S; R; R;
    (* Bar 7 (G) *)
    R; R; _D5; S; S; S; R; R;
    (* Bar 8 (E) *)
    R; R; _B4; S; S; S; R; R
  ];
  triangle := [
    (* Bar 1 (Am) *)
    _A2; S; _E3; S; _A2; S; _E3; S;
    (* Bar 2 (Am) *)
    _A2; S; _C3; S; _E3; S; _A2; S;
    (* Bar 3 (F) *)
    _F2; S; _C3; S; _F2; S; _A2; S;
    (* Bar 4 (Em) *)
    _E2; S; _B2; S; _E3; S; _Gs2; S;
    (* Bar 5 (Am) *)
    _A2; S; _E3; S; _A3; S; _E3; S;
    (* Bar 6 (Dm) *)
    _D3; S; _A2; S; _D3; S; _F2; S;
    (* Bar 7 (G) *)
    _G2; S; _D3; S; _B2; S; _G3; S;
    (* Bar 8 (E) *)
    _E2; S; _B2; S; _Gs2; S; _E3; S
  ];
  noise := [
    R; R; HH; R; R; R; HH; R; R; R; HH; R; R; R; HH; R;
    R; R; HH; R; R; R; HH; R; R; R; HH; R; R; R; HH; R;
    R; R; HH; R; R; R; HH; R; R; R; HH; R; R; R; HH; R;
    R; R; HH; R; R; R; HH; R; R; R; HH; R; R; R; HH; R
  ]
|}.

Definition score : SongData := {|
  name := "Victor's March";
  tempo := 140;
  pulse1Duty := 0.25;
  pulse2Duty := 0.25;
  pulse1Vol := 0.09;
  pulse2Vol := 0.066;
  triVol := 0.075;
  noiseVol := 0.036;
  pulse1 := [
    (* Bar 1 (C) *)
    _C5; _E5; _G5; S; _E5; _G5; _A5; S;
    (* Bar 2 (G) *)
    _B4; S; _G4; S; _D5; _G5; _B4; S;
    (* Bar 3 (Am->F) *)
    _A4; _G4; _E4; S; _F4; S; _A4; S;
    (* Bar 4 (G->C) *)
    _G4; S; _E4; S; _C5; S; S; S
  ];
  pulse2 := [
    (* Bar 1 (C) *)
    _E4; _G4; _C5; S; _G4; _C5; _E5; S;
    (* Bar 2 (G) *)
    _D4; S; _B3; S; _B4; _D5; _G4; S;
    (* Bar 3 (Am->F) *)
    _E4; _C4; _A3; S; _A3; S; _C4; S;
    (* Bar 4 (G->C) *)
    _B3; S; _G3; S; _E4; S; S; S
  ];
  triangle := [
    (* Bar 1 (C) *)
    _C3; _G3; _C3; _E3; _C3; _G3; _E3; _C3;
    (* Bar 2 (G) *)
    _G2; _D3; _G3; _D3; _G2; _B2; _D3; _G3;
    (* Bar 3 (Am->F) *)
    _A2; _E3; _A3; _E3; _F2; _C3; _F3; _C3;
    (* Bar 4 (G->C) *)
    _G2; _D3; _B2; _G2; _C3; S; S; S
  ];
  noise := [
    K; HH; SN; HH; K; HH; SN; HH;
    K; HH; SN; HH; K; HH; SN; HH;
    K; HH; SN; HH; K; HH; SN; HH;
    K; HH; SN; HH; K; R; R; R
  ]
|}.

Definition fail : SongData := {|
  name := "Fallen Vaulter";
  tempo := 80;
  pulse1Duty := 0.5;
  pulse2Duty := 0.5;
  pulse1Vol := 0.066;
  pulse2Vol := 0.045;
  triVol := 0.06;
  noiseVol := 0.015;
  pulse1 := [
    (* Bar 1 (Dm) *)
    _D5; S; S; S; _F5; S; S; S;
    (* Bar 2 (A) *)
    _E5; S; S; S; _Cs5; S; S; S;
    (* Bar 3 (Bb) *)
    _D5; S; S; S; _Bb4; S; S; S;
    (* Bar 4 (A->Dm) *)
    _A4; S; S; S; _D4; S; S; S
  ];
  pulse2 := [
    (* Bar 1 (Dm) *)
    _A4; S; S; S; _D4; S; S; S;
    (* Bar 2 (A) *)
    _A3; S; S; S; _A3; S; S; S;
    (* Bar 3 (Bb) *)
    _F4; S; S; S; _D4; S; S; S;
    (* Bar 4 (A->Dm) *)
    _E4; S; S; S; _A3; S; S; S
  ];
  triangle := [
    (* Bar 1 (Dm) *)
    _D2; S; S; S; _D3; S; S; S;
    (* Bar 2 (A) *)
    _A2; S; S; S; _A2; S; S; S;
    (* Bar 3 (Bb) *)
    _Bb2; S; S; S; _F2; S; S; S;
    (* Bar 4 (A->Dm) *)
    _A2; S; S; S; _D2; S; S; S
  ];
  noise := [
    R; R; R; R; R; R; R; R;
    R; R; R; R; R; R; R; R;
    R; R; R; R; R; R; R; R;
    R; R; R; R; R; R; R; R
  ]
|}.
End Songs.

(** ** The song table

    [SONGS] is an object literal.  Reading [SONGS[trackName]] finds one of its
    four own properties, or else a member that every object literal inherits
    from [Object.prototype] (a function or an object: truthy, and not a
    [SongData]), or else [undefined]. *)

Definition SONGS : list (string * SongData) :=
  [ ("game", Songs.game); ("menu", Songs.menu);
    ("score", Songs.score); ("fail", Songs.fail) ]%string.

Definition Object_prototype : list string :=
  [ "constructor"; "hasOwnProperty"; "isPrototypeOf"; "propertyIsEnumerable";
    "toLocaleString"; "toString"; "valueOf"; "__proto__";
    "__defineGetter__"; "__defineSetter__";
    "__lookupGetter__"; "__lookupSetter__" ]%string.

Inductive Property : Type :=
| Track (song : SongData)   (* an own property of the table *)
| Inherited                 (* a member of Object.prototype *)
| Undefined.

Fixpoint ownProperty (key : string) (table : list (string * SongData))
  : option SongData :=
  match table with
  | [] => None
  | (k, song) :: rest =>
      if String.eqb k key then Some song else ownProperty key rest
  end.

Definition SONGS_get (trackName : string) : Property :=
  match ownProperty trackName SONGS with
  | Some song => Track song
  | None =>
      if existsb (String.eqb trackName) Object_prototype
      then Inherited else Undefined
  end.

(** What [play] stores in [currentSong]: the value of [SONGS[trackName]]
    that passed its guard -- a record of the table, or the member of
    [Object.prototype] found under that name.  A member has none of the
    fields of a [SongData]: reading [tempo], [pulse1] or a duty cycle from
    it gives [undefined]. *)
Inductive Loaded : Type :=
| Song (song : SongData)
| Member (key : string).

(** ** Web Audio nodes *)

Inductive AutomationEvent : Type :=
| SetValue (v time : Q)             (* setValueAtTime *)
| LinearRamp (v endTime : Q)        (* linearRampToValueAtTime *)
| ExponentialRamp (v endTime : Q).  (* exponentialRampToValueAtTime *)

Definition eventTime (e : AutomationEvent) : Q :=
  match e with
  | SetValue _ t | LinearRamp _ t | ExponentialRamp _ t => t
  end.

Record AudioParam : Type := {
  value : Q;                        (* intrinsic value *)
  events : list AutomationEvent     (* scheduled automation *)
}.

Definition param (v : Q) : AudioParam := {| value := v; events := [] |}.

Definition setValue (v : Q) (p : AudioParam) : AudioParam :=
  {| value := v; events := events p |}.

(** [cancelScheduledValues(t)] removes every event whose time is [t] or
    later; a ramp is filed under its end time. *)
Definition cancelScheduledValues (t : Q) (p : AudioParam) : AudioParam :=
  {| value := value p;
     events := filter (fun e => Qltb (eventTime e) t) (events p) |}.

Definition schedule_event (e : AutomationEvent) (p : AudioParam) : AudioParam :=
  {| value := value p; events := events p ++ [e] |}.

Definition setValueAtTime (v t : Q) : AudioParam -> AudioParam :=
  schedule_event (SetValue v t).

Definition linearRampToValueAtTime (v t : Q) : AudioParam -> AudioParam :=
  schedule_event (LinearRamp v t).

Definition exponentialRampToValueAtTime (v t : Q) : AudioParam -> AudioParam :=
  schedule_event (ExponentialRamp v t).

Record PeriodicWave : Type := {
  real : list R;
  imag : list R
}.

Inductive OscillatorType : Type :=
| sine
| triangleType
| custom (wave : PeriodicWave)
| customNaN.    (* a periodic wave whose harmonics are all [NaN] *)

Record OscillatorNode : Type := {
  type : OscillatorType;
  frequency : AudioParam;
  oscConnected : bool;
  started : bool
}.

Record GainNode : Type := {
  gain : AudioParam;
  gainConnected : bool
}.

Inductive ContextState : Type := suspended | running.

(** [resumeCalls] counts the calls of [resume()], whose promise the engine
    drops: the state changes when the platform resolves it, if it does.
    [rejectsNaN] says whether [createPeriodicWave] throws a [TypeError] on a
    coefficient that is not finite, as the conversion to the IDL type
    [float] prescribes. *)
Record AudioContext : Type := {
  state : ContextState;
  sampleRate : Q;
  resumeCalls : nat;
  rejectsNaN : bool
}.

(** The shared noise buffer: one channel of [bufferLength] samples.  The
    samples are drawn with [Math.random] and are not represented. *)
Record AudioBuffer : Type := {
  bufferLength : Z;
  bufferRate : Q
}.

Definition createOscillator : OscillatorNode :=
  {| type := sine; frequency := param 440;
     oscConnected := false; started := false |}.

Definition createGain : GainNode :=
  {| gain := param 1; gainConnected := false |}.

Inductive FilterType : Type := lowpass | bandpass | highpass.

(** A percussive voice: buffer source, filter and gain, created per hit,
    connected to the master gain and never referenced again.  The offset
    into the noise buffer is drawn with [Math.random] and is not
    represented. *)
Record DrumVoice : Type := {
  filterType : FilterType;
  filterFrequency : Q;
  filterQ : Q;
  voiceGain : AudioParam;
  startTime : Q;
  stopTime : Q
}.

(** ** The engine *)

Record MusicEngine : Type := {
  audioCtx : option AudioContext;
  masterGain : option GainNode;
  (* persistent oscillators *)
  pulse1Osc : option OscillatorNode;
  pulse1Gain : option GainNode;
  pulse2Osc : option OscillatorNode;
  pulse2Gain : option GainNode;
  triOsc : option OscillatorNode;
  triGain : option GainNode;
  (* noise *)
  noiseBuffer : option AudioBuffer;
  (* sequencer state *)
  currentSong : option Loaded;
  currentTrackName : string;
  isPlaying : bool;
  currentStep : nat;
  nextStepTime : Q;
  schedulerTimer : option nat;
  (* settings *)
  volume : Q;
  muted : bool
}.

(* scheduling parameters *)
Definition LOOKAHEAD : Q := 0.12.          (* seconds to look ahead *)
Definition SCHEDULE_INTERVAL : Q := 25.    (* ms between scheduler calls *)

(** What the engine acts on besides its own fields: the console, the
    interval timers and timeouts it has registered, and the percussive
    voices it has released into the audio graph. *)
Record World : Type := {
  engine : MusicEngine;
  console : list string;       (* console.warn *)
  intervals : list nat;        (* live setInterval handles *)
  nextHandle : nat;
  timeouts : nat;              (* pending setTimeout(stopInternal) callbacks *)
  voices : list DrumVoice
}.

(** A call returns, or it is left by an exception that nothing in the
    engine catches; either way it leaves a state behind. *)
Inductive Completion (A : Type) : Type :=
| Returned (a : A)
| Threw (a : A).

Arguments Returned {A} a.
Arguments Threw {A} a.

Definition Outcome : Type := Completion World.

Definition world_of (o : Outcome) : World :=
  match o with Returned w | Threw w => w end.

Definition new_MusicEngine : MusicEngine :=
  {| audioCtx := None; masterGain := None;
     pulse1Osc := None; pulse1Gain := None;
     pulse2Osc := None; pulse2Gain := None;
     triOsc := None; triGain := None;
     noiseBuffer := None;
     currentSong := None; currentTrackName := ""; isPlaying := false;
     currentStep := 0; nextStepTime := 0; schedulerTimer := None;
     volume := 0.105; muted := false |}.

Definition new_World : World :=
  {| engine := new_MusicEngine; console := []; intervals := [];
     nextHandle := 0; timeouts := 0; voices := [] |}.

(** Field assignments. *)

Definition set_audio (ctx : option AudioContext) (g : option GainNode)
  (b : option AudioBuffer) (e : MusicEngine) : MusicEngine :=
  {| audioCtx := ctx; masterGain := g;
     pulse1Osc := pulse1Osc e; pulse1Gain := pulse1Gain e;
     pulse2Osc := pulse2Osc e; pulse2Gain := pulse2Gain e;
     triOsc := triOsc e; triGain := triGain e;
     noiseBuffer := b;
     currentSong := currentSong e; currentTrackName := currentTrackName e;
     isPlaying := isPlaying e; currentStep := currentStep e;
     nextStepTime := nextStepTime e; schedulerTimer := schedulerTimer e;
     volume := volume e; muted := muted e |}.

Definition set_audioCtx (ctx : option AudioContext) (e : MusicEngine) :=
  set_audio ctx (masterGain e) (noiseBuffer e) e.

Definition set_masterGain (g : option GainNode) (e : MusicEngine) :=
  set_audio (audioCtx e) g (noiseBuffer e) e.

Definition set_noiseBuffer (b : option AudioBuffer) (e : MusicEngine) :=
  set_audio (audioCtx e) (masterGain e) b e.

Definition set_oscillators
  (p1o : option OscillatorNode) (p1g : option GainNode)
  (p2o : option OscillatorNode) (p2g : option GainNode)
  (to : option OscillatorNode) (tg : option GainNode)
  (e : MusicEngine) : MusicEngine :=
  {| audioCtx := audioCtx e; masterGain := masterGain e;
     pulse1Osc := p1o; pulse1Gain := p1g;
     pulse2Osc := p2o; pulse2Gain := p2g;
     triOsc := to; triGain := tg;
     noiseBuffer := noiseBuffer e;
     currentSong := currentSong e; currentTrackName := currentTrackName e;
     isPlaying := isPlaying e; currentStep := currentStep e;
     nextStepTime := nextStepTime e; schedulerTimer := schedulerTimer e;
     volume := volume e; muted := muted e |}.

Definition set_sequencer
  (song : option Loaded) (trackName : string) (playing : bool)
  (step : nat) (time : Q) (timer : option nat)
  (e : MusicEngine) : MusicEngine :=
  {| audioCtx := audioCtx e; masterGain := masterGain e;
     pulse1Osc := pulse1Osc e; pulse1Gain := pulse1Gain e;
     pulse2Osc := pulse2Osc e; pulse2Gain := pulse2Gain e;
     triOsc := triOsc e; triGain := triGain e;
     noiseBuffer := noiseBuffer e;
     currentSong := song; currentTrackName := trackName;
     isPlaying := playing; currentStep := step;
     nextStepTime := time; schedulerTimer := timer;
     volume := volume e; muted := muted e |}.

Definition set_currentSong (song : option Loaded) (e : MusicEngine) :=
  set_sequencer song (currentTrackName e) (isPlaying e) (currentStep e)
    (nextStepTime e) (schedulerTimer e) e.

Definition set_currentTrackName (trackName : string) (e : MusicEngine) :=
  set_sequencer (currentSong e) trackName (isPlaying e) (currentStep e)
    (nextStepTime e) (schedulerTimer e) e.

Definition set_isPlaying (playing : bool) (e : MusicEngine) :=
  set_sequencer (currentSong e) (currentTrackName e) playing (currentStep e)
    (nextStepTime e) (schedulerTimer e) e.

Definition set_currentStep (step : nat) (e : MusicEngine) :=
  set_sequencer (currentSong e) (currentTrackName e) (isPlaying e) step
    (nextStepTime e) (schedulerTimer e) e.

Definition set_nextStepTime (time : Q) (e : MusicEngine) :=
  set_sequencer (currentSong e) (currentTrackName e) (isPlaying e)
    (currentStep e) time (schedulerTimer e) e.

Definition set_schedulerTimer (timer : option nat) (e : MusicEngine) :=
  set_sequencer (currentSong e) (currentTrackName e) (isPlaying e)
    (currentStep e) (nextStepTime e) timer e.

Definition set_settings (vol : Q) (m : bool) (e : MusicEngine) : MusicEngine :=
  {| audioCtx := audioCtx e; masterGain := masterGain e;
     pulse1Osc := pulse1Osc e; pulse1Gain := pulse1Gain e;
     pulse2Osc := pulse2Osc e; pulse2Gain := pulse2Gain e;
     triOsc := triOsc e; triGain := triGain e;
     noiseBuffer := noiseBuffer e;
     currentSong := currentSong e; currentTrackName := currentTrackName e;
     isPlaying := isPlaying e; currentStep := currentStep e;
     nextStepTime := nextStepTime e; schedulerTimer := schedulerTimer e;
     volume := vol; muted := m |}.

Definition set_volume (vol : Q) (e : MusicEngine) := set_settings vol (muted e) e.
Definition set_muted (m : bool) (e : MusicEngine) := set_settings (volume e) m e.

Definition with_engine (e : MusicEngine) (w : World) : World :=
  {| engine := e; console := console w; intervals := intervals w;
     nextHandle := nextHandle w; timeouts := timeouts w; voices := voices w |}.

Definition on_engine (f : MusicEngine -> MusicEngine) (w : World) : World :=
  with_engine (f (engine w)) w.

Definition console_warn (msg : string) (w : World) : World :=
  {| engine := engine w; console := console w ++ [msg];
     intervals := intervals w; nextHandle := nextHandle w;
     timeouts := timeouts w; voices := voices w |}.

(** [setInterval] hands out a fresh handle and keeps the timer live. *)
Definition setInterval (w : World) : nat * World :=
  (nextHandle w,
   {| engine := engine w; console := console w;
      intervals := nextHandle w :: intervals w;
      nextHandle := S (nextHandle w);
      timeouts := timeouts w; voices := voices w |}).

Definition clearInterval (h : nat) (w : World) : World :=
  {| engine := engine w; console := console w;
     intervals := filter (fun k => negb (Nat.eqb k h)) (intervals w);
     nextHandle := nextHandle w;
     timeouts := timeouts w; voices := voices w |}.

Definition setTimeout (w : World) : World :=
  {| engine := engine w; console := console w; intervals := intervals w;
     nextHandle := nextHandle w; timeouts := S (timeouts w);
     voices := voices w |}.

Definition release_voice (v : DrumVoice) (w : World) : World :=
  {| engine := engine w; console := console w; intervals := intervals w;
     nextHandle := nextHandle w; timeouts := timeouts w;
     voices := voices w ++ [v] |}.

(** ** Initialisation *)

Definition effectiveGain (e : MusicEngine) : Q :=
  if muted e then 0 else volume e.

Definition createNoiseBuffer (e : MusicEngine) : MusicEngine :=
  match audioCtx e with
  | None => e
  | Some ctx =>
      let length := Qfloor (sampleRate ctx * 2) in
      set_noiseBuffer
        (Some {| bufferLength := length; bufferRate := sampleRate ctx |}) e
  end.

(** What the platform does inside the [try] block of [init]: the context
    [new AudioContext()] constructs, if any, and whether [createGain] and
    [createBuffer] throw. *)
Record Platform : Type := {
  newAudioContext : option AudioContext;   (* None: the constructor throws *)
  createGainThrows : bool;
  createBufferThrows : bool
}.

(** [init(existingCtx?)].  An exception leaves the [try] block at the
    statement that raised it, with the assignments made so far in place, and
    is reported on the console. *)
Definition init (existingCtx : option AudioContext) (platform : Platform)
  (w : World) : World :=
  let e := engine w in
  let caught := console_warn "MusicEngine: Audio initialization failed" in
  match audioCtx e with
  | Some _ => w
  | None =>
      let obtained :=
        match existingCtx with
        | Some ctx => Some ctx
        | None => newAudioContext platform
        end in
      match obtained with
      | None => caught w
      | Some ctx =>
          let e := set_audioCtx (Some ctx) e in
          if createGainThrows platform then caught (with_engine e w)
          else
            (* master gain *)
            let g := {| gain := setValue (effectiveGain e) (gain createGain);
                        gainConnected := true |} in
            let e := set_masterGain (Some g) e in
            (* pre-generate the noise buffer (2 seconds of white noise) *)
            if createBufferThrows platform then caught (with_engine e w)
            else with_engine (createNoiseBuffer e) w
      end
  end.

(** ** Pulse wave (NES duty cycles) *)

Definition N : nat := 64.   (* number of harmonics *)

Definition Float32Array (n : nat) : list R := repeat 0%R n.

(** [a[i] = v] on a typed array; a write past the end is dropped. *)
Fixpoint store (i : nat) (v : R) (a : list R) : list R :=
  match a, i with
  | [], _ => []
  | _ :: rest, O => v :: rest
  | x :: rest, S j => x :: store j v rest
  end.

Section PulseWave.
Local Open Scope R_scope.

Definition angle (n : nat) (duty : R) : R := 2 * PI * INR n * duty.

Definition harmonic_real (n : nat) (duty : R) : R :=
  sin (angle n duty) / (INR n * PI).

Definition harmonic_imag (n : nat) (duty : R) : R :=
  (1 - cos (angle n duty)) / (INR n * PI).

(** The body of [for (let n = ...; n < N; n++)], run [count] times from [n]. *)
Fixpoint harmonics (duty : R) (n count : nat) (w : PeriodicWave) : PeriodicWave :=
  match count with
  | O => w
  | S count' =>
      harmonics duty (S n) count'
        {| real := store n (harmonic_real n duty) (real w);
           imag := store n (harmonic_imag n duty) (imag w) |}
  end.

Definition createPulseWave (duty : R) : PeriodicWave :=
  let real := Float32Array N in
  let imag := Float32Array N in
  let real := store 0 0 real in
  let imag := store 0 0 imag in
  harmonics duty 1 (N - 1) {| real := real; imag := imag |}.

End PulseWave.

Arguments createPulseWave : simpl never.

(** ** Oscillator management *)

(** On a member of [Object.prototype] the duty cycle read is [undefined],
    and every harmonic [createPulseWave] computes from it is [NaN].  Where
    [createPeriodicWave] rejects that, the exception leaves
    [createOscillators] when the first pulse oscillator and its gain have
    been created and nothing has been connected or started. *)
Definition createOscillators (song : Loaded) (e : MusicEngine)
  : Completion MusicEngine :=
  match audioCtx e, masterGain e with
  | Some ctx, Some _ =>
      let pulse (wave : OscillatorType) :=
        {| type := wave;
           frequency := setValue 440 (frequency createOscillator);
           oscConnected := true; started := true |} in
      let tri :=
        {| type := triangleType;
           frequency := setValue 110 (frequency createOscillator);
           oscConnected := true; started := true |} in
      let silent :=
        {| gain := setValue 0 (gain createGain); gainConnected := true |} in
      match song with
      | Song song =>
          Returned
            (set_oscillators
               (* pulse 1 (lead) *)
               (Some (pulse (custom (createPulseWave (Q2R (pulse1Duty song))))))
               (Some silent)
               (* pulse 2 (harmony) *)
               (Some (pulse (custom (createPulseWave (Q2R (pulse2Duty song))))))
               (Some silent)
               (* triangle (bass) *)
               (Some tri) (Some silent)
               e)
      | Member _ =>
          if rejectsNaN ctx then
            Threw
              (set_oscillators
                 (Some createOscillator) (Some createGain)
                 (pulse2Osc e) (pulse2Gain e) (triOsc e) (triGain e) e)
          else
            Returned
              (set_oscillators
                 (Some (pulse customNaN)) (Some silent)
                 (Some (pulse customNaN)) (Some silent)
                 (Some tri) (Some silent)
                 e)
      end
  | _, _ => Returned e
  end.

(** The oscillators are stopped, every node is disconnected and the six
    references are dropped. *)
Definition destroyOscillators (e : MusicEngine) : MusicEngine :=
  set_oscillators None None None None None None e.

(** ** Cleanup *)

Definition stopInternal (w : World) : World :=
  let e := engine w in
  let e := set_isPlaying false e in
  let e := set_currentSong None e in
  let e := set_currentTrackName "" e in
  let e := set_currentStep 0 e in
  let w := with_engine e w in
  let w :=
    match schedulerTimer e with
    | Some h => on_engine (set_schedulerTimer None) (clearInterval h w)
    | None => w
    end in
  on_engine destroyOscillators w.

(** ** Public API *)

Definition quote : string := String (ascii_of_nat 34) EmptyString.

Definition unknownTrackWarning (trackName : string) : string :=
  "MusicEngine: Unknown track " ++ quote ++ trackName ++ quote.

(** [audioCtx.resume()]: the request is made, the promise dropped; the
    state of the context is as it was when the call returns. *)
Definition resume (ctx : AudioContext) : AudioContext :=
  {| state := state ctx; sampleRate := sampleRate ctx;
     resumeCalls := S (resumeCalls ctx); rejectsNaN := rejectsNaN ctx |}.

Definition on_masterGain (f : AudioParam -> AudioParam) (e : MusicEngine)
  : MusicEngine :=
  match masterGain e with
  | Some g =>
      set_masterGain
        (Some {| gain := f (gain g); gainConnected := gainConnected g |}) e
  | None => e
  end.

(** [play(trackName)], called when the audio clock reads [now].  A member
    the table inherits from [Object.prototype] is truthy, so the
    unknown-track guard lets it through and it is used as the song. *)
Definition play (trackName : string) (now : Q) (w : World) : Outcome :=
  let e := engine w in
  match audioCtx e, masterGain e with
  | Some _, Some _ =>
      match SONGS_get trackName with
      | Undefined =>
          Returned (console_warn (unknownTrackWarning trackName) w)
      | found =>
          (* don't restart if already playing this track *)
          if isPlaying e && String.eqb (currentTrackName e) trackName
          then Returned w
          else
            (* stop current playback *)
            let w := stopInternal w in
            (* resume context if suspended (browser autoplay policy) *)
            let w :=
              match audioCtx (engine w) with
              | Some ctx =>
                  match state ctx with
                  | suspended =>
                      on_engine (set_audioCtx (Some (resume ctx))) w
                  | running => w
                  end
              | None => w
              end in
            let song :=
              match found with
              | Track song => Song song
              | _ => Member trackName
              end in
            let e := engine w in
            let e := set_currentSong (Some song) e in
            let e := set_currentTrackName trackName e in
            let e := set_currentStep 0 e in
            let e := set_isPlaying true e in
            (* create oscillators for this song *)
            match createOscillators song e with
            | Threw e => Threw (with_engine e w)
            | Returned e =>
                (* fade in the master gain *)
                let e :=
                  on_masterGain
                    (fun p =>
                       linearRampToValueAtTime (effectiveGain e) (now + 0.4)
                         (setValueAtTime 0 now (cancelScheduledValues now p)))
                    e in
                (* begin scheduling *)
                let e := set_nextStepTime (fl (now + fl 0.05)) e in
                let (h, w) := setInterval (with_engine e w) in
                Returned (on_engine (set_schedulerTimer (Some h)) w)
            end
      end
  | _, _ => Returned w
  end.

(** [stop()], called when the audio clock reads [now] and the master gain is
    at [gainNow]. *)
Definition stop (now gainNow : Q) (w : World) : World :=
  let e := engine w in
  if negb (isPlaying e) then w
  else
    (* fade out then clean up *)
    let e :=
      match masterGain e, audioCtx e with
      | Some _, Some _ =>
          on_masterGain
            (fun p =>
               linearRampToValueAtTime 0 (now + 0.3)
                 (setValueAtTime gainNow now (cancelScheduledValues now p)))
            e
      | _, _ => e
      end in
    setTimeout (with_engine e w).

Definition stopImmediate (w : World) : World := stopInternal w.

Definition setVolume (vol : Q) (now : Q) (w : World) : World :=
  let e := set_volume (Qmax 0 (Qmin 1 vol)) (engine w) in
  let e :=
    match masterGain e, audioCtx e with
    | Some _, Some _ =>
        on_masterGain
          (fun p =>
             setValueAtTime (effectiveGain e) now (cancelScheduledValues now p))
          e
    | _, _ => e
    end in
  with_engine e w.

Definition toggleMute (now : Q) (w : World) : bool * World :=
  let e := set_muted (negb (muted (engine w))) (engine w) in
  let e :=
    match masterGain e, audioCtx e with
    | Some _, Some _ =>
        on_masterGain
          (fun p =>
             setValueAtTime (effectiveGain e) now (cancelScheduledValues now p))
          e
    | _, _ => e
    end in
  (muted e, with_engine e w).

Definition isMuted (w : World) : bool := muted (engine w).

Definition isCurrentlyPlaying (w : World) : bool := isPlaying (engine w).

Definition getCurrentTrack (w : World) : string := currentTrackName (engine w).

(** ** Note scheduling *)

(** [noteValue] is the array element read, [None] when the read is out of
    range ([undefined] compares false with every number). *)
Definition scheduleTonalNote (osc : OscillatorNode) (g : GainNode)
  (noteValue : option Q) (channelVol time : Q) : OscillatorNode * GainNode :=
  match noteValue with
  | Some note =>
      if Qltb 0 note then
        (* new note: retrigger with brief mute for NES-like attack *)
        let gp := cancelScheduledValues time (gain g) in
        let gp := setValueAtTime 0 time gp in
        let gp := linearRampToValueAtTime channelVol (time + 0.005) gp in
        let fp := cancelScheduledValues time (frequency osc) in
        let fp := setValueAtTime note time fp in
        ({| type := type osc; frequency := fp;
            oscConnected := oscConnected osc; started := started osc |},
         {| gain := gp; gainConnected := gainConnected g |})
      else if Qeq_bool note 0 then
        (* rest: silence the channel *)
        let gp := cancelScheduledValues time (gain g) in
        let gp := setValueAtTime 0 (time + 0.003) gp in
        (osc, {| gain := gp; gainConnected := gainConnected g |})
      else
        (* sustain: do nothing, previous note continues *)
        (osc, g)
  | None => (osc, g)
  end.

(** ** Drum scheduling *)

Definition drumVoice (ft : FilterType) (cutoff q peak decay time : Q) : DrumVoice :=
  {| filterType := ft; filterFrequency := cutoff; filterQ := q;
     voiceGain :=
       exponentialRampToValueAtTime 0.001 (time + decay)
         (setValueAtTime peak time (gain createGain));
     startTime := time; stopTime := time + 0.3 |}.

Definition scheduleNoise (drumType : option Q) (channelVol time : Q) (w : World)
  : World :=
  let e := engine w in
  match audioCtx e, noiseBuffer e, masterGain e, drumType with
  | Some _, Some _, Some _, Some d =>
      if Qle_bool d 0 then w
      else if Qeq_bool d Songs.K then
        (* kick: deep low-frequency thump *)
        release_voice (drumVoice lowpass 180 1 (channelVol * 2.5) 0.15 time) w
      else if Qeq_bool d Songs.SN then
        (* snare: mid-range crack *)
        release_voice (drumVoice bandpass 1200 0.8 (channelVol * 1.8) 0.1 time) w
      else if Qeq_bool d Songs.HH then
        (* closed hi-hat: sharp tick *)
        release_voice (drumVoice highpass 8000 1 (channelVol * 0.9) 0.04 time) w
      else if Qeq_bool d Songs.OH then
        (* open hi-hat: longer sizzle *)
        release_voice (drumVoice highpass 6000 1 (channelVol * 1.0) 0.18 time) w
      else w
  | _, _, _, _ => w
  end.

(** ** Scheduler *)

Definition tonal (osc : option OscillatorNode) (g : option GainNode)
  (noteValue : option Q) (channelVol time : Q)
  : option OscillatorNode * option GainNode :=
  match osc, g with
  | Some o, Some gn =>
      let (o', gn') := scheduleTonalNote o gn noteValue channelVol time in
      (Some o', Some gn')
  | _, _ => (osc, g)
  end.

(** [scheduleStep] starts by reading [song.pulse1.length].  On a member of
    [Object.prototype], and on [null], that read throws a [TypeError] before
    anything is scheduled. *)
Definition scheduleStep (step : nat) (time : Q) (w : World) : Outcome :=
  let e := engine w in
  match currentSong e with
  | Some (Song song) =>
      let idx := (step mod List.length (pulse1 song))%nat in
      (* tonal channels *)
      let (p1o, p1g) :=
        tonal (pulse1Osc e) (pulse1Gain e)
          (nth_error (pulse1 song) idx) (pulse1Vol song) time in
      let (p2o, p2g) :=
        tonal (pulse2Osc e) (pulse2Gain e)
          (nth_error (pulse2 song) idx) (pulse2Vol song) time in
      let (to, tg) :=
        tonal (triOsc e) (triGain e)
          (nth_error (triangle song) idx) (triVol song) time in
      let w := with_engine (set_oscillators p1o p1g p2o p2g to tg e) w in
      (* noise channel *)
      Returned
        (scheduleNoise (nth_error (noise song) idx) (noiseVol song) time w)
  | _ => Threw w
  end.

(** The step duration as [advanceStep] computes it, each division rounded.
    (A tempo of 0 makes it [Infinity] in JavaScript and 0 here; the
    properties of the scheduler are stated for a positive tempo.) *)
Definition secondsPerStep (song : SongData) : Q :=
  let secondsPerBeat := fl (60 / tempo song) in
  fl (secondsPerBeat / 2).   (* each step = eighth note *)

(** [advanceStep] is called by [schedule] only, after [scheduleStep] has
    returned; with a member of [Object.prototype] loaded [scheduleStep]
    throws, so the call is never made and the case is left as it is here. *)
Definition advanceStep (w : World) : World :=
  let e := engine w in
  match currentSong e with
  | Some (Song song) =>
      let e := set_nextStepTime (fl (nextStepTime e + secondsPerStep song)) e in
      let e := set_currentStep (S (currentStep e)) e in
      let e :=
        if (List.length (pulse1 song) <=? currentStep e)%nat
        then set_currentStep 0 e   (* loop *)
        else e in
      with_engine e w
  | _ => w
  end.

(** The [while] loop of [schedule].  The result carries the number of
    iterations completed and how the loop was left: by its test, or by the
    exception of [scheduleStep]; [None] when [fuel] iterations did not bring
    [nextStepTime] up to [limit]. *)
Fixpoint schedule_loop (fuel : nat) (limit : Q) (w : World)
  : option (nat * Outcome) :=
  if Qltb (nextStepTime (engine w)) limit then
    match fuel with
    | O => None
    | S fuel' =>
        match scheduleStep (currentStep (engine w))
                (nextStepTime (engine w)) w with
        | Threw w => Some (O, Threw w)
        | Returned w =>
            let w := advanceStep w in
            match schedule_loop fuel' limit w with
            | Some (n, o) => Some (S n, o)
            | None => None
            end
        end
    end
  else Some (O, Returned w).

(** [schedule()], the interval callback, run when the audio clock reads
    [currentTime]. *)
Definition schedule (fuel : nat) (currentTime : Q) (w : World)
  : option (nat * Outcome) :=
  let e := engine w in
  match isPlaying e, audioCtx e, currentSong e with
  | true, Some _, Some _ =>
      schedule_loop fuel (fl (currentTime + fl LOOKAHEAD)) w
  | _, _, _ => Some (O, Returned w)
  end.

(** ** Runs of the engine

    [StepWith allowed w w'] holds when one call of the public API with a
    track name that is [allowed], one firing of a timer the engine has
    registered, or a change of the context state by the platform takes the
    world from [w] to [w'].  A call that throws is a step like any other: the
    state it leaves is the state the next call finds. *)

Definition fire_timeout (w : World) : World :=
  {| engine := engine w; console := console w; intervals := intervals w;
     nextHandle := nextHandle w; timeouts := pred (timeouts w);
     voices := voices w |}.

(** The platform moves the context to [st]: a [resume()] takes effect, or
    the browser suspends the context. *)
Definition context_state (st : ContextState) (w : World) : World :=
  match audioCtx (engine w) with
  | Some ctx =>
      on_engine
        (set_audioCtx
           (Some {| state := st; sampleRate := sampleRate ctx;
                    resumeCalls := resumeCalls ctx;
                    rejectsNaN := rejectsNaN ctx |})) w
  | None => w
  end.

Inductive StepWith (allowed : string -> Prop) : World -> World -> Prop :=
| step_init existingCtx platform w :
    StepWith allowed w (init existingCtx platform w)
| step_play trackName now w :
    allowed trackName ->
    StepWith allowed w (world_of (play trackName now w))
| step_stop now gainNow w :
    StepWith allowed w (stop now gainNow w)
| step_stopImmediate w :
    StepWith allowed w (stopImmediate w)
| step_setVolume vol now w :
    StepWith allowed w (setVolume vol now w)
| step_toggleMute now w :
    StepWith allowed w (snd (toggleMute now w))
| step_schedule fuel currentTime n o w :        (* the interval callback *)
    intervals w <> [] ->
    schedule fuel currentTime w = Some (n, o) ->
    StepWith allowed w (world_of o)
| step_timeout w :                              (* the timeout set by stop *)
    timeouts w <> O ->
    StepWith allowed w (stopInternal (fire_timeout w))
| step_context st w :
    StepWith allowed w (context_state st w).

Inductive ReachableWith (allowed : string -> Prop) : World -> Prop :=
| reach_new : ReachableWith allowed new_World
| reach_step w w' :
    ReachableWith allowed w -> StepWith allowed w w' ->
    ReachableWith allowed w'.

(** Every string is a track name [play] can be handed. *)
Definition anyName (trackName : string) : Prop := True.

(** The names that are a track of the table or no property of it at all:
    every name but those the table inherits from [Object.prototype]. *)
Definition ownOrUnknown (trackName : string) : Prop :=
  SONGS_get trackName <> Inherited.

Arguments step_init {allowed}.
Arguments step_play {allowed}.
Arguments step_stop {allowed}.
Arguments step_stopImmediate {allowed}.
Arguments step_setVolume {allowed}.
Arguments step_toggleMute {allowed}.
Arguments step_schedule {allowed}.
Arguments step_timeout {allowed}.
Arguments step_context {allowed}.
Arguments reach_new {allowed}.
Arguments reach_step {allowed}.

Definition Step : World -> World -> Prop := StepWith anyName.
Definition Reachable : World -> Prop := ReachableWith anyName.

(** The public calls of the claim about an engine whose initialisation
    failed, and what they hand back. *)
Inductive PublicCall : Type :=
| call_play (trackName : string) (now : Q)
| call_stop (now gainNow : Q)
| call_stopImmediate
| call_setVolume (vol now : Q)
| call_toggleMute (now : Q)
| call_isMuted
| call_isCurrentlyPlaying
| call_getCurrentTrack.

Inductive ReturnValue : Type :=
| void
| boolean (b : bool)
| text (s : string).

Definition invoke (c : PublicCall) (w : World) : Outcome * ReturnValue :=
  match c with
  | call_play trackName now => (play trackName now w, void)
  | call_stop now gainNow => (Returned (stop now gainNow w), void)
  | call_stopImmediate => (Returned (stopImmediate w), void)
  | call_setVolume vol now => (Returned (setVolume vol now w), void)
  | call_toggleMute now =>
      let (b, w') := toggleMute now w in (Returned w', boolean b)
  | call_isMuted => (Returned w, boolean (isMuted w))
  | call_isCurrentlyPlaying => (Returned w, boolean (isCurrentlyPlaying w))
  | call_getCurrentTrack => (Returned w, text (getCurrentTrack w))
  end.

(** ** The step-time arithmetic on primitive floats *)

Module Binary64.
Local Open Scope float_scope.

(** The rational a finite float stands for. *)
Definition F2Q (f : float) : Q :=
  match Prim2SF f with
  | S754_finite s m e =>
      ((if s then -1 else 1) * inject_Z (Zpos m) * 2 ^ e)%Q
  | _ => 0%Q
  end.

Definition secondsPerStep (tempo : float) : float :=
  let secondsPerBeat := 60 / tempo in
  secondsPerBeat / 2.

(** [nextStepTime += secondsPerStep], [k] times from [t]. *)
Fixpoint accumulate (tempo : float) (k : nat) (t : float) : float :=
  match k with
  | O => t
  | S k' => accumulate tempo k' (t + secondsPerStep tempo)
  end.

(** [nextStepTime += secondsPerStep], [k] times from [t], keeping the
    largest distance met between the accumulated step time and
    [start + i * secondsPerStep]. *)
Fixpoint drift (tempo start : float) (i : float) (k : nat) (t : float)
  (worst : float) : float :=
  match k with
  | O => worst
  | S k' =>
      let t := t + secondsPerStep tempo in
      let i := i + 1 in
      let d := abs (t - (start + i * secondsPerStep tempo)) in
      drift tempo start i k' t (if worst <? d then d else worst)
  end.

(** The iterations of [while (nextStepTime < currentTime + LOOKAHEAD)] with
    the step time advanced as [advanceStep] does. *)
Fixpoint iterations (fuel : nat) (tempo currentTime next : float) : nat :=
  match fuel with
  | O => O
  | S fuel' =>
      if next <? currentTime + 0x1.eb851eb851eb8p-4      (* 0.12 *)
      then S (iterations fuel' tempo currentTime
                (next + secondsPerStep tempo))
      else O
  end.

End Binary64.

(** ** Predicates of the properties *)

Definition ready (e : MusicEngine) : bool :=
  match audioCtx e, masterGain e with
  | Some _, Some _ => true
  | _, _ => false
  end.

Definition masterEvents (w : World) : list AutomationEvent :=
  match masterGain (engine w) with
  | Some g => events (gain g)
  | None => []
  end.

(** Events a [cancelScheduledValues(time)] leaves on a parameter. *)
Definition before (time : Q) (p : AudioParam) : list AutomationEvent :=
  filter (fun e => Qltb (eventTime e) time) (events p).

Definition EqualLengths (song : SongData) : Prop :=
  List.length (pulse1 song) = List.length (pulse2 song) /\
  List.length (pulse2 song) = List.length (triangle song) /\
  List.length (triangle song) = List.length (noise song).

(** The step index [advanceStep] moves to from [step]. *)
Definition wrap (song : SongData) (step : nat) : nat :=
  if (List.length (pulse1 song) <=? S step)%nat then O else S step.

(** From the start of the loop, [k] calls of [advanceStep] leave the step
    index at [k] modulo [period]. *)
Definition LoopPeriod (song : SongData) (period : nat) : Prop :=
  (0 < period)%nat /\
  forall (w : World) (k : nat),
    currentSong (engine w) = Some (Song song) ->
    currentStep (engine w) = O ->
    currentStep (engine (Nat.iter k advanceStep w)) = (k mod period)%nat.

(** The step index stays inside the loop of the loaded song.  A member of
    [Object.prototype] has no [pulse1], hence no loop to stay inside. *)
Definition StepInBounds (w : World) : Prop :=
  match currentSong (engine w) with
  | Some (Song song) =>
      (currentStep (engine w) < List.length (pulse1 song))%nat
  | Some (Member _) => False
  | None => currentStep (engine w) = O
  end.

(** The loaded song is one of the table. *)
Definition SongFromTable (w : World) : Prop :=
  match currentSong (engine w) with
  | Some (Song song) => exists key, ownProperty key SONGS = Some song
  | Some (Member _) => False
  | None => True
  end.

Definition Sequenced (w : World) : Prop := StepInBounds w /\ SongFromTable w.

(** What is loaded is a record of the table, or a member of
    [Object.prototype]. *)
Definition TrackOrMember (w : World) : Prop :=
  match currentSong (engine w) with
  | Some (Song song) => exists key, SONGS_get key = Track song
  | _ => True
  end.

(** The four reads of [scheduleStep] at the current step find an element. *)
Definition LookupsInBounds (w : World) : Prop :=
  match currentSong (engine w) with
  | Some (Song song) =>
      let idx := (currentStep (engine w) mod List.length (pulse1 song))%nat in
      nth_error (pulse1 song) idx <> None /\
      nth_error (pulse2 song) idx <> None /\
      nth_error (triangle song) idx <> None /\
      nth_error (noise song) idx <> None
  | Some (Member _) => False
  | None => True
  end.

(** The engine is playing track [trackName]. *)
Definition Playing (trackName : string) (w : World) : Prop :=
  isPlaying (engine w) = true /\
  currentTrackName (engine w) = trackName /\
  exists song, SONGS_get trackName = Track song /\
               currentSong (engine w) = Some (Song song).

(** No audio resource exists: what a failed initialisation leaves behind. *)
Definition Inert (w : World) : Prop :=
  let e := engine w in
  audioCtx e = None /\ masterGain e = None /\ noiseBuffer e = None /\
  pulse1Osc e = None /\ pulse1Gain e = None /\
  pulse2Osc e = None /\ pulse2Gain e = None /\
  triOsc e = None /\ triGain e = None /\
  currentSong e = None /\ currentTrackName e = ""%string /\
  isPlaying e = false /\ currentStep e = O /\ schedulerTimer e = None /\
  intervals w = [] /\ timeouts w = O /\ voices w = [].

(** [Unchanged w w'] : between [w] and [w'] only the oscillators, their
    gains and the released voices may differ. *)
Definition Unchanged (w w' : World) : Prop :=
  let e := engine w in
  let e' := engine w' in
  audioCtx e' = audioCtx e /\ masterGain e' = masterGain e /\
  noiseBuffer e' = noiseBuffer e /\
  currentSong e' = currentSong e /\
  currentTrackName e' = currentTrackName e /\
  isPlaying e' = isPlaying e /\ currentStep e' = currentStep e /\
  nextStepTime e' = nextStepTime e /\
  schedulerTimer e' = schedulerTimer e /\
  volume e' = volume e /\ muted e' = muted e /\
  console w' = console w /\ intervals w' = intervals w /\
  nextHandle w' = nextHandle w /\ timeouts w' = timeouts w.

(** The step duration of the grid, [60 / tempo / 2] seconds, and the number
    of steps a full lookahead window holds. *)
Definition stepDuration (song : SongData) : Q := 60 / tempo song / 2.

Definition lookaheadSteps (song : SongData) : nat :=
  Z.to_nat (Qceiling (LOOKAHEAD / stepDuration song)).

(** One iteration of the loop of [schedule] that [scheduleStep] lets
    through. *)
Definition iteration (w : World) : World :=
  advanceStep
    (world_of (scheduleStep (currentStep (engine w))
                 (nextStepTime (engine w)) w)).

(** The limit the loop of [schedule] compares the next-step time with. *)
Definition lookaheadLimit (currentTime : Q) : Q :=
  fl (currentTime + fl LOOKAHEAD).

(** The least a next-step time below [limit] grows by in one
    [advanceStep]. *)
Definition progress (song : SongData) (limit : Q) : Q :=
  secondsPerStep song - (limit + secondsPerStep song) * unit_roundoff.

(** The most iterations a tick runs: the distance to the limit over the
    least progress of an iteration. *)
Definition workBound (song : SongData) (limit next : Q) : nat :=
  Z.to_nat (Qceiling ((limit - next) / progress song limit)).

(** The relative deviation allowed to the step time after [k] steps. *)
Definition tolerance (k : nat) : Q :=
  inject_Z (Z.of_nat (k + 2)) * (2 * unit_roundoff).

(** ** Sample runs *)

Definition sampleContext : AudioContext :=
  {| state := suspended; sampleRate := 44100;
     resumeCalls := 0; rejectsNaN := true |}.

(** A context of a platform that lets [NaN] coefficients through. *)
Definition lenientContext : AudioContext :=
  {| state := running; sampleRate := 48000;
     resumeCalls := 0; rejectsNaN := false |}.

(** A platform without audio, and one where everything succeeds. *)
Definition noAudio : Platform :=
  {| newAudioContext := None;
     createGainThrows := false; createBufferThrows := false |}.

Definition samplePlatform : Platform :=
  {| newAudioContext := Some sampleContext;
     createGainThrows := false; createBufferThrows := false |}.

(** A failed and a successful initialisation. *)
Definition failedWorld : World := init None noAudio new_World.
Definition readyWorld : World := init None samplePlatform new_World.

(** [play('game')] at clock reading 0, then the first scheduler tick 25 ms
    later. *)
Definition gameWorld : World := world_of (play "game" 0 readyWorld).

Definition tickedWorld : World :=
  match schedule 8 (fl 0.025) gameWorld with
  | Some (_, o) => world_of o
  | None => gameWorld
  end.

(** The game track taken at 2^70 beats per minute, a tempo no track of the
    table has, and the session of [gameWorld] with it loaded. *)
Definition prestissimo : SongData :=
  {| name := name Songs.game; tempo := 1180591620717411303424;
     pulse1 := pulse1 Songs.game; pulse2 := pulse2 Songs.game;
     triangle := triangle Songs.game; noise := noise Songs.game;
     pulse1Vol := pulse1Vol Songs.game; pulse2Vol := pulse2Vol Songs.game;
     triVol := triVol Songs.game; noiseVol := noiseVol Songs.game;
     pulse1Duty := pulse1Duty Songs.game;
     pulse2Duty := pulse2Duty Songs.game |}.

Definition prestissimoWorld : World :=
  on_engine (set_currentSong (Some (Song prestissimo))) gameWorld.

(** [play('constructor')] at clock reading 0 on the initialised engine. *)
Definition memberWorld : World := world_of (play "constructor" 0 readyWorld).


(** ** Predicates of the session and of the automation timelines *)

Definition present {A : Type} (o : option A) : bool :=
  match o with Some _ => true | None => false end.

(** All six voice nodes are present. *)
Definition voiced (e : MusicEngine) : bool :=
  present (pulse1Osc e) && present (pulse1Gain e) &&
  present (pulse2Osc e) && present (pulse2Gain e) &&
  present (triOsc e) && present (triGain e).

Definition voiceless (e : MusicEngine) : Prop :=
  pulse1Osc e = None /\ pulse1Gain e = None /\
  pulse2Osc e = None /\ pulse2Gain e = None /\
  triOsc e = None /\ triGain e = None.

(** Nothing is playing. *)
Definition Idle (w : World) : Prop :=
  let e := engine w in
  isPlaying e = false /\ currentSong e = None /\
  currentTrackName e = ""%string /\ currentStep e = O /\
  schedulerTimer e = None /\ intervals w = [] /\ voiceless e.

(** A track of the table is playing. *)
Definition InSession (w : World) : Prop :=
  let e := engine w in
  exists song h,
    ready e = true /\ isPlaying e = true /\
    SONGS_get (currentTrackName e) = Track song /\
    currentSong e = Some (Song song) /\
    schedulerTimer e = Some h /\ intervals w = [h] /\
    voiced e = true.

Definition SessionConsistent (w : World) : Prop := Idle w \/ InSession w.

(** [SameSession w w'] : the sequencer, the six voice nodes, the interval
    timers and the released voices are the same in [w] and [w']. *)
Definition SameSession (w w' : World) : Prop :=
  let e := engine w in
  let e' := engine w' in
  isPlaying e' = isPlaying e /\ currentSong e' = currentSong e /\
  currentTrackName e' = currentTrackName e /\
  currentStep e' = currentStep e /\ nextStepTime e' = nextStepTime e /\
  schedulerTimer e' = schedulerTimer e /\
  pulse1Osc e' = pulse1Osc e /\ pulse1Gain e' = pulse1Gain e /\
  pulse2Osc e' = pulse2Osc e /\ pulse2Gain e' = pulse2Gain e /\
  triOsc e' = triOsc e /\ triGain e' = triGain e /\
  intervals w' = intervals w /\ nextHandle w' = nextHandle w /\
  voices w' = voices w.

(** The nodes [createOscillators] builds: a started oscillator with no
    automation, and a gain at 0 with no automation. *)
Definition freshOscillator (t : OscillatorType) (hz : Q) : OscillatorNode :=
  {| type := t; frequency := param hz; oscConnected := true; started := true |}.

Definition silentGain : GainNode :=
  {| gain := param 0; gainConnected := true |}.

(** The volume, the effective gain and the intrinsic value of the master
    gain are within [0, 1]. *)
Definition InRange (q : Q) : Prop := (0 <= q <= 1)%Q.

Definition LevelsInRange (w : World) : Prop :=
  InRange (volume (engine w)) /\
  InRange (effectiveGain (engine w)) /\
  forall g, masterGain (engine w) = Some g -> InRange (value (gain g)).

(** [Math.max(0, Math.min(1, vol))] *)
Definition clamp (vol : Q) : Q := Qmax 0 (Qmin 1 vol).

(** Further sample runs: [setVolume(7)] half a second into the game track,
    and a press of mute at the same moment. *)
Definition loudWorld : World := setVolume 7 0.5 tickedWorld.
Definition mutedWorld : World := snd (toggleMute 0.5 tickedWorld).

(** [TickFrame w w'] : what a scheduler tick leaves alone -- the audio
    resources, the loaded song, its name, the playing flag, the timers, the
    settings and the console. *)
Definition TickFrame (w w' : World) : Prop :=
  let e := engine w in
  let e' := engine w' in
  audioCtx e' = audioCtx e /\ masterGain e' = masterGain e /\
  noiseBuffer e' = noiseBuffer e /\
  currentSong e' = currentSong e /\
  currentTrackName e' = currentTrackName e /\
  isPlaying e' = isPlaying e /\
  schedulerTimer e' = schedulerTimer e /\
  volume e' = volume e /\ muted e' = muted e /\
  console w' = console w /\ intervals w' = intervals w /\
  nextHandle w' = nextHandle w /\ timeouts w' = timeouts w.

(** ** Time order of the automation timelines *)

Definition earlier (a b : AutomationEvent) : Prop :=
  (eventTime a <= eventTime b)%Q.

(** The events are listed in the order of their times. *)
Definition Chronological (l : list AutomationEvent) : Prop :=
  StronglySorted earlier l.

Definition gainEvents (o : option GainNode) : list AutomationEvent :=
  match o with Some g => events (gain g) | None => [] end.

Definition frequencyEvents (o : option OscillatorNode)
  : list AutomationEvent :=
  match o with Some x => events (frequency x) | None => [] end.

(** Every automation timeline the engine owns -- master gain, the gains and
    frequencies of the three tonal channels, the gain of every percussive
    voice released -- is in time order. *)
Definition TimelinesOrdered (w : World) : Prop :=
  let e := engine w in
  Chronological (masterEvents w) /\
  Chronological (gainEvents (pulse1Gain e)) /\
  Chronological (frequencyEvents (pulse1Osc e)) /\
  Chronological (gainEvents (pulse2Gain e)) /\
  Chronological (frequencyEvents (pulse2Osc e)) /\
  Chronological (gainEvents (triGain e)) /\
  Chronological (frequencyEvents (triOsc e)) /\
  Forall (fun v => Chronological (events (voiceGain v))) (voices w).

(** ** Percussive voices *)

(** A voice as [scheduleNoise] builds it: the envelope starts from a positive
    peak at the start time and decays exponentially to 0.001; the decay ends
    before the source is stopped, 0.3 s after its start. *)
Definition WellFormedVoice (v : DrumVoice) : Prop :=
  exists peak decay,
    events (voiceGain v)
    = [SetValue peak (startTime v);
       ExponentialRamp 0.001 (startTime v + decay)] /\
    (0 < peak)%Q /\ (0 < decay)%Q /\ (decay < 0.3)%Q /\
    stopTime v = (startTime v + 0.3)%Q /\
    (0 < filterFrequency v)%Q.

(** ** Runs from a given state *)

Inductive Steps : World -> World -> Prop :=
| steps_refl w : Steps w w
| steps_step w w1 w' : Steps w w1 -> Step w1 w' -> Steps w w'.

(** What an audio resource of the engine is worth once a context is stored:
    [init] does not run again, so a master gain or a noise buffer that is
    missing stays missing. *)
Definition SameResources (w w' : World) : Prop :=
  audioCtx (engine w') <> None /\
  present (masterGain (engine w')) = present (masterGain (engine w)) /\
  noiseBuffer (engine w') = noiseBuffer (engine w).

(** Platforms on which [createGain], respectively [createBuffer], throws, and
    the states [init] leaves there. *)
Definition noGain : Platform :=
  {| newAudioContext := Some sampleContext;
     createGainThrows := true; createBufferThrows := false |}.

Definition noBuffer : Platform :=
  {| newAudioContext := Some sampleContext;
     createGainThrows := false; createBufferThrows := true |}.

Definition gainlessWorld : World := init None noGain new_World.
Definition drumlessWorld : World := init None noBuffer new_World.

(** The message [init] writes when its [try] block is left by an
    exception. *)
Definition initFailure : string := "MusicEngine: Audio initialization failed".

(** The drum values of the song data: rest and the four drums. *)
Definition drumValues : list Q :=
  [Songs.R; Songs.K; Songs.SN; Songs.HH; Songs.OH].

(** * Properties *)

(** ** Comparisons on rationals *)

Ltac qlra := Lqa.lra.
Ltac rlra := Lra.lra.

Lemma Qltb_lt (x y : Q) : Qltb x y = true <-> (x < y)%Q.
Proof.
  unfold Qltb. rewrite negb_true_iff.
  split; intro H.
  - apply Qnot_le_lt. intro Hle. apply Qle_bool_iff in Hle. congruence.
  - destruct (Qle_bool y x) eqn:E; [|reflexivity].
    apply Qle_bool_iff in E. exfalso. exact (Qlt_not_le _ _ H E).
Qed.

Lemma Qltb_ge (x y : Q) : Qltb x y = false <-> (y <= x)%Q.
Proof.
  unfold Qltb. rewrite negb_false_iff. apply Qle_bool_iff.
Qed.

(** ** Binary64 rounding *)

Lemma unit_roundoff_pow : unit_roundoff == 2 ^ (-53).
Proof. reflexivity. Qed.

Lemma pow2_pos (e : Z) : 0 < 2 ^ e.
Proof. apply Qpower_0_lt. reflexivity. Qed.

Lemma pow2_plus (a b : Z) : 2 ^ (a + b) == 2 ^ a * 2 ^ b.
Proof. apply Qpower_plus. discriminate. Qed.

Lemma Qabs_frac (x : Q) :
  Qabs x == inject_Z (Z.abs (Qnum x)) / inject_Z (Zpos (Qden x)).
Proof.
  destruct x as [n d]. cbn [Qabs Qnum Qden]. apply Qmake_Qdiv.
Qed.

Lemma magnitude_le (x : Q) : ~ x == 0 -> 2 ^ magnitude x <= Qabs x.
Proof.
  intro Hx. unfold magnitude.
  set (n := Z.abs (Qnum x)). set (d := Zpos (Qden x)).
  set (e := (Z.log2 n - Z.log2 d)%Z).
  destruct (Qle_bool (2 ^ e) (Qabs x)) eqn:E.
  - apply Qle_bool_iff. exact E.
  - assert (Hn : (0 < n)%Z).
    { subst n. destruct x as [[|p|p] q]; cbn; try lia.
      exfalso. apply Hx. reflexivity. }
    assert (Hd : (0 < d)%Z) by (subst d; lia).
    pose proof (Z.log2_spec n Hn) as [Hn1 _].
    pose proof (Z.log2_spec d Hd) as [_ Hd2].
    pose proof (Z.log2_nonneg n) as Hln.
    pose proof (Z.log2_nonneg d) as Hld.
    rewrite Qabs_frac. fold n d.
    apply Qle_shift_div_l; [change 0 with (inject_Z 0); rewrite <- Zlt_Qlt; exact Hd|].
    apply Qle_trans with (2 ^ (e - 1) * 2 ^ (Z.succ (Z.log2 d))).
    + apply Qmult_le_l; [apply pow2_pos|].
      change 2 with (inject_Z 2). rewrite <- Zpower_Qpower by lia.
      rewrite <- Zle_Qle. lia.
    + rewrite <- pow2_plus.
      replace (e - 1 + Z.succ (Z.log2 d))%Z with (Z.log2 n) by (subst e; lia).
      change 2 with (inject_Z 2). rewrite <- Zpower_Qpower by lia.
      rewrite <- Zle_Qle. exact Hn1.
Qed.

Lemma magnitude_lt (x : Q) : ~ x == 0 -> Qabs x < 2 ^ (magnitude x + 1).
Proof.
  intro Hx. unfold magnitude.
  set (n := Z.abs (Qnum x)). set (d := Zpos (Qden x)).
  set (e := (Z.log2 n - Z.log2 d)%Z).
  assert (Hn : (0 < n)%Z).
  { subst n. destruct x as [[|p|p] q]; cbn; try lia.
    exfalso. apply Hx. reflexivity. }
  assert (Hd : (0 < d)%Z) by (subst d; lia).
  pose proof (Z.log2_spec n Hn) as [_ Hn2].
  pose proof (Z.log2_spec d Hd) as [Hd1 _].
  pose proof (Z.log2_nonneg n) as Hln.
  pose proof (Z.log2_nonneg d) as Hld.
  destruct (Qle_bool (2 ^ e) (Qabs x)) eqn:E.
  - rewrite Qabs_frac. fold n d.
    apply Qlt_shift_div_r; [change 0 with (inject_Z 0); rewrite <- Zlt_Qlt; exact Hd|].
    apply Qlt_le_trans with (2 ^ (Z.succ (Z.log2 n))).
    + change 2 with (inject_Z 2). rewrite <- Zpower_Qpower by lia.
      rewrite <- Zlt_Qlt. exact Hn2.
    + replace (Z.succ (Z.log2 n)) with (e + 1 + Z.log2 d)%Z by (subst e; lia).
      rewrite pow2_plus. apply Qmult_le_l; [apply pow2_pos|].
      change 2 with (inject_Z 2). rewrite <- Zpower_Qpower by lia.
      rewrite <- Zle_Qle. exact Hd1.
  - replace (e - 1 + 1)%Z with e by lia.
    apply Qnot_le_lt. intro H. apply Qle_bool_iff in H. congruence.
Qed.

Lemma rne_error (y : Q) : Qabs (inject_Z (rne y) - y) <= 1 # 2.
Proof.
  pose proof (Qfloor_le y) as Hl. pose proof (Qlt_floor y) as Hu.
  rewrite inject_Z_plus in Hu. change (inject_Z 1) with 1 in Hu.
  apply Qabs_Qle_condition. unfold rne.
  destruct (Qltb (y - inject_Z (Qfloor y)) (1 # 2)) eqn:E1.
  - apply Qltb_lt in E1. split; qlra.
  - apply Qltb_ge in E1.
    assert (Hup : - (1 # 2) <= inject_Z (Qfloor y + 1) - y <= 1 # 2)
      by (rewrite inject_Z_plus; change (inject_Z 1) with 1; split; qlra).
    destruct (Qltb (1 # 2) (y - inject_Z (Qfloor y))) eqn:E2; [exact Hup|].
    apply Qltb_ge in E2.
    destruct (Z.even (Qfloor y)); [split; qlra|exact Hup].
Qed.

Lemma fl_0 : fl 0 = 0.
Proof. reflexivity. Qed.

(** The standard model of rounded arithmetic: the relative error of a
    rounding is at most [2^-53]. *)
Lemma fl_error (x : Q) : Qabs (fl x - x) <= Qabs x * unit_roundoff.
Proof.
  unfold fl. destruct (Qeq_bool x 0) eqn:E.
  - apply Qeq_bool_iff in E. rewrite E. cbn. discriminate.
  - assert (Hx : ~ x == 0)
      by (intro H; apply Qeq_bool_iff in H; congruence).
    set (e := (magnitude x - 52)%Z).
    pose proof (pow2_pos e) as HP.
    pose proof (rne_error (x / 2 ^ e)) as Hr.
    pose proof (magnitude_le x Hx) as Hm.
    replace (magnitude x) with (e + 52)%Z in Hm by (subst e; lia).
    rewrite pow2_plus in Hm.
    set (P := 2 ^ e) in *. set (r := inject_Z (rne (x / P))) in *.
    assert (Eq : r * P - x == (r - x / P) * P) by (field; qlra).
    rewrite Eq, Qabs_Qmult, (Qabs_pos P) by qlra.
    apply Qle_trans with ((1 # 2) * P).
    + apply Qmult_le_compat_r; [exact Hr|qlra].
    + change (2 ^ 52) with (4503599627370496 # 1) in Hm.
      unfold unit_roundoff. qlra.
Qed.

Lemma fl_bounds (x : Q) :
  0 <= x -> x * (1 - unit_roundoff) <= fl x <= x * (1 + unit_roundoff).
Proof.
  intro H. pose proof (fl_error x) as He.
  rewrite (Qabs_pos x) in He by exact H.
  apply Qabs_Qle_condition in He. split; qlra.
Qed.

Lemma fl_pos (x : Q) : 0 < x -> 0 < fl x.
Proof.
  intro H. destruct (fl_bounds x) as [Hl _]; [qlra|].
  apply Qlt_le_trans with (x * (1 - unit_roundoff)); [|exact Hl].
  apply Qmult_lt_0_compat; [exact H|reflexivity].
Qed.

Lemma fl_nonneg (x : Q) : 0 <= x -> 0 <= fl x.
Proof.
  intro H. destruct (fl_bounds x H) as [Hl _].
  apply Qle_trans with (x * (1 - unit_roundoff)); [|exact Hl].
  apply Qmult_le_0_compat; [exact H|discriminate].
Qed.

(** ** The song table *)

Lemma SONGS_lengths :
  Forall (fun entry => EqualLengths (snd entry) /\
                       (0 < List.length (pulse1 (snd entry)))%nat) SONGS.
Proof.
  repeat constructor.
Qed.

Lemma ownProperty_In (key : string) (song : SongData)
  (table : list (string * SongData)) :
  ownProperty key table = Some song -> In (key, song) table.
Proof.
  induction table as [|[k s] rest IH]; simpl; [discriminate|].
  destruct (String.eqb_spec k key) as [->|_].
  - intro H. injection H as ->. left. reflexivity.
  - intro H. right. apply IH. exact H.
Qed.

Lemma table_song_lengths (key : string) (song : SongData) :
  ownProperty key SONGS = Some song ->
  EqualLengths song /\ (0 < List.length (pulse1 song))%nat.
Proof.
  intro H. apply ownProperty_In in H.
  pose proof SONGS_lengths as HF. rewrite Forall_forall in HF.
  exact (HF _ H).
Qed.

Lemma SONGS_get_Track (key : string) (song : SongData) :
  SONGS_get key = Track song -> ownProperty key SONGS = Some song.
Proof.
  unfold SONGS_get. destruct (ownProperty key SONGS) as [s|].
  - intro H. injection H as ->. reflexivity.
  - destruct (existsb _ _); discriminate.
Qed.

(** ** Tonal steps *)

Section TonalNote.
Variables (osc : OscillatorNode) (g : GainNode) (channelVol time : Q).

Lemma sustain_is_ignored (note : Q) :
  (note < 0)%Q -> scheduleTonalNote osc g (Some note) channelVol time = (osc, g).
Proof.
  intro H. unfold scheduleTonalNote.
  assert (E1 : Qltb 0 note = false) by (apply Qltb_ge; qlra).
  assert (E2 : Qeq_bool note 0 = false).
  { destruct (Qeq_bool note 0) eqn:E; [|reflexivity].
    apply Qeq_bool_iff in E. qlra. }
  rewrite E1, E2. reflexivity.
Qed.

Lemma rest_silences (note : Q) :
  (note == 0)%Q ->
  scheduleTonalNote osc g (Some note) channelVol time =
  (osc, {| gain := {| value := value (gain g);
                      events := before time (gain g)
                                ++ [SetValue 0 (time + 0.003)] |};
           gainConnected := gainConnected g |}).
Proof.
  intro H. unfold scheduleTonalNote.
  assert (E1 : Qltb 0 note = false) by (apply Qltb_ge; qlra).
  assert (E2 : Qeq_bool note 0 = true) by (apply Qeq_bool_iff; exact H).
  rewrite E1, E2. reflexivity.
Qed.

Lemma note_retriggers (note : Q) :
  (0 < note)%Q ->
  scheduleTonalNote osc g (Some note) channelVol time =
  ({| type := type osc;
      frequency := {| value := value (frequency osc);
                      events := before time (frequency osc)
                                ++ [SetValue note time] |};
      oscConnected := oscConnected osc; started := started osc |},
   {| gain := {| value := value (gain g);
                 events := (before time (gain g) ++ [SetValue 0 time])
                           ++ [LinearRamp channelVol (time + 0.005)] |};
      gainConnected := gainConnected g |}).
Proof.
  intro H. unfold scheduleTonalNote.
  assert (E1 : Qltb 0 note = true) by (apply Qltb_lt; exact H).
  rewrite E1. reflexivity.
Qed.

End TonalNote.

(** C5.  On a tonal channel a sustain step (-1) schedules nothing on the gain
    or the frequency; a rest step (0) cancels what was pending from the step
    time on and sets the gain to 0 at 3 ms after it, leaving the oscillator
    alone; a positive step value sets the frequency to that value at the step
    time and ramps the gain from 0 at the step time to the channel volume
    5 ms later. *)
Theorem scheduleTonalNote_step_values
  (osc : OscillatorNode) (g : GainNode) (note channelVol time : Q) :
  ((note == Songs.S)%Q ->
     scheduleTonalNote osc g (Some note) channelVol time = (osc, g)) /\
  ((note == Songs.R)%Q ->
     let (osc', g') := scheduleTonalNote osc g (Some note) channelVol time in
     osc' = osc /\
     events (gain g') = before time (gain g) ++ [SetValue 0 (time + 0.003)]) /\
  ((0 < note)%Q ->
     let (osc', g') := scheduleTonalNote osc g (Some note) channelVol time in
     events (frequency osc') =
       before time (frequency osc) ++ [SetValue note time] /\
     events (gain g') =
       before time (gain g)
       ++ [SetValue 0 time; LinearRamp channelVol (time + 0.005)]).
Proof.
  split; [|split]; intro H.
  - apply sustain_is_ignored. unfold Songs.S in H. qlra.
  - rewrite rest_silences by exact H. split; reflexivity.
  - rewrite note_retriggers by exact H. cbn [fst snd frequency gain events].
    split; [reflexivity|]. rewrite <- app_assoc. reflexivity.
Qed.

Lemma scheduleTonalNote_step_values_witness :
  scheduleTonalNote createOscillator createGain (Some Songs.S) 0.105 1
    = (createOscillator, createGain) /\
  events (gain (snd (scheduleTonalNote createOscillator createGain
                       (Some Songs.R) 0.105 1)))
    = [SetValue 0 (1 + 0.003)] /\
  events (gain (snd (scheduleTonalNote createOscillator createGain
                       (Some Songs._A4) 0.105 1)))
    = [SetValue 0 1; LinearRamp 0.105 (1 + 0.005)].
Proof.
  pose proof (scheduleTonalNote_step_values
                createOscillator createGain Songs.S 0.105 1) as [HS _].
  pose proof (scheduleTonalNote_step_values
                createOscillator createGain Songs.R 0.105 1) as [_ [HR _]].
  pose proof (scheduleTonalNote_step_values
                createOscillator createGain Songs._A4 0.105 1) as [_ [_ HN]].
  split; [apply HS; reflexivity|]. split.
  - specialize (HR ltac:(reflexivity)).
    destruct (scheduleTonalNote createOscillator createGain (Some Songs.R) 0.105 1).
    apply HR.
  - specialize (HN ltac:(reflexivity)).
    destruct (scheduleTonalNote createOscillator createGain (Some Songs._A4) 0.105 1).
    apply HN.
Defined.

(** ** The pulse wave *)

Lemma store_length (i : nat) (v : R) (a : list R) :
  List.length (store i v a) = List.length a.
Proof.
  revert i. induction a as [|x a IH]; intros [|i]; simpl; auto.
Qed.

Lemma nth_error_store_same (i : nat) (v : R) (a : list R) :
  (i < List.length a)%nat -> nth_error (store i v a) i = Some v.
Proof.
  revert i. induction a as [|x a IH]; intros [|i] H; simpl in *;
    try lia; [reflexivity|].
  apply IH. lia.
Qed.

Lemma nth_error_store_other (i j : nat) (v : R) (a : list R) :
  i <> j -> nth_error (store i v a) j = nth_error a j.
Proof.
  revert i j. induction a as [|x a IH]; intros [|i] [|j] H; simpl;
    try reflexivity; try congruence.
  apply IH. congruence.
Qed.

Section Harmonics.
Variable duty : R.

Lemma harmonics_length (count n : nat) (w : PeriodicWave) :
  List.length (real (harmonics duty n count w)) = List.length (real w) /\
  List.length (imag (harmonics duty n count w)) = List.length (imag w).
Proof.
  revert n w. induction count as [|count IH]; intros n w; simpl; [auto|].
  destruct (IH (S n)
              {| real := store n (harmonic_real n duty) (real w);
                 imag := store n (harmonic_imag n duty) (imag w) |}) as [Hr Hi].
  simpl in Hr, Hi. rewrite store_length in Hr, Hi. auto.
Qed.

(** The loop never writes below its counter. *)
Lemma harmonics_below (count n i : nat) (w : PeriodicWave) :
  (i < n)%nat ->
  nth_error (real (harmonics duty n count w)) i = nth_error (real w) i /\
  nth_error (imag (harmonics duty n count w)) i = nth_error (imag w) i.
Proof.
  revert n w. induction count as [|count IH]; intros n w H; simpl; [auto|].
  destruct (IH (S n)
              {| real := store n (harmonic_real n duty) (real w);
                 imag := store n (harmonic_imag n duty) (imag w) |}
              ltac:(lia)) as [Hr Hi].
  simpl in Hr, Hi.
  rewrite nth_error_store_other in Hr, Hi by lia. auto.
Qed.

(** Every index the counter passes holds its harmonic afterwards. *)
Lemma harmonics_written (count n i : nat) (w : PeriodicWave) :
  (n <= i < n + count)%nat ->
  (i < List.length (real w))%nat -> (i < List.length (imag w))%nat ->
  nth_error (real (harmonics duty n count w)) i = Some (harmonic_real i duty) /\
  nth_error (imag (harmonics duty n count w)) i = Some (harmonic_imag i duty).
Proof.
  revert n w. induction count as [|count IH]; intros n w H Hr Hi; [lia|].
  simpl.
  destruct (Nat.eq_dec i n) as [->|Hne].
  - destruct (harmonics_below count (S n) n
                {| real := store n (harmonic_real n duty) (real w);
                   imag := store n (harmonic_imag n duty) (imag w) |}
                (Nat.lt_succ_diag_r n)) as [Er Ei].
    rewrite Er, Ei. simpl.
    rewrite !nth_error_store_same by assumption. auto.
  - apply IH; simpl; rewrite ?store_length; lia.
Qed.

End Harmonics.

Lemma createPulseWave_length (duty : R) :
  List.length (real (createPulseWave duty)) = N /\
  List.length (imag (createPulseWave duty)) = N.
Proof.
  unfold createPulseWave.
  destruct (harmonics_length duty (N - 1) 1
              {| real := store 0 0 (Float32Array N);
                 imag := store 0 0 (Float32Array N) |}) as [Hr Hi].
  rewrite Hr, Hi. cbn [real imag]. rewrite !store_length.
  unfold Float32Array. rewrite repeat_length. auto.
Qed.

(** C2, as the code has it.  For a duty cycle [d] in (0,1) the two
    coefficient arrays have [N] = 64 entries, indexed 0 to 63: entry 0 is 0
    in both, and for every harmonic index [n] from 1 to [N - 1] = 63,
    [real[n] = sin(2 pi n d) / (n pi)] and
    [imag[n] = (1 - cos(2 pi n d)) / (n pi)].  There is no entry 64. *)
Theorem createPulseWave_coefficients (d : R) (n : nat) :
  (0 < d < 1)%R -> (1 <= n <= N - 1)%nat ->
  nth_error (real (createPulseWave d)) 0 = Some 0%R /\
  nth_error (imag (createPulseWave d)) 0 = Some 0%R /\
  nth_error (real (createPulseWave d)) n
    = Some (sin (2 * PI * INR n * d) / (INR n * PI))%R /\
  nth_error (imag (createPulseWave d)) n
    = Some ((1 - cos (2 * PI * INR n * d)) / (INR n * PI))%R /\
  nth_error (real (createPulseWave d)) N = None /\
  nth_error (imag (createPulseWave d)) N = None.
Proof.
  intros _ Hn.
  destruct (createPulseWave_length d) as [Lr Li].
  set (w0 := {| real := store 0 0 (Float32Array N);
                imag := store 0 0 (Float32Array N) |}).
  assert (L0 : List.length (real w0) = N /\ List.length (imag w0) = N).
  { subst w0. cbn [real imag]. rewrite !store_length.
    unfold Float32Array. rewrite repeat_length. auto. }
  destruct L0 as [L0r L0i].
  destruct (harmonics_below d (N - 1) 1 0 w0 Nat.lt_0_1) as [Zr Zi].
  destruct (harmonics_written d (N - 1) 1 n w0) as [Cr Ci];
    [unfold N in *; lia | rewrite L0r; unfold N in *; lia
     | rewrite L0i; unfold N in *; lia |].
  assert (E : createPulseWave d = harmonics d 1 (N - 1) w0) by reflexivity.
  rewrite E.
  refine (conj _ (conj _ (conj Cr (conj Ci (conj _ _))))).
  - rewrite Zr. reflexivity.
  - rewrite Zi. reflexivity.
  - apply nth_error_None. rewrite <- E, Lr. lia.
  - apply nth_error_None. rewrite <- E, Li. lia.
Qed.

Lemma createPulseWave_coefficients_witness :
  nth_error (real (createPulseWave (1 / 4))) 1
    = Some (sin (2 * PI * INR 1 * (1 / 4)) / (INR 1 * PI))%R.
Proof.
  apply (createPulseWave_coefficients (1 / 4) 1).
  - rlra.
  - unfold N. lia.
Defined.

(** C2, as it is worded, asks for a coefficient at harmonic index 64: the
    arrays stop at index 63. *)
Lemma createPulseWave_no_harmonic_64 :
  (0 < 1 / 2 < 1)%R /\ (1 <= 64 <= N)%nat /\
  nth_error (real (createPulseWave (1 / 2))) 64
    <> Some (sin (2 * PI * INR 64 * (1 / 2)) / (INR 64 * PI))%R.
Proof.
  split; [rlra|]. split; [unfold N; lia|].
  assert (E : nth_error (real (createPulseWave (1 / 2))) 64 = None).
  { apply nth_error_None.
    destruct (createPulseWave_length (1 / 2)) as [Lr _].
    rewrite Lr. unfold N. lia. }
  rewrite E. discriminate.
Qed.

(** ** Transport: frame lemmas *)

(** Name every field of a world. *)
Ltac open_world w :=
  destruct w as [[ctx mg p1o p1g p2o p2g tro trg nb cs tn pl st nt tm vol mu]
                   con ivs nh tos vcs].

(** Run [play] on a world whose fields are named: the state it leaves is the
    witness, and the rounded first step time and the pulse waves are kept as
    they are while the rest is evaluated. *)
Ltac run_play :=
  match goal with
  | |- exists w', play ?n ?t ?W = _ /\ _ =>
      exists (world_of (play n t W))
  end.

Ltac evaluate_play now :=
  unfold play, createOscillators;
  cbn [engine audioCtx masterGain isPlaying currentTrackName];
  repeat match goal with
         | H : SONGS_get _ = _ |- _ => rewrite H
         | H : (_ && _)%bool = _ |- _ => rewrite H
         end;
  generalize (fl (now + fl 0.05));
  repeat match goal with
         | |- context [createPulseWave ?d] => generalize (createPulseWave d)
         end;
  intros.

Lemma ready_true (e : MusicEngine) :
  ready e = true <->
  (exists ctx g, audioCtx e = Some ctx /\ masterGain e = Some g).
Proof.
  unfold ready. split.
  - destruct (audioCtx e) as [ctx|], (masterGain e) as [g|]; try discriminate.
    intros _. exists ctx, g. auto.
  - intros (ctx & g & -> & ->). reflexivity.
Qed.

Lemma stopInternal_engine (w : World) :
  engine (stopInternal w) =
  set_oscillators None None None None None None
    (set_sequencer None "" false 0 (nextStepTime (engine w)) None (engine w)).
Proof.
  open_world w. unfold stopInternal. cbn.
  destruct tm; reflexivity.
Qed.

Lemma stopInternal_world (w : World) :
  console (stopInternal w) = console w /\
  nextHandle (stopInternal w) = nextHandle w /\
  timeouts (stopInternal w) = timeouts w /\
  voices (stopInternal w) = voices w.
Proof.
  unfold stopInternal. cbn.
  destruct (schedulerTimer (engine w)); cbn; auto.
Qed.

(** ** Toggling mute *)

(** C4, as the code has it.  On an initialised engine [toggleMute] flips the
    muted flag, returns the new flag, cancels every master-gain event
    scheduled at the current time or later (the ramp of a fade in progress
    ends later, so it goes) and sets the gain at the current time to 0 if now
    muted, else to the volume; events before the current time stay, and so
    does every other field of the engine and the rest of the world. *)
Theorem toggleMute_effect (now : Q) (w : World) :
  ready (engine w) = true ->
  let w' := snd (toggleMute now w) in
  let m := negb (muted (engine w)) in
  fst (toggleMute now w) = m /\
  muted (engine w') = m /\
  masterEvents w' =
    filter (fun e => Qltb (eventTime e) now) (masterEvents w)
    ++ [SetValue (if m then 0 else volume (engine w)) now] /\
  set_masterGain (masterGain (engine w))
    (set_muted (muted (engine w)) (engine w')) = engine w /\
  with_engine (engine w) w' = w.
Proof.
  intro H. open_world w. unfold ready in H. cbn in H.
  destruct ctx as [c|], mg as [g|]; try discriminate.
  unfold toggleMute, masterEvents, on_masterGain. cbn.
  destruct g as [gp gc], gp as [gv ge]. cbn.
  repeat split.
Qed.

Lemma toggleMute_effect_witness :
  masterEvents (snd (toggleMute 0.1 gameWorld)) =
    filter (fun e => Qltb (eventTime e) 0.1) (masterEvents gameWorld)
    ++ [SetValue (if negb (muted (engine gameWorld)) then 0
                  else volume (engine gameWorld)) 0.1].
Proof.
  apply (toggleMute_effect 0.1 gameWorld). reflexivity.
Defined.

(** C4, as it is worded, fails on a fade-in in progress: the ramp towards
    the volume that [play] scheduled to end at 0.4 s is gone after a
    [toggleMute] at 0.1 s. *)
Lemma toggleMute_cancels_fade :
  In (LinearRamp 0.105 0.4) (masterEvents gameWorld) /\
  ~ In (LinearRamp 0.105 0.4) (masterEvents (snd (toggleMute 0.1 gameWorld))).
Proof.
  split.
  - vm_compute. right. left. reflexivity.
  - vm_compute. intros [H|[H|[]]]; discriminate.
Qed.

(** ** Track selection *)

Lemma play_not_ready (trackName : string) (now : Q) (w : World) :
  ready (engine w) = false -> play trackName now w = Returned w.
Proof.
  unfold ready, play.
  destruct (audioCtx (engine w)), (masterGain (engine w));
    try discriminate; reflexivity.
Qed.

Lemma play_already_playing (trackName : string) (now : Q) (w : World) :
  SONGS_get trackName <> Undefined ->
  isPlaying (engine w) = true ->
  currentTrackName (engine w) = trackName ->
  play trackName now w = Returned w.
Proof.
  intros Hs Hp Hn. unfold play.
  destruct (audioCtx (engine w)); [|reflexivity].
  destruct (masterGain (engine w)); [|reflexivity].
  rewrite Hp, Hn, String.eqb_refl. cbn.
  destruct (SONGS_get trackName); [reflexivity|reflexivity|congruence].
Qed.

(** What a call that starts a session leaves behind. *)
Lemma play_starts (trackName : string) (song : SongData) (now : Q) (w : World) :
  ready (engine w) = true ->
  SONGS_get trackName = Track song ->
  isPlaying (engine w) && String.eqb (currentTrackName (engine w)) trackName
    = false ->
  exists w',
    play trackName now w = Returned w' /\
    ready (engine w') = true /\
    currentSong (engine w') = Some (Song song) /\
    currentTrackName (engine w') = trackName /\
    isPlaying (engine w') = true /\
    currentStep (engine w') = O /\
    nextStepTime (engine w') = fl (now + fl 0.05) /\
    schedulerTimer (engine w') = Some (nextHandle w) /\
    intervals w' = nextHandle w :: intervals (stopInternal w) /\
    nextHandle w' = S (nextHandle w) /\
    masterEvents w' =
      filter (fun e => Qltb (eventTime e) now) (masterEvents w)
      ++ [SetValue 0 now; LinearRamp (effectiveGain (engine w)) (now + 0.4)] /\
    console w' = console w /\ timeouts w' = timeouts w /\ voices w' = voices w.
Proof.
  intros Hr Hs Hp. open_world w. unfold ready in Hr. cbn in Hr, Hp.
  destruct ctx as [[cst rate rc rj]|], mg as [[[gv ge] gc]|];
    try discriminate.
  run_play. evaluate_play now.
  assert (Hevents :
    forall a b : AutomationEvent,
      (filter (fun e => Qltb (eventTime e) now) ge ++ [a]) ++ [b] =
      filter (fun e => Qltb (eventTime e) now) ge ++ [a; b])
    by (intros a b; rewrite <- app_assoc; reflexivity).
  destruct tm as [h|], cst; vm_compute; repeat split;
    apply (Hevents (SetValue 0 now)).
Qed.

(** What [play] leaves behind when the name is a member of
    [Object.prototype]: the member is loaded as the song and the engine is
    playing.  Where [createPeriodicWave] rejects [NaN] the call is left by
    the exception, with the first oscillator and gain created but not
    connected, no timer, and the master gain and the next-step time
    untouched. *)
Lemma play_member_throws (trackName : string) (now : Q) (w : World) :
  ready (engine w) = true ->
  SONGS_get trackName = Inherited ->
  isPlaying (engine w) && String.eqb (currentTrackName (engine w)) trackName
    = false ->
  option_map rejectsNaN (audioCtx (engine w)) = Some true ->
  exists w',
    play trackName now w = Threw w' /\
    ready (engine w') = true /\
    currentSong (engine w') = Some (Member trackName) /\
    currentTrackName (engine w') = trackName /\
    isPlaying (engine w') = true /\
    currentStep (engine w') = O /\
    nextStepTime (engine w') = nextStepTime (engine w) /\
    schedulerTimer (engine w') = None /\
    intervals w' = intervals (stopInternal w) /\
    nextHandle w' = nextHandle w /\
    masterGain (engine w') = masterGain (engine w) /\
    pulse1Osc (engine w') = Some createOscillator /\
    pulse1Gain (engine w') = Some createGain /\
    pulse2Osc (engine w') = None /\ pulse2Gain (engine w') = None /\
    triOsc (engine w') = None /\ triGain (engine w') = None /\
    console w' = console w /\ timeouts w' = timeouts w /\ voices w' = voices w.
Proof.
  intros Hr Hs Hp Hj. open_world w. unfold ready in Hr. cbn in Hr, Hp, Hj.
  destruct ctx as [[cst rate rc rj]|], mg as [[[gv ge] gc]|];
    try discriminate.
  injection Hj as ->.
  run_play. evaluate_play now.
  destruct tm as [h|], cst; vm_compute; repeat split.
Qed.

(** Where [createPeriodicWave] lets [NaN] through, the call goes on as for a
    track: voices, fade-in, timer. *)
Lemma play_member_returns (trackName : string) (now : Q) (w : World) :
  ready (engine w) = true ->
  SONGS_get trackName = Inherited ->
  isPlaying (engine w) && String.eqb (currentTrackName (engine w)) trackName
    = false ->
  option_map rejectsNaN (audioCtx (engine w)) = Some false ->
  exists w',
    play trackName now w = Returned w' /\
    ready (engine w') = true /\
    currentSong (engine w') = Some (Member trackName) /\
    currentTrackName (engine w') = trackName /\
    isPlaying (engine w') = true /\
    currentStep (engine w') = O /\
    nextStepTime (engine w') = fl (now + fl 0.05) /\
    schedulerTimer (engine w') = Some (nextHandle w) /\
    intervals w' = nextHandle w :: intervals (stopInternal w) /\
    nextHandle w' = S (nextHandle w) /\
    masterEvents w' =
      filter (fun e => Qltb (eventTime e) now) (masterEvents w)
      ++ [SetValue 0 now; LinearRamp (effectiveGain (engine w)) (now + 0.4)] /\
    console w' = console w /\ timeouts w' = timeouts w /\ voices w' = voices w.
Proof.
  intros Hr Hs Hp Hj. open_world w. unfold ready in Hr. cbn in Hr, Hp, Hj.
  destruct ctx as [[cst rate rc rj]|], mg as [[[gv ge] gc]|];
    try discriminate.
  injection Hj as ->.
  run_play. evaluate_play now.
  assert (Hevents :
    forall a b : AutomationEvent,
      (filter (fun e => Qltb (eventTime e) now) ge ++ [a]) ++ [b] =
      filter (fun e => Qltb (eventTime e) now) ge ++ [a; b])
    by (intros a b; rewrite <- app_assoc; reflexivity).
  destruct tm as [h|], cst; vm_compute; repeat split;
    apply (Hevents (SetValue 0 now)).
Qed.

(** C3.  While the engine is playing track [X], [play(X)] returns with the
    world as it was: every field of the engine, the oscillators, the step
    index, the next-step time and the scheduler timer, and no second interval
    timer is registered. *)
Theorem play_same_track_is_noop (trackName : string) (now : Q) (w : World) :
  Playing trackName w -> play trackName now w = Returned w.
Proof.
  intros (Hp & Hn & song & Hs & _).
  apply play_already_playing; [rewrite Hs; discriminate | exact Hp | exact Hn].
Qed.

Lemma play_same_track_is_noop_witness :
  Playing "game" gameWorld /\ play "game" 5 gameWorld = Returned gameWorld.
Proof.
  assert (H : Playing "game" gameWorld).
  { split; [reflexivity|]. split; [reflexivity|].
    exists Songs.game. split; reflexivity. }
  split; [exact H|].
  exact (play_same_track_is_noop "game" 5 gameWorld H).
Defined.

(** Two calls in a row start one session: the second returns the world the
    first one left. *)
Lemma play_twice (trackName : string) (song : SongData) (t0 t1 : Q) (w w1 : World) :
  SONGS_get trackName = Track song ->
  play trackName t0 w = Returned w1 ->
  play trackName t1 w1 = Returned w1.
Proof.
  intros Hs H.
  destruct (ready (engine w)) eqn:Hr.
  - destruct (isPlaying (engine w)
              && String.eqb (currentTrackName (engine w)) trackName) eqn:Hp.
    + apply andb_true_iff in Hp. destruct Hp as [Hp Hn].
      apply String.eqb_eq in Hn.
      rewrite play_already_playing in H
        by (try rewrite Hs; try discriminate; assumption).
      injection H as <-.
      apply play_already_playing; try assumption. rewrite Hs. discriminate.
    + destruct (play_starts trackName song t0 w Hr Hs Hp)
        as (w' & E & _ & _ & Hn & Hpl & _).
      rewrite E in H. injection H as <-.
      apply play_already_playing; try assumption. rewrite Hs. discriminate.
  - rewrite play_not_ready in H by exact Hr. injection H as <-.
    apply play_not_ready. exact Hr.
Qed.

Lemma play_undefined (trackName : string) (now : Q) (w : World) :
  SONGS_get trackName = Undefined ->
  play trackName now w =
  Returned (if ready (engine w)
            then console_warn (unknownTrackWarning trackName) w
            else w).
Proof.
  intro Hs. unfold play, ready.
  destruct (audioCtx (engine w)); [|reflexivity].
  destruct (masterGain (engine w)); [|reflexivity].
  rewrite Hs. reflexivity.
Qed.

(** The ways through [play]: back at once, back after the warning, on to
    start a track, on with a member of [Object.prototype]. *)
Lemma play_cases (trackName : string) (now : Q) (w : World) :
  play trackName now w = Returned w \/
  (ready (engine w) = true /\ SONGS_get trackName = Undefined /\
   play trackName now w
   = Returned (console_warn (unknownTrackWarning trackName) w)) \/
  (ready (engine w) = true /\
   isPlaying (engine w) && String.eqb (currentTrackName (engine w)) trackName
     = false /\
   ((exists song, SONGS_get trackName = Track song) \/
    SONGS_get trackName = Inherited)).
Proof.
  destruct (ready (engine w)) eqn:Hr;
    [|left; apply play_not_ready; exact Hr].
  destruct (SONGS_get trackName) as [song| |] eqn:Hs.
  - destruct (isPlaying (engine w)
              && String.eqb (currentTrackName (engine w)) trackName) eqn:Hp.
    + apply andb_true_iff in Hp. destruct Hp as [Hp Hn].
      apply String.eqb_eq in Hn. left.
      apply play_already_playing; try assumption. rewrite Hs. discriminate.
    + right. right. split; [reflexivity|]. split; [reflexivity|].
      left. exists song. reflexivity.
  - destruct (isPlaying (engine w)
              && String.eqb (currentTrackName (engine w)) trackName) eqn:Hp.
    + apply andb_true_iff in Hp. destruct Hp as [Hp Hn].
      apply String.eqb_eq in Hn. left.
      apply play_already_playing; try assumption. rewrite Hs. discriminate.
    + right. right. auto.
  - right. left. split; [reflexivity|]. split; [reflexivity|].
    rewrite play_undefined, Hr by exact Hs. reflexivity.
Qed.

(** What no way through [play] touches. *)
Lemma play_frame (trackName : string) (now : Q) (w : World) :
  let w' := world_of (play trackName now w) in
  volume (engine w') = volume (engine w) /\
  muted (engine w') = muted (engine w) /\
  noiseBuffer (engine w') = noiseBuffer (engine w) /\
  option_map sampleRate (audioCtx (engine w'))
    = option_map sampleRate (audioCtx (engine w)) /\
  option_map state (audioCtx (engine w'))
    = option_map state (audioCtx (engine w)) /\
  option_map rejectsNaN (audioCtx (engine w'))
    = option_map rejectsNaN (audioCtx (engine w)) /\
  option_map (fun g => value (gain g)) (masterGain (engine w'))
    = option_map (fun g => value (gain g)) (masterGain (engine w)) /\
  option_map gainConnected (masterGain (engine w'))
    = option_map gainConnected (masterGain (engine w)) /\
  timeouts w' = timeouts w /\ voices w' = voices w.
Proof.
  open_world w. cbv zeta. unfold play, createOscillators.
  cbn [engine audioCtx masterGain isPlaying currentTrackName].
  generalize (fl (now + fl 0.05)). intro t.
  destruct ctx as [[cst rate rc rj]|];
    [destruct mg as [[[gv ge] gc]|]|];
    [|vm_compute; repeat split|vm_compute; repeat split].
  destruct (SONGS_get trackName) as [song| |];
    [| |vm_compute; repeat split];
    (destruct (pl && String.eqb tn trackName);
     [vm_compute; repeat split|]);
    repeat match goal with
           | |- context [createPulseWave ?d] =>
               generalize (createPulseWave d); intro
           end;
    destruct tm as [h|], cst, rj; vm_compute; repeat split.
Qed.

(** C6, as the code has it.  For a name that is no property of the table,
    [play(name)] returns normally and leaves the engine, the timers and the
    voices as they were; it writes the warning to the console when the engine
    is initialised, and nothing when it is not. *)
Theorem play_unknown_track_is_ignored (trackName : string) (now : Q) (w : World) :
  SONGS_get trackName = Undefined ->
  play trackName now w =
  Returned (if ready (engine w)
            then console_warn (unknownTrackWarning trackName) w
            else w).
Proof.
  intro Hs. unfold play, ready.
  destruct (audioCtx (engine w)) as [ctx|]; [|reflexivity].
  destruct (masterGain (engine w)) as [g|]; [|reflexivity].
  rewrite Hs. reflexivity.
Qed.

Lemma play_unknown_track_is_ignored_witness :
  SONGS_get "boss" = Undefined /\
  play "boss" 5 gameWorld =
  Returned (console_warn (unknownTrackWarning "boss") gameWorld).
Proof.
  split; [reflexivity|].
  exact (play_unknown_track_is_ignored "boss" 5 gameWorld eq_refl).
Defined.

(** C6, as it is worded, has the unknown name logged in every state: an
    engine that was never initialised returns before the lookup and logs
    nothing. *)
Lemma play_unknown_not_logged_before_init :
  SONGS_get "boss" = Undefined /\
  play "boss" 0 new_World = Returned new_World /\
  console new_World = [].
Proof.
  repeat split.
Qed.

(** A name that is no track but a member of [Object.prototype] passes the
    unknown-track guard: the session in progress is torn down and the member
    is loaded in place of a song. *)
Lemma play_inherited_name_tears_down :
  SONGS_get "constructor" = Inherited /\
  isPlaying (engine gameWorld) = true /\
  exists w, play "constructor" 1 gameWorld = Threw w /\
            currentSong (engine w) = Some (Member "constructor") /\
            isPlaying (engine w) = true /\
            pulse2Osc (engine w) = None /\
            schedulerTimer (engine w) = None /\
            intervals w = [].
Proof.
  split; [reflexivity|]. split; [reflexivity|].
  destruct (play_member_throws "constructor" 1 gameWorld
              eq_refl eq_refl eq_refl eq_refl)
    as (w & E & _ & Es & _ & Ep & _ & _ & Et & Ei & _ & _ & _ & _ & E2 & _).
  exists w. repeat split; assumption.
Qed.

(** ** The scheduler: frame lemmas *)

Lemma scheduleNoise_frame (drumType : option Q) (channelVol time : Q) (w : World) :
  engine (scheduleNoise drumType channelVol time w) = engine w /\
  console (scheduleNoise drumType channelVol time w) = console w /\
  intervals (scheduleNoise drumType channelVol time w) = intervals w /\
  nextHandle (scheduleNoise drumType channelVol time w) = nextHandle w /\
  timeouts (scheduleNoise drumType channelVol time w) = timeouts w.
Proof.
  unfold scheduleNoise.
  destruct (audioCtx (engine w)), (noiseBuffer (engine w)),
    (masterGain (engine w)), drumType as [d|]; auto.
  destruct (Qle_bool d 0); auto.
  repeat (match goal with |- context [if ?b then _ else _] => destruct b end;
          auto).
Qed.

(** With anything but a record of the table loaded, [scheduleStep] throws
    and changes nothing. *)
Lemma scheduleStep_throws (step : nat) (time : Q) (w : World) :
  (forall song, currentSong (engine w) <> Some (Song song)) ->
  scheduleStep step time w = Threw w.
Proof.
  intro H. unfold scheduleStep.
  destruct (currentSong (engine w)) as [[song|key]|]; try reflexivity.
  destruct (H song). reflexivity.
Qed.

Lemma scheduleStep_returns (step : nat) (time : Q) (song : SongData)
  (w : World) :
  currentSong (engine w) = Some (Song song) ->
  scheduleStep step time w = Returned (world_of (scheduleStep step time w)).
Proof.
  intro H. unfold scheduleStep. rewrite H.
  repeat match goal with |- context [tonal ?a ?b ?c ?d ?e] =>
           destruct (tonal a b c d e) end.
  reflexivity.
Qed.

Lemma scheduleStep_threw (step : nat) (time : Q) (w w' : World) :
  scheduleStep step time w = Threw w' ->
  w' = w /\ forall song, currentSong (engine w) <> Some (Song song).
Proof.
  unfold scheduleStep.
  destruct (currentSong (engine w)) as [[song|key]|].
  - repeat match goal with |- context [tonal ?a ?b ?c ?d ?e] =>
             destruct (tonal a b c d e) end.
    discriminate.
  - intro H. injection H as <-. split; [reflexivity|discriminate].
  - intro H. injection H as <-. split; [reflexivity|discriminate].
Qed.

Lemma scheduleStep_frame (step : nat) (time : Q) (w : World) :
  Unchanged w (world_of (scheduleStep step time w)).
Proof.
  unfold scheduleStep.
  destruct (currentSong (engine w)) as [[song|key]|] eqn:Es;
    try (unfold Unchanged; cbn [world_of]; repeat split; fail).
  repeat match goal with |- context [tonal ?a ?b ?c ?d ?e] =>
           destruct (tonal a b c d e) end.
  cbn [world_of].
  match goal with |- Unchanged _ (scheduleNoise ?d ?v ?t ?x) =>
    destruct (scheduleNoise_frame d v t x) as (E & Ec & Ei & Eh & Et)
  end.
  unfold Unchanged. rewrite E, Ec, Ei, Eh, Et. cbn. rewrite Es.
  repeat split.
Qed.

Lemma advanceStep_fields (song : SongData) (w : World) :
  currentSong (engine w) = Some (Song song) ->
  currentSong (engine (advanceStep w)) = Some (Song song) /\
  nextStepTime (engine (advanceStep w))
    = fl (nextStepTime (engine w) + secondsPerStep song) /\
  currentStep (engine (advanceStep w)) = wrap song (currentStep (engine w)) /\
  audioCtx (engine (advanceStep w)) = audioCtx (engine w) /\
  isPlaying (engine (advanceStep w)) = isPlaying (engine w).
Proof.
  intro Es. unfold advanceStep, wrap. rewrite Es.
  cbn [engine with_engine set_nextStepTime set_currentStep set_sequencer
       currentStep currentSong nextStepTime audioCtx isPlaying].
  destruct (List.length (pulse1 song) <=? S (currentStep (engine w)))%nat;
    cbn [engine with_engine set_nextStepTime set_currentStep set_sequencer
         currentStep currentSong nextStepTime audioCtx isPlaying];
    rewrite Es; repeat split.
Qed.

Lemma advanceStep_unloaded (w : World) :
  (forall song, currentSong (engine w) <> Some (Song song)) ->
  advanceStep w = w.
Proof.
  intro H. unfold advanceStep.
  destruct (currentSong (engine w)) as [[song|key]|]; try reflexivity.
  destruct (H song). reflexivity.
Qed.

Lemma wrap_mod (song : SongData) (step : nat) :
  (step < List.length (pulse1 song))%nat ->
  wrap song step = (S step mod List.length (pulse1 song))%nat.
Proof.
  intro H. unfold wrap.
  destruct (Nat.leb_spec (List.length (pulse1 song)) (S step)) as [Hle|Hlt].
  - assert (E : S step = List.length (pulse1 song)) by lia.
    rewrite E. symmetry. apply Nat.Div0.mod_same.
  - symmetry. apply Nat.mod_small. exact Hlt.
Qed.

Lemma wrap_in_bounds (song : SongData) (step : nat) :
  (step < List.length (pulse1 song))%nat ->
  (wrap song step < List.length (pulse1 song))%nat.
Proof.
  intro H. unfold wrap.
  destruct (Nat.leb_spec (List.length (pulse1 song)) (S step)); lia.
Qed.

(** An iteration of the loop with a record of the table loaded. *)
Lemma iteration_fields (song : SongData) (w : World) :
  currentSong (engine w) = Some (Song song) ->
  currentSong (engine (iteration w)) = Some (Song song) /\
  nextStepTime (engine (iteration w))
    = fl (nextStepTime (engine w) + secondsPerStep song) /\
  currentStep (engine (iteration w)) = wrap song (currentStep (engine w)).
Proof.
  intros Hs. unfold iteration.
  destruct (scheduleStep_frame (currentStep (engine w))
              (nextStepTime (engine w)) w)
    as (_ & _ & _ & Es & _ & _ & Ec & Et & _).
  rewrite Hs in Es.
  destruct (advanceStep_fields song _ Es) as (Es1 & Et1 & Ec1 & _).
  rewrite Es1, Et1, Ec1, Et, Ec. auto.
Qed.

Lemma iteration_unloaded (w : World) :
  (forall song, currentSong (engine w) <> Some (Song song)) ->
  iteration w = w.
Proof.
  intro H. unfold iteration.
  rewrite scheduleStep_throws by exact H. cbn [world_of].
  apply advanceStep_unloaded. exact H.
Qed.

(** ** The steps of [advanceStep] *)

Section Advance.
Variables (song : SongData) (w : World).
Hypothesis loaded : currentSong (engine w) = Some (Song song).

Lemma advance_song (k : nat) :
  currentSong (engine (Nat.iter k advanceStep w)) = Some (Song song).
Proof.
  induction k as [|k IH]; [exact loaded|].
  change (Nat.iter (S k) advanceStep w)
    with (advanceStep (Nat.iter k advanceStep w)).
  apply (advanceStep_fields song _ IH).
Qed.

(** Each step adds the one step duration to the step time, and the sum is
    rounded. *)
Lemma advance_time (k : nat) :
  nextStepTime (engine (Nat.iter (S k) advanceStep w))
  = fl (nextStepTime (engine (Nat.iter k advanceStep w))
        + secondsPerStep song).
Proof.
  change (Nat.iter (S k) advanceStep w)
    with (advanceStep (Nat.iter k advanceStep w)).
  apply (advanceStep_fields song _ (advance_song k)).
Qed.

Lemma advance_step (k : nat) :
  (currentStep (engine w) < List.length (pulse1 song))%nat ->
  currentStep (engine (Nat.iter k advanceStep w))
  = ((currentStep (engine w) + k) mod List.length (pulse1 song))%nat.
Proof.
  intro H. induction k as [|k IH].
  - change (Nat.iter 0 advanceStep w) with w.
    rewrite Nat.add_0_r. symmetry. apply Nat.mod_small. exact H.
  - change (Nat.iter (S k) advanceStep w)
      with (advanceStep (Nat.iter k advanceStep w)).
    destruct (advanceStep_fields song _ (advance_song k)) as (_ & _ & Ec & _).
    rewrite Ec, IH, wrap_mod by (apply Nat.mod_upper_bound; lia).
    rewrite Nat.add_succ_r.
    rewrite <- (Nat.add_1_r (_ mod _)), <- (Nat.add_1_r (_ + k)).
    apply Nat.Div0.add_mod_idemp_l.
Qed.

End Advance.

(** ** The loop period *)

(** C9.  The table holds the four tracks game, menu, score and fail; in each
    of them the pulse-1, pulse-2, triangle and noise sequences have the same
    number of steps, and that number is the period of the loop: it is not
    zero and the step index after [k] steps from the start is [k] modulo
    it. *)
Theorem songs_equal_length :
  map fst SONGS = ["game"; "menu"; "score"; "fail"]%string /\
  Forall (fun entry =>
            EqualLengths (snd entry) /\
            LoopPeriod (snd entry) (List.length (noise (snd entry)))) SONGS.
Proof.
  split; [reflexivity|].
  pose proof SONGS_lengths as H.
  eapply Forall_impl; [|exact H].
  intros [key song] [HE Hpos]. cbn [snd] in *. split; [exact HE|].
  destruct HE as (E1 & E2 & E3). rewrite <- E3, <- E2, <- E1.
  split; [exact Hpos|].
  intros w k Hs H0.
  rewrite (advance_step song w Hs k) by lia. rewrite H0. reflexivity.
Qed.

(** ** The accumulated step time *)

Lemma inject_S (k : nat) :
  inject_Z (Z.of_nat (S k)) == inject_Z (Z.of_nat k) + 1.
Proof. rewrite Nat2Z.inj_succ, <- Z.add_1_r, inject_Z_plus. reflexivity. Qed.

Lemma inject_nat_nonneg (k : nat) : 0 <= inject_Z (Z.of_nat k).
Proof.
  change 0 with (inject_Z 0). rewrite <- Zle_Qle. apply Nat2Z.is_nonneg.
Qed.

Lemma stepDuration_pos (song : SongData) :
  0 < tempo song -> 0 < stepDuration song.
Proof.
  intro H. unfold stepDuration.
  assert (0 < 60 / tempo song)
    by (apply Qlt_shift_div_l; [exact H|qlra]).
  apply Qlt_shift_div_l; qlra.
Qed.

(** The step duration the code computes, [60 / tempo / 2] with its two
    roundings, against the exact quotient. *)
Lemma secondsPerStep_bounds (song : SongData) :
  0 < tempo song ->
  stepDuration song * (1 - 2 * unit_roundoff) <= secondsPerStep song /\
  secondsPerStep song <= stepDuration song * (1 + 3 * unit_roundoff).
Proof.
  intro H. unfold secondsPerStep, stepDuration.
  assert (Hq : 0 < 60 / tempo song)
    by (apply Qlt_shift_div_l; [exact H|qlra]).
  set (q := 60 / tempo song) in *.
  destruct (fl_bounds q) as [L1 U1]; [qlra|].
  assert (H1 : 0 <= fl q) by (apply fl_nonneg; qlra).
  assert (E1 : fl q / 2 == fl q * (1 # 2)) by (field).
  assert (E2 : q / 2 == q * (1 # 2)) by (field).
  destruct (fl_bounds (fl q / 2)) as [L2 U2]; [qlra|].
  set (D := fl (fl q / 2)) in *.
  rewrite E1 in L2, U2. rewrite E2.
  clearbody q D. clear E1 E2.
  unfold unit_roundoff in *. split; qlra.
Qed.

Lemma secondsPerStep_pos (song : SongData) :
  0 < tempo song -> 0 < secondsPerStep song.
Proof.
  intro H. unfold secondsPerStep.
  apply fl_pos. apply Qlt_shift_div_l; [qlra|].
  rewrite Qmult_0_l. apply fl_pos.
  apply Qlt_shift_div_l; [exact H|qlra].
Qed.

(** Adding a fixed step [D] with one rounding per step: after [k] steps the
    sum is within [2 k u T] of [x0 + k D], for any bound [T] on the latter. *)
Lemma accumulate_error (D x0 T : Q) (x : nat -> Q) :
  0 <= D -> 0 <= x0 -> x O = x0 ->
  (forall k, x (S k) = fl (x k + D)) ->
  forall k,
    inject_Z (Z.of_nat k) * (2 * unit_roundoff) <= 1 ->
    x0 + inject_Z (Z.of_nat k) * D <= T ->
    0 <= x k /\
    Qabs (x k - (x0 + inject_Z (Z.of_nat k) * D))
      <= inject_Z (Z.of_nat k) * (2 * unit_roundoff) * T.
Proof.
  intros HD Hx0 E0 Estep. induction k as [|k IH]; intros Hk HT.
  - rewrite E0. split; [exact Hx0|].
    apply Qabs_Qle_condition. change (inject_Z (Z.of_nat 0)) with 0.
    unfold unit_roundoff. split; qlra.
  - pose proof (inject_S k) as ES. pose proof (inject_nat_nonneg k) as HK.
    set (K := inject_Z (Z.of_nat k)) in *.
    set (K' := inject_Z (Z.of_nat (S k))) in *.
    assert (HKD : 0 <= K * D) by (apply Qmult_le_0_compat; assumption).
    assert (EK'D : K' * D == K * D + D) by (rewrite ES; ring).
    destruct IH as [Hxk IH].
    { unfold unit_roundoff in *. qlra. }
    { qlra. }
    apply Qabs_Qle_condition in IH. destruct IH as [IL IU].
    rewrite Estep.
    destruct (fl_bounds (x k + D)) as [L U]; [qlra|].
    assert (HT0 : 0 <= T) by qlra.
    assert (HKT : 0 <= K * T) by (apply Qmult_le_0_compat; assumption).
    assert (EK'T : K' * (2 * unit_roundoff) * T
                   == K * (2 * unit_roundoff) * T + 2 * unit_roundoff * T)
      by (rewrite ES; ring).
    assert (HKuT : K * (2 * unit_roundoff) * T <= T).
    { assert (K * (2 * unit_roundoff) <= 1).
      { rewrite ES in Hk. unfold unit_roundoff in *. qlra. }
      rewrite <- (Qmult_1_l T) at 2.
      apply Qmult_le_compat_r; assumption. }
    split; [apply fl_nonneg; qlra|].
    apply Qabs_Qle_condition. rewrite EK'T, EK'D.
    set (B := K * (2 * unit_roundoff) * T) in *.
    set (s := K * D) in *.
    unfold unit_roundoff in *. split; qlra.
Qed.

Lemma Qmult_le_nonneg_l (z x y : Q) : 0 <= z -> x <= y -> z * x <= z * y.
Proof.
  intros Hz H. rewrite (Qmult_comm z x), (Qmult_comm z y).
  apply Qmult_le_compat_r; assumption.
Qed.

(** From the rounded step to the exact one: [k] rounded additions of the
    rounded step duration against [k] times [60 / tempo / 2]. *)
Lemma cumulative_error (d D x0 x K : Q) :
  0 <= d -> 0 <= x0 -> 0 <= K ->
  K * (6 * unit_roundoff) <= 1 ->
  d * (1 - 2 * unit_roundoff) <= D <= d * (1 + 3 * unit_roundoff) ->
  Qabs (x - (x0 + K * D)) <= K * (2 * unit_roundoff) * (x0 + K * D) ->
  Qabs (x - (x0 + K * d)) <= (K + 2) * (2 * unit_roundoff) * (x0 + K * d).
Proof.
  intros Hd Hx0 HK Hk [HL HU] H.
  apply Qabs_Qle_condition in H. destruct H as [L U].
  apply Qabs_Qle_condition.
  assert (HA : 0 <= K * d) by (apply Qmult_le_0_compat; assumption).
  assert (HX : 0 <= K * x0) by (apply Qmult_le_0_compat; assumption).
  pose proof (Qmult_le_nonneg_l K _ _ HK HL) as PL.
  pose proof (Qmult_le_nonneg_l K _ _ HK HU) as PU.
  pose proof (Qmult_le_nonneg_l K _ _ HK PU) as PPU.
  pose proof (Qmult_le_compat_r _ _ (K * d) Hk HA) as HKA.
  unfold unit_roundoff in *.
  split; qlra.
Qed.

(** C1, as the code has it.  With a song loaded whose tempo is a double of
    at least 2^-1000 (so that [60 / tempo] does not overflow; a double is
    never so large that it underflows), each call of [advanceStep] adds the
    one step duration [secondsPerStep] to the next-step time, and the sum is
    rounded to a double.  After [k] calls (up to 2^50) from a step index at
    the start of the loop, with the exact sum no larger than 2^1000, the
    next-step time is within the relative tolerance [2 (k + 2) 2^-53] of its
    initial value plus [k * (60 / t / 2)], it has stayed in the range of the
    doubles, and the step index is [k] modulo the length of the pulse-1
    sequence. *)
Theorem advanceStep_cumulative_time (song : SongData) (w : World) (k : nat) :
  currentSong (engine w) = Some (Song song) ->
  2 ^ (-1000) <= tempo song ->
  List.length (pulse1 song) <> O ->
  currentStep (engine w) = O ->
  0 <= nextStepTime (engine w) ->
  (Z.of_nat k <= 2 ^ 50)%Z ->
  let exact :=
    nextStepTime (engine w) + inject_Z (Z.of_nat k) * (60 / tempo song / 2) in
  exact <= 2 ^ 1000 ->
  nextStepTime (engine (Nat.iter (S k) advanceStep w))
  = fl (nextStepTime (engine (Nat.iter k advanceStep w))
        + secondsPerStep song) /\
  Qabs (nextStepTime (engine (Nat.iter k advanceStep w)) - exact)
    <= tolerance k * exact /\
  nextStepTime (engine (Nat.iter k advanceStep w)) <= 2 ^ 1001 /\
  currentStep (engine (Nat.iter k advanceStep w))
  = (k mod List.length (pulse1 song))%nat.
Proof.
  intros Hs Ht Hlen H0 Hx0 Hk exact Hmax.
  assert (Ht0 : 0 < tempo song)
    by (apply Qlt_le_trans with (2 ^ (-1000)); [apply pow2_pos|exact Ht]).
  pose proof (stepDuration_pos song Ht0) as Hd.
  pose proof (inject_nat_nonneg k) as HK.
  assert (Hexact : 0 <= exact).
  { subst exact. change (60 / tempo song / 2) with (stepDuration song).
    assert (0 <= inject_Z (Z.of_nat k) * stepDuration song)
      by (apply Qmult_le_0_compat; qlra).
    qlra. }
  assert (Etol : tolerance k
                 == (inject_Z (Z.of_nat k) + 2) * (2 * unit_roundoff)).
  { unfold tolerance. rewrite Nat2Z.inj_add, inject_Z_plus. reflexivity. }
  assert (HK50 : inject_Z (Z.of_nat k) <= inject_Z (2 ^ 50))
    by (rewrite <- Zle_Qle; exact Hk).
  assert (Habs : Qabs (nextStepTime (engine (Nat.iter k advanceStep w))
                       - exact) <= tolerance k * exact).
  { subst exact. change (60 / tempo song / 2) with (stepDuration song).
    pose proof (secondsPerStep_pos song Ht0) as HD.
    pose proof (secondsPerStep_bounds song Ht0) as HB.
    assert (HK6 : inject_Z (Z.of_nat k) * (6 * unit_roundoff) <= 1).
    { apply Qle_trans with (inject_Z (2 ^ 50) * (6 * unit_roundoff)).
      - apply Qmult_le_compat_r; [exact HK50|].
        apply Qle_bool_iff. reflexivity.
      - apply Qle_bool_iff. reflexivity. }
    rewrite Etol.
    apply (cumulative_error (stepDuration song) (secondsPerStep song));
      try qlra.
    apply (accumulate_error (secondsPerStep song) (nextStepTime (engine w))
             (nextStepTime (engine w)
              + inject_Z (Z.of_nat k) * secondsPerStep song)
             (fun i => nextStepTime (engine (Nat.iter i advanceStep w))));
      try qlra.
    + reflexivity.
    + intro i. apply (advance_time song w Hs i). }
  split; [apply (advance_time song w Hs k)|]. split; [exact Habs|]. split.
  - assert (Htol : tolerance k * exact <= 1 * exact).
    { apply Qmult_le_compat_r; [|exact Hexact].
      rewrite Etol. change (inject_Z (2 ^ 50)) with 1125899906842624 in HK50.
      unfold unit_roundoff. qlra. }
    apply Qabs_Qle_condition in Habs. destruct Habs as [_ Hup].
    change 1001%Z with (1000 + 1)%Z. rewrite pow2_plus.
    change (2 ^ 1) with 2.
    set (B := 2 ^ 1000) in *. clearbody B. qlra.
  - rewrite (advance_step song w Hs k) by lia. rewrite H0. reflexivity.
Qed.

Lemma advanceStep_cumulative_time_witness :
  nextStepTime (engine (Nat.iter 1001 advanceStep gameWorld))
  = fl (nextStepTime (engine (Nat.iter 1000 advanceStep gameWorld))
        + secondsPerStep Songs.game) /\
  Qabs (nextStepTime (engine (Nat.iter 1000 advanceStep gameWorld))
        - (nextStepTime (engine gameWorld)
           + inject_Z (Z.of_nat 1000) * (60 / tempo Songs.game / 2)))
    <= tolerance 1000
       * (nextStepTime (engine gameWorld)
          + inject_Z (Z.of_nat 1000) * (60 / tempo Songs.game / 2)) /\
  nextStepTime (engine (Nat.iter 1000 advanceStep gameWorld)) <= 2 ^ 1001 /\
  currentStep (engine (Nat.iter 1000 advanceStep gameWorld))
  = (1000 mod List.length (pulse1 Songs.game))%nat.
Proof.
  apply (advanceStep_cumulative_time Songs.game gameWorld 1000).
  - vm_compute. reflexivity.
  - apply Qle_bool_iff. vm_compute. reflexivity.
  - discriminate.
  - vm_compute. reflexivity.
  - apply Qle_bool_iff. vm_compute. reflexivity.
  - apply Z.leb_le. vm_compute. reflexivity.
  - apply Qle_bool_iff. vm_compute. reflexivity.
Defined.

(** C1, as it is worded, has the step time equal to the exact sum.  The
    game track plays at 150 beats per minute, a step of a fifth of a second,
    which no double holds: five steps after the start at 0.05 s the step
    time is not the start plus [5 * (60 / 150 / 2)]. *)
Lemma advanceStep_time_is_rounded :
  currentSong (engine gameWorld) = Some (Song Songs.game) /\
  0 < tempo Songs.game /\
  ~ nextStepTime (engine (Nat.iter 5 advanceStep gameWorld))
    == nextStepTime (engine gameWorld)
       + inject_Z (Z.of_nat 5) * (60 / tempo Songs.game / 2).
Proof.
  split; [vm_compute; reflexivity|]. split; [reflexivity|].
  intro H. apply Qeq_bool_iff in H. vm_compute in H. discriminate.
Qed.

(** ** The rounding against the machine's doubles *)

(** [fl] gives what the processor gives: sums, differences, products and
    quotients of sample doubles, among them the tempos of the table, ties
    and numbers of either sign. *)
Lemma fl_agrees_with_binary64 :
  forallb
    (fun ab : float * float =>
       let (a, b) := ab in
       Qeq_bool (Binary64.F2Q (a + b))
                (fl (Binary64.F2Q a + Binary64.F2Q b)) &&
       Qeq_bool (Binary64.F2Q (a - b))
                (fl (Binary64.F2Q a - Binary64.F2Q b)) &&
       Qeq_bool (Binary64.F2Q (a * b))
                (fl (Binary64.F2Q a * Binary64.F2Q b)) &&
       Qeq_bool (Binary64.F2Q (a / b))
                (fl (Binary64.F2Q a / Binary64.F2Q b)))%float
    [(60, 150); (60, 110); (60, 140); (60, 80);
     (0x1.999999999999ap-5, 0x1.999999999999ap-3);
     (0x1.eb851eb851eb8p-4, 0x1.547ae147ae148p+0);
     (1, 0x1p-53); (1, 0x1.8p-53); (0x1.0000000000001p+0, 0x1p-53);
     (-3, 7); (0x1.5p+40, -0x1.3p-20); (0x1.fffffffffffffp+9, 0x1p-44);
     (1, 3); (2, 3); (0x1.921fb54442d18p+1, 0x1.5bf0a8b145769p+1)]%float
  = true.
Proof.
  vm_compute. reflexivity.
Qed.

(** The step times of the game track from its start at 0.05 s, as the
    embedding computes them and as doubles accumulate them. *)
Lemma advanceStep_agrees_with_binary64 :
  forallb
    (fun k =>
       Qeq_bool
         (Binary64.F2Q (Binary64.accumulate 150 k 0x1.999999999999ap-5))
         (nextStepTime (engine (Nat.iter k advanceStep gameWorld))))
    (seq 0 65) = true.
Proof.
  vm_compute. reflexivity.
Qed.

(** In double precision the accumulated step time is rounded at every
    addition.  Replayed for the four tempos of the table from the start at
    0.05 s, it stays within 2^-29 s (under two nanoseconds) of
    [start + k * secondsPerStep] over the first 10,000 steps. *)
Lemma binary64_drift_10000_steps :
  forallb
    (fun tempo =>
       (Binary64.drift tempo 0x1.999999999999ap-5 0 (100 * 100)
          0x1.999999999999ap-5 0 <=? 0x1p-29)%float)
    [150; 110; 140; 80]%float = true.
Proof.
  vm_compute. reflexivity.
Qed.

(** ** Work per scheduler tick *)

Lemma to_nat_ceiling_ge (x : Q) :
  x <= inject_Z (Z.of_nat (Z.to_nat (Qceiling x))).
Proof.
  apply Qle_trans with (inject_Z (Qceiling x)); [apply Qle_ceiling|].
  rewrite <- Zle_Qle. lia.
Qed.

Lemma Qceiling_succ_le (x : Q) : (Qceiling (x + 1) <= Qceiling x + 1)%Z.
Proof.
  rewrite <- (Qceiling_Z (Qceiling x + 1)). apply Qceiling_resp_le.
  rewrite inject_Z_plus. pose proof (Qle_ceiling x).
  change (inject_Z 1) with 1. qlra.
Qed.

(** An iteration moves the step time on by at least [progress]: the step
    duration less what rounding the sum can take away below [limit]. *)
Lemma iteration_progress (song : SongData) (limit : Q) (w : World) :
  currentSong (engine w) = Some (Song song) ->
  0 < secondsPerStep song ->
  0 <= nextStepTime (engine w) < limit ->
  nextStepTime (engine w) + progress song limit
  <= nextStepTime (engine (iteration w)).
Proof.
  intros Hs HD [H0 Hlt].
  destruct (iteration_fields song w Hs) as (_ & Et & _). rewrite Et.
  destruct (fl_bounds (nextStepTime (engine w) + secondsPerStep song))
    as [L _]; [qlra|].
  unfold progress, unit_roundoff in *. qlra.
Qed.

Section Loop.
Variables (song : SongData) (limit : Q).
Hypothesis step_pos : 0 < secondsPerStep song.

(** The loop ends within [m] iterations when [m] times the progress of an
    iteration covers the distance to [limit]. *)
Lemma schedule_loop_terminates (m : nat) :
  forall w : World,
    currentSong (engine w) = Some (Song song) ->
    0 <= nextStepTime (engine w) ->
    limit - nextStepTime (engine w)
    <= inject_Z (Z.of_nat m) * progress song limit ->
    exists (n : nat) (w' : World),
      (n <= m)%nat /\
      (forall fuel, (n <= fuel)%nat ->
         schedule_loop fuel limit w = Some (n, Returned w')) /\
      currentSong (engine w') = Some (Song song) /\
      limit <= nextStepTime (engine w').
Proof.
  induction m as [|m IH]; intros w Hs H0 Hm.
  - change (inject_Z (Z.of_nat 0)) with 0 in Hm.
    assert (Hge : limit <= nextStepTime (engine w)) by qlra.
    exists O, w. split; [lia|]. split; [|split; assumption].
    intros fuel _. apply Qltb_ge in Hge.
    destruct fuel; cbn [schedule_loop]; rewrite Hge; reflexivity.
  - destruct (Qltb (nextStepTime (engine w)) limit) eqn:E.
    + apply Qltb_lt in E.
      pose proof (iteration_progress song limit w Hs step_pos (conj H0 E))
        as Hp.
      destruct (iteration_fields song w Hs) as (Hs1 & Et1 & _).
      destruct (IH (iteration w) Hs1) as (n & w' & Hn & Hrun & Hs' & Hge).
      * rewrite Et1. apply fl_nonneg. qlra.
      * rewrite inject_S in Hm. qlra.
      * exists (S n), w'. split; [lia|]. split; [|split; assumption].
        intros [|fuel] Hf; [lia|].
        cbn [schedule_loop]. apply Qltb_lt in E. rewrite E.
        rewrite (scheduleStep_returns _ _ song w Hs).
        fold (iteration w). rewrite (Hrun fuel) by lia. reflexivity.
    + exists O, w. split; [lia|]. split.
      * intros fuel _. destruct fuel; cbn [schedule_loop]; rewrite E;
          reflexivity.
      * split; [exact Hs|]. apply Qltb_ge. exact E.
Qed.

(** When an iteration leaves the step time where it was, because the step
    is too small against it to survive the rounding, the loop never ends. *)
Lemma schedule_loop_stalls (fuel : nat) :
  forall w : World,
    currentSong (engine w) = Some (Song song) ->
    nextStepTime (engine w) < limit ->
    fl (nextStepTime (engine w) + secondsPerStep song)
    = nextStepTime (engine w) ->
    schedule_loop fuel limit w = None.
Proof.
  induction fuel as [|fuel IH]; intros w Hs Hlt Hfix;
    pose proof Hlt as E; apply Qltb_lt in E;
    cbn [schedule_loop]; rewrite E; [reflexivity|].
  rewrite (scheduleStep_returns _ _ song w Hs). fold (iteration w).
  destruct (iteration_fields song w Hs) as (Hs1 & Et1 & _).
  rewrite Hfix in Et1.
  rewrite (IH (iteration w) Hs1); [reflexivity| |]; rewrite Et1; assumption.
Qed.

End Loop.

Lemma stepDuration_range (song : SongData) :
  1 <= tempo song <= 1000 -> (3 # 100) <= stepDuration song <= 30.
Proof.
  intros [Hl Hu]. unfold stepDuration.
  assert (Ht : 0 < tempo song) by qlra.
  assert (L : (6 # 100) <= 60 / tempo song)
    by (apply Qle_shift_div_l; [exact Ht|qlra]).
  assert (U : 60 / tempo song <= 60)
    by (apply Qle_shift_div_r; [exact Ht|qlra]).
  assert (E : 60 / tempo song / 2 == 60 / tempo song * (1 # 2))
    by (field; qlra).
  rewrite E. set (q := 60 / tempo song) in *. clearbody q. split; qlra.
Qed.

Lemma lookaheadLimit_bounds (currentTime : Q) :
  0 <= currentTime ->
  (currentTime + LOOKAHEAD * (1 - unit_roundoff)) * (1 - unit_roundoff)
  <= lookaheadLimit currentTime
  <= (currentTime + LOOKAHEAD * (1 + unit_roundoff)) * (1 + unit_roundoff).
Proof.
  intro H. unfold lookaheadLimit.
  destruct (fl_bounds LOOKAHEAD) as [L1 U1]; [unfold LOOKAHEAD; qlra|].
  destruct (fl_bounds (currentTime + fl LOOKAHEAD)) as [L2 U2];
    [unfold LOOKAHEAD in *; unfold unit_roundoff in *; qlra|].
  set (l := fl LOOKAHEAD) in *. set (L := fl (currentTime + l)) in *.
  clearbody L l. unfold LOOKAHEAD, unit_roundoff in *. split; qlra.
Qed.

(** In the range of the engine the progress of an iteration is the step
    duration, up to 2^-18 s. *)
Lemma progress_bound (song : SongData) (currentTime : Q) :
  1 <= tempo song <= 1000 ->
  0 <= currentTime <= 4294967296 ->
  stepDuration song - (1 # 262144)
  <= progress song (lookaheadLimit currentTime).
Proof.
  intros Ht [Hc0 Hc].
  pose proof (stepDuration_range song Ht) as Hd.
  destruct (secondsPerStep_bounds song) as [DL DU]; [qlra|].
  pose proof (lookaheadLimit_bounds currentTime Hc0) as [_ LU].
  unfold progress.
  set (L := lookaheadLimit currentTime) in *.
  set (D := secondsPerStep song) in *.
  set (d := stepDuration song) in *. clearbody L D d.
  unfold LOOKAHEAD, unit_roundoff in *. qlra.
Qed.

(** Between two ticks no further apart than the lookahead, the limit moves
    by the lookahead, up to 2^-18 s. *)
Lemma lookaheadLimit_gap (previous currentTime : Q) :
  0 <= previous <= currentTime ->
  currentTime <= 4294967296 ->
  currentTime <= previous + LOOKAHEAD ->
  lookaheadLimit currentTime - lookaheadLimit previous
  <= LOOKAHEAD + (1 # 262144).
Proof.
  intros [Hp0 Hpc] Hc Hlate.
  pose proof (lookaheadLimit_bounds previous Hp0) as [PL _].
  pose proof (lookaheadLimit_bounds currentTime ltac:(qlra)) as [_ CU].
  set (L := lookaheadLimit currentTime) in *.
  set (L' := lookaheadLimit previous) in *. clearbody L L'.
  unfold LOOKAHEAD, unit_roundoff in *. qlra.
Qed.

Lemma work_within_lookahead (d p gap : Q) :
  (3 # 100) <= d ->
  d - (1 # 262144) <= p ->
  gap <= LOOKAHEAD + (1 # 262144) ->
  (Z.to_nat (Qceiling (gap / p))
   <= Z.to_nat (Qceiling (LOOKAHEAD / d)) + 1)%nat.
Proof.
  intros Hd Hp Hg.
  assert (Er : LOOKAHEAD / d * d == LOOKAHEAD) by (field; qlra).
  assert (Hr0 : 0 <= LOOKAHEAD / d)
    by (apply Qle_shift_div_l; [qlra|unfold LOOKAHEAD; qlra]).
  assert (Hr4 : LOOKAHEAD / d <= 4)
    by (apply Qle_shift_div_r; [qlra|unfold LOOKAHEAD; qlra]).
  pose proof (Qmult_le_nonneg_l (LOOKAHEAD / d) _ _ Hr0 Hp) as Hrp.
  assert (H : gap / p <= LOOKAHEAD / d + 1).
  { apply Qle_shift_div_r; [qlra|].
    set (r := LOOKAHEAD / d) in *. clearbody r.
    unfold LOOKAHEAD in *. qlra. }
  apply Qceiling_resp_le in H.
  pose proof (Qceiling_succ_le (LOOKAHEAD / d)). lia.
Qed.

(** C8, as the code has it.  With a song loaded whose tempo lies between 1
    and 1000 beats per minute, and a clock reading of at most 2^32 s, the
    loop of a scheduler tick terminates, after at most
    [ceil ((limit - nextStepTime) / progress)] iterations, where [limit] is
    the rounded [currentTime + LOOKAHEAD] and [progress] the least an
    iteration moves the step time on.  When the lookahead window was full at
    the previous tick and this tick comes no later than [LOOKAHEAD] after it,
    that is at most [ceil (LOOKAHEAD / (60 / t / 2)) + 1] iterations. *)
Theorem schedule_bounded_work (song : SongData) (currentTime : Q) (w : World) :
  isPlaying (engine w) = true ->
  audioCtx (engine w) <> None ->
  currentSong (engine w) = Some (Song song) ->
  1 <= tempo song <= 1000 ->
  0 <= nextStepTime (engine w) ->
  0 <= currentTime <= 4294967296 ->
  exists (n : nat) (w' : World),
    (forall fuel, (n <= fuel)%nat ->
       schedule fuel currentTime w = Some (n, Returned w')) /\
    (n <= workBound song (lookaheadLimit currentTime)
            (nextStepTime (engine w)))%nat /\
    (forall previous,
       0 <= previous <= currentTime ->
       lookaheadLimit previous <= nextStepTime (engine w) ->
       currentTime <= previous + LOOKAHEAD ->
       (n <= lookaheadSteps song + 1)%nat).
Proof.
  intros Hp Hc Hs Ht H0 Hct.
  assert (Ht0 : 0 < tempo song) by qlra.
  pose proof (secondsPerStep_pos song Ht0) as HD.
  pose proof (stepDuration_range song Ht) as Hd.
  pose proof (progress_bound song currentTime Ht Hct) as Hprog.
  set (limit := lookaheadLimit currentTime) in *.
  assert (Hpos : 0 < progress song limit) by qlra.
  destruct (schedule_loop_terminates song limit HD
              (workBound song limit (nextStepTime (engine w))) w Hs H0)
    as (n & w' & Hn & Hrun & _).
  { unfold workBound.
    set (x := (limit - nextStepTime (engine w)) / progress song limit).
    assert (Ex : x * progress song limit == limit - nextStepTime (engine w))
      by (subst x; field; qlra).
    pose proof (to_nat_ceiling_ge x) as H.
    apply (Qmult_le_compat_r _ _ (progress song limit)) in H; qlra. }
  exists n, w'. split; [|split].
  - intros fuel Hf. unfold schedule. rewrite Hp, Hs.
    destruct (audioCtx (engine w)); [|congruence].
    apply (Hrun fuel Hf).
  - exact Hn.
  - intros previous Hprev Hfull Hlate.
    apply Nat.le_trans with (1 := Hn). unfold workBound, lookaheadSteps.
    apply (work_within_lookahead (stepDuration song)); [qlra|exact Hprog|].
    pose proof (lookaheadLimit_gap previous currentTime Hprev
                  ltac:(qlra) Hlate).
    fold limit in H. qlra.
Qed.

Lemma schedule_bounded_work_witness :
  exists (n : nat) (w' : World),
    (forall fuel, (n <= fuel)%nat ->
       schedule fuel 0.125 tickedWorld = Some (n, Returned w')) /\
    (n <= workBound Songs.game (lookaheadLimit 0.125)
            (nextStepTime (engine tickedWorld)))%nat /\
    (n <= lookaheadSteps Songs.game + 1)%nat.
Proof.
  destruct (schedule_bounded_work Songs.game 0.125 tickedWorld)
    as (n & w' & Hrun & Hwork & Htimely).
  - vm_compute. reflexivity.
  - vm_compute. discriminate.
  - vm_compute. reflexivity.
  - split; apply Qle_bool_iff; vm_compute; reflexivity.
  - apply Qle_bool_iff. vm_compute. reflexivity.
  - split; apply Qle_bool_iff; vm_compute; reflexivity.
  - exists n, w'. split; [exact Hrun|]. split; [exact Hwork|].
    apply (Htimely (fl 0.025)).
    + split; apply Qle_bool_iff; vm_compute; reflexivity.
    + apply Qle_bool_iff. vm_compute. reflexivity.
    + apply Qle_bool_iff. vm_compute. reflexivity.
Defined.

(** C8, as it is worded, bounds the work by the lookahead alone.  After the
    tick at 0.025 s (the clock reads the double [fl 0.025]) the window is
    full: the next step is due at 0.25 s.  A tick that comes only at 1 s
    runs the loop 5 times, where [ceil (LOOKAHEAD / (60 / 150 / 2)) + 1]
    is 2. *)
Lemma schedule_late_tick :
  isPlaying (engine tickedWorld) = true /\
  currentSong (engine tickedWorld) = Some (Song Songs.game) /\
  0 < tempo Songs.game /\
  lookaheadLimit (fl 0.025) <= nextStepTime (engine tickedWorld) /\
  option_map fst (schedule 8 1 tickedWorld) = Some 5%nat /\
  (lookaheadSteps Songs.game + 1 < 5)%nat.
Proof.
  split; [vm_compute; reflexivity|]. split; [vm_compute; reflexivity|].
  split; [reflexivity|].
  split; [apply Qle_bool_iff; vm_compute; reflexivity|].
  split; [vm_compute; reflexivity|].
  apply Nat.ltb_lt. vm_compute. reflexivity.
Qed.

(** The tempo matters to termination.  At 2^70 beats per minute the step is
    so small against a step time of 0.05 s that the rounded sum is the step
    time again: the loop of the tick at 0.025 s never ends. *)
Lemma schedule_stalls_at_extreme_tempo (fuel : nat) :
  schedule fuel (fl 0.025) prestissimoWorld = None.
Proof.
  unfold schedule.
  assert (Ep : isPlaying (engine prestissimoWorld) = true)
    by (vm_compute; reflexivity).
  assert (Es : currentSong (engine prestissimoWorld)
               = Some (Song prestissimo)) by reflexivity.
  assert (Ec : audioCtx (engine prestissimoWorld) <> None)
    by (vm_compute; discriminate).
  rewrite Ep, Es. destruct (audioCtx (engine prestissimoWorld));
    [|congruence].
  apply (schedule_loop_stalls prestissimo _ fuel prestissimoWorld Es).
  - apply Qltb_lt. vm_compute. reflexivity.
  - vm_compute. reflexivity.
Qed.

(** A late first tick, replayed in double precision: the game track
    started at 0, the tick at the double written 1.33.  The embedding runs
    the loop as many times as the doubles do, 8 times (exact arithmetic
    would stop after 7, at 1.45). *)
Lemma schedule_agrees_with_binary64 :
  option_map fst (schedule 20 (fl 1.33) gameWorld) = Some 8%nat /\
  option_map fst (schedule 20 (fl 1.33) gameWorld)
  = Some (Binary64.iterations 20 150 0x1.547ae147ae148p+0
            0x1.999999999999ap-5).
Proof.
  split; vm_compute; reflexivity.
Qed.

(** ** Invariants of a run *)

Lemma advanceStep_frame (w : World) :
  let e := engine w in
  let e' := engine (advanceStep w) in
  audioCtx e' = audioCtx e /\ masterGain e' = masterGain e /\
  noiseBuffer e' = noiseBuffer e /\
  currentSong e' = currentSong e /\
  currentTrackName e' = currentTrackName e /\
  isPlaying e' = isPlaying e /\
  schedulerTimer e' = schedulerTimer e /\
  volume e' = volume e /\ muted e' = muted e /\
  console (advanceStep w) = console w /\
  intervals (advanceStep w) = intervals w /\
  nextHandle (advanceStep w) = nextHandle w /\
  timeouts (advanceStep w) = timeouts w /\
  voices (advanceStep w) = voices w.
Proof.
  unfold advanceStep.
  destruct (currentSong (engine w)) as [[song|key]|] eqn:Es;
    try (cbn; rewrite Es; repeat split; fail).
  cbn.
  destruct (List.length (pulse1 song) <=? S (currentStep (engine w)))%nat;
    cbn; rewrite Es; repeat split.
Qed.

(** Whatever an iteration of the loop preserves, the loop preserves, also
    when [scheduleStep] leaves it by an exception. *)
Lemma schedule_loop_preserves (P : World -> Prop) (limit : Q) :
  (forall w, P w -> P (iteration w)) ->
  forall fuel w n o,
    P w -> schedule_loop fuel limit w = Some (n, o) -> P (world_of o).
Proof.
  intros Hbody fuel. induction fuel as [|fuel IH]; intros w n o HP;
    cbn [schedule_loop];
    destruct (Qltb (nextStepTime (engine w)) limit).
  - discriminate.
  - intro H. injection H as _ <-. exact HP.
  - destruct (scheduleStep (currentStep (engine w))
                (nextStepTime (engine w)) w) as [w1|w1] eqn:Ek.
    + assert (E : advanceStep w1 = iteration w)
        by (unfold iteration; rewrite Ek; reflexivity).
      rewrite E.
      destruct (schedule_loop fuel limit (iteration w)) as [[m o1]|] eqn:El;
        [|discriminate].
      intro H. injection H as _ <-.
      exact (IH _ _ _ (Hbody w HP) El).
    + apply scheduleStep_threw in Ek. destruct Ek as [-> _].
      intro H. injection H as _ <-. exact HP.
  - intro H. injection H as _ <-. exact HP.
Qed.

Lemma schedule_preserves (P : World -> Prop) :
  (forall w, P w -> P (iteration w)) ->
  forall fuel currentTime w n o,
    P w -> schedule fuel currentTime w = Some (n, o) -> P (world_of o).
Proof.
  intros Hbody fuel currentTime w n o HP. unfold schedule.
  destruct (isPlaying (engine w)), (audioCtx (engine w)),
    (currentSong (engine w));
    try (intro H; injection H as _ <-; exact HP).
  apply (schedule_loop_preserves P _ Hbody fuel w n o HP).
Qed.

(** *** The step index *)

Lemma Sequenced_of_fields (w w' : World) :
  currentSong (engine w') = currentSong (engine w) ->
  currentStep (engine w') = currentStep (engine w) ->
  Sequenced w -> Sequenced w'.
Proof.
  unfold Sequenced, StepInBounds, SongFromTable.
  intros -> ->. auto.
Qed.

Lemma Sequenced_stopped (w : World) :
  currentSong (engine w) = None -> currentStep (engine w) = O -> Sequenced w.
Proof.
  unfold Sequenced, StepInBounds, SongFromTable. intros -> ->. auto.
Qed.

Lemma Sequenced_iteration (w : World) : Sequenced w -> Sequenced (iteration w).
Proof.
  intros [Hb Ht].
  destruct (currentSong (engine w)) as [[song|key]|] eqn:Es.
  - destruct (iteration_fields song w Es) as (Es1 & _ & Ec1).
    unfold Sequenced, StepInBounds, SongFromTable in *.
    rewrite Es in Hb, Ht. rewrite Es1, Ec1.
    split; [apply wrap_in_bounds; exact Hb | exact Ht].
  - unfold StepInBounds in Hb. rewrite Es in Hb. destruct Hb.
  - rewrite iteration_unloaded by (rewrite Es; discriminate).
    split; assumption.
Qed.

Lemma Sequenced_stopInternal (w : World) : Sequenced (stopInternal w).
Proof.
  apply Sequenced_stopped; rewrite stopInternal_engine; reflexivity.
Qed.

(** [play] with a name that is a track of the table or no property of it. *)
Lemma Sequenced_play (trackName : string) (now : Q) (w : World) :
  SONGS_get trackName <> Inherited ->
  Sequenced w -> Sequenced (world_of (play trackName now w)).
Proof.
  intros Hown HS.
  destruct (play_cases trackName now w)
    as [E|[(_ & _ & E)|(Hr & Hp & [(song & Hs)|Hs])]];
    try (rewrite E; exact HS); [|contradiction].
  destruct (play_starts trackName song now w Hr Hs Hp)
    as (w1 & E & _ & Es & _ & _ & Ec & _).
  rewrite E. cbn [world_of].
  apply SONGS_get_Track in Hs.
  unfold Sequenced, StepInBounds, SongFromTable. rewrite Es, Ec.
  split; [apply (table_song_lengths trackName song Hs)|].
  exists trackName. exact Hs.
Qed.

Lemma Sequenced_step (w w' : World) :
  Sequenced w -> StepWith ownOrUnknown w w' -> Sequenced w'.
Proof.
  intros HS Hstep. destruct Hstep.
  - (* init *)
    apply (Sequenced_of_fields w); [| |exact HS];
      unfold init; destruct (audioCtx (engine w)); try reflexivity;
      destruct existingCtx, (newAudioContext platform),
        (createGainThrows platform), (createBufferThrows platform);
      try reflexivity.
  - (* play *)
    exact (Sequenced_play trackName now w H HS).
  - (* stop *)
    apply (Sequenced_of_fields w); [| |exact HS];
      unfold stop; destruct (isPlaying (engine w)); cbn; try reflexivity;
      unfold on_masterGain;
      destruct (masterGain (engine w)), (audioCtx (engine w)); reflexivity.
  - (* stopImmediate *)
    apply Sequenced_stopInternal.
  - (* setVolume *)
    apply (Sequenced_of_fields w); [| |exact HS];
      unfold setVolume, on_masterGain; cbn;
      destruct (masterGain (engine w)), (audioCtx (engine w)); reflexivity.
  - (* toggleMute *)
    apply (Sequenced_of_fields w); [| |exact HS];
      unfold toggleMute, on_masterGain; cbn;
      destruct (masterGain (engine w)), (audioCtx (engine w)); reflexivity.
  - (* schedule *)
    exact (schedule_preserves Sequenced Sequenced_iteration
             fuel currentTime w n o HS H0).
  - (* the deferred stopInternal *)
    apply Sequenced_stopInternal.
  - (* the context changes state *)
    apply (Sequenced_of_fields w); [| |exact HS];
      unfold context_state; destruct (audioCtx (engine w)); reflexivity.
Qed.

Lemma Sequenced_reachable (w : World) :
  ReachableWith ownOrUnknown w -> Sequenced w.
Proof.
  induction 1 as [|w w' _ IH Hstep].
  - apply Sequenced_stopped; reflexivity.
  - exact (Sequenced_step w w' IH Hstep).
Qed.

Lemma Sequenced_lookups (w : World) : Sequenced w -> LookupsInBounds w.
Proof.
  intros [Hb Ht]. unfold StepInBounds, SongFromTable, LookupsInBounds in *.
  destruct (currentSong (engine w)) as [[song|key]|]; [|exact Hb|exact I].
  destruct Ht as (key & Hk).
  destruct (table_song_lengths key song Hk) as ((E1 & E2 & E3) & _).
  cbv zeta. rewrite Nat.mod_small by exact Hb.
  repeat split; apply nth_error_Some; lia.
Qed.

(** A run that hands [play] any string reaches every state that a run with
    names of the table or unknown names reaches. *)
Lemma ReachableWith_any (w : World) :
  ReachableWith ownOrUnknown w -> Reachable w.
Proof.
  induction 1 as [|w w' _ IH Hstep]; [exact reach_new|].
  apply (reach_step w w' IH).
  destruct Hstep; try (constructor; assumption).
  - apply step_play. exact I.
  - apply (step_schedule fuel currentTime n o w); assumption.
Qed.

Lemma step_schedule_returned (allowed : string -> Prop) (fuel : nat)
  (currentTime : Q) (n : nat) (w w' : World) :
  intervals w <> [] ->
  schedule fuel currentTime w = Some (n, Returned w') ->
  StepWith allowed w w'.
Proof.
  intros Hi H. exact (step_schedule fuel currentTime n (Returned w') w Hi H).
Qed.

Lemma gameWorld_timer : intervals gameWorld <> [].
Proof. vm_compute. discriminate. Qed.

Lemma gameWorld_first_tick :
  schedule 8 (fl 0.025) gameWorld = Some (1%nat, Returned tickedWorld).
Proof. vm_compute. reflexivity. Qed.

Lemma game_is_own : ownOrUnknown "game".
Proof. discriminate. Qed.

Lemma tickedWorld_reachable : ReachableWith ownOrUnknown tickedWorld.
Proof.
  apply (reach_step gameWorld).
  - apply (reach_step readyWorld).
    + apply (reach_step new_World); [exact reach_new|].
      exact (step_init None samplePlatform new_World).
    + exact (step_play "game" 0 readyWorld game_is_own).
  - exact (step_schedule_returned ownOrUnknown 8 (fl 0.025) 1 gameWorld
             tickedWorld gameWorld_timer gameWorld_first_tick).
Defined.

(** X21.  In every state reached by a run in which
    [play] is handed names of tracks or names that are no property of the
    table -- through [init], [play], [stop], [stopImmediate], [setVolume],
    [toggleMute], a scheduler tick, the deferred [stopInternal] or a change
    of the context's state -- the step index is below the length of the
    loaded song's pulse-1 sequence, or 0 when no song is loaded; the four
    reads of [scheduleStep] at that index find an element; and every
    further step of such a run keeps the index in bounds. *)
Theorem step_index_in_bounds (w : World) :
  ReachableWith ownOrUnknown w ->
  StepInBounds w /\ LookupsInBounds w /\
  (forall w', StepWith ownOrUnknown w w' -> StepInBounds w').
Proof.
  intro H. apply Sequenced_reachable in H.
  split; [exact (proj1 H)|]. split; [exact (Sequenced_lookups w H)|].
  intros w' Hstep. exact (proj1 (Sequenced_step w w' H Hstep)).
Qed.

Lemma step_index_in_bounds_witness :
  ReachableWith ownOrUnknown tickedWorld /\
  StepInBounds tickedWorld /\ LookupsInBounds tickedWorld /\
  (forall w', StepWith ownOrUnknown tickedWorld w' -> StepInBounds w').
Proof.
  split; [exact tickedWorld_reachable|].
  exact (step_index_in_bounds tickedWorld tickedWorld_reachable).
Defined.

Lemma memberWorld_reachable : Reachable memberWorld.
Proof.
  apply (reach_step readyWorld).
  - apply (reach_step new_World); [exact reach_new|].
    exact (step_init None samplePlatform new_World).
  - apply (step_play "constructor" 0 readyWorld). exact I.
Qed.

(** C10 does not hold after [play('constructor')].  The call on the
    initialised engine is a step of a run.  The guard [if (!song)] lets the member of
    [Object.prototype] through: it is loaded as the song and the engine is
    playing, the step index has no sequence to stay within, and
    [scheduleStep], which reads [song.pulse1.length] first, throws at every
    step.  With a name of the table, or one that is no property of it, the
    call keeps the step index in bounds. *)
Theorem play_member_breaks_step_bound :
  Reachable memberWorld /\
  SONGS_get "constructor" = Inherited /\
  currentSong (engine memberWorld) = Some (Member "constructor") /\
  isPlaying (engine memberWorld) = true /\
  ~ StepInBounds memberWorld /\
  ~ LookupsInBounds memberWorld /\
  (forall step time,
     scheduleStep step time memberWorld = Threw memberWorld) /\
  Sequenced readyWorld /\
  Sequenced (world_of (play "game" 0 readyWorld)) /\
  Sequenced (world_of (play "boss" 0 readyWorld)).
Proof.
  assert (Es : currentSong (engine memberWorld)
               = Some (Member "constructor")) by (vm_compute; reflexivity).
  split; [exact memberWorld_reachable|]. split; [reflexivity|].
  split; [exact Es|]. split; [vm_compute; reflexivity|].
  split; [unfold StepInBounds; rewrite Es; exact (fun H => H)|].
  split; [unfold LookupsInBounds; rewrite Es; exact (fun H => H)|].
  split; [intros step time; apply scheduleStep_throws; rewrite Es;
          discriminate|].
  assert (HS : Sequenced readyWorld)
    by (apply Sequenced_stopped; vm_compute; reflexivity).
  split; [exact HS|].
  split; apply Sequenced_play; try exact HS; discriminate.
Qed.

(** *** An engine without audio context *)

Lemma audioCtx_kept_by_iteration (w : World) :
  audioCtx (engine w) <> None -> audioCtx (engine (iteration w)) <> None.
Proof.
  intro H. unfold iteration.
  destruct (advanceStep_frame
              (world_of (scheduleStep (currentStep (engine w))
                           (nextStepTime (engine w)) w))) as (E1 & _).
  destruct (scheduleStep_frame (currentStep (engine w))
              (nextStepTime (engine w)) w) as (E2 & _).
  cbv zeta in E1. rewrite E1, E2. exact H.
Qed.

Ltac keep_ctx w :=
  unfold on_masterGain;
  destruct (masterGain (engine w)) eqn:Eg;
  destruct (audioCtx (engine w)) eqn:Ec;
  cbn; rewrite ?Eg; cbn; rewrite ?Ec; congruence.

(** Once created, the audio context stays. *)
Lemma audioCtx_kept (w w' : World) :
  Step w w' -> audioCtx (engine w) <> None -> audioCtx (engine w') <> None.
Proof.
  intros Hstep Hc. destruct Hstep.
  - unfold init. destruct (audioCtx (engine w)) eqn:E; [|congruence].
    rewrite E. discriminate.
  - destruct (play_frame trackName now w) as (_ & _ & _ & E & _).
    destruct (audioCtx (engine w)); [|congruence].
    destruct (audioCtx (engine (world_of (play trackName now w))));
      discriminate.
  - unfold stop. destruct (isPlaying (engine w)); cbn; [|exact Hc].
    keep_ctx w.
  - unfold stopImmediate. rewrite stopInternal_engine. exact Hc.
  - unfold setVolume. cbn. keep_ctx w.
  - unfold toggleMute. cbn. keep_ctx w.
  - exact (schedule_preserves (fun x => audioCtx (engine x) <> None)
             audioCtx_kept_by_iteration fuel currentTime w n o Hc H0).
  - rewrite stopInternal_engine. exact Hc.
  - unfold context_state. destruct (audioCtx (engine w)); [|congruence].
    discriminate.
Qed.

Ltac open_inert H :=
  unfold Inert in H; cbn in H;
  destruct H as (? & ? & ? & ? & ? & ? & ? & ? & ? & ? & ? & ? & ? & ? & ? & ? & ?);
  subst.

Lemma Inert_stopInternal (w : World) : Inert w -> stopInternal w = w.
Proof.
  intro H. open_world w. open_inert H. reflexivity.
Qed.

Lemma Inert_not_ready (w : World) : Inert w -> ready (engine w) = false.
Proof.
  intro H. unfold ready. destruct H as (-> & _). reflexivity.
Qed.

Lemma Inert_console_warn (msg : string) (w : World) :
  Inert w -> Inert (console_warn msg w).
Proof.
  intro H. exact H.
Qed.

Lemma Inert_settings (vol : Q) (m : bool) (w : World) :
  Inert w -> Inert (with_engine (set_settings vol m (engine w)) w).
Proof.
  intro H. exact H.
Qed.

Lemma Inert_setVolume (level now : Q) (w : World) :
  Inert w ->
  setVolume level now w
  = with_engine (set_settings (Qmax 0 (Qmin 1 level)) (muted (engine w))
                   (engine w)) w.
Proof.
  intro H. open_world w. open_inert H. reflexivity.
Qed.

Lemma Inert_toggleMute (now : Q) (w : World) :
  Inert w ->
  toggleMute now w
  = (negb (muted (engine w)),
     with_engine (set_settings (volume (engine w)) (negb (muted (engine w)))
                    (engine w)) w).
Proof.
  intro H. open_world w. open_inert H. reflexivity.
Qed.

Lemma Inert_stop (now gainNow : Q) (w : World) :
  Inert w -> stop now gainNow w = w.
Proof.
  intro H. unfold stop.
  destruct H as (_ & _ & _ & _ & _ & _ & _ & _ & _ & _ & _ & -> & _).
  reflexivity.
Qed.

Lemma Inert_schedule (fuel : nat) (currentTime : Q) (w : World) :
  Inert w -> schedule fuel currentTime w = Some (O, Returned w).
Proof.
  intro H. unfold schedule.
  destruct H as (_ & _ & _ & _ & _ & _ & _ & _ & _ & _ & _ & -> & _).
  reflexivity.
Qed.

Lemma Inert_step (w w' : World) :
  Inert w -> Step w w' -> audioCtx (engine w') = None -> Inert w'.
Proof.
  intros HI Hstep Hc. destruct Hstep.
  - revert Hc. unfold init.
    destruct (audioCtx (engine w)); [intros _; exact HI|].
    destruct existingCtx, (newAudioContext platform),
      (createGainThrows platform), (createBufferThrows platform);
      cbn; try discriminate;
      intros _; apply Inert_console_warn; exact HI.
  - rewrite play_not_ready by (apply Inert_not_ready; exact HI). exact HI.
  - rewrite Inert_stop by exact HI. exact HI.
  - unfold stopImmediate. rewrite Inert_stopInternal by exact HI. exact HI.
  - rewrite Inert_setVolume by exact HI. apply Inert_settings. exact HI.
  - rewrite Inert_toggleMute by exact HI. apply Inert_settings. exact HI.
  - rewrite Inert_schedule in H0 by exact HI. injection H0 as _ <-. exact HI.
  - destruct HI as (_ & _ & _ & _ & _ & _ & _ & _ & _ & _ & _ & _ & _ & _ & _ & Ht & _).
    congruence.
  - unfold context_state. rewrite (proj1 HI). exact HI.
Qed.

(** Without an audio context nothing else exists either. *)
Lemma Inert_reachable (w : World) :
  Reachable w -> audioCtx (engine w) = None -> Inert w.
Proof.
  induction 1 as [|w w' _ IH Hstep]; intro Hc.
  - repeat split.
  - destruct (audioCtx (engine w)) as [ctx|] eqn:Ec.
    + exfalso. apply (audioCtx_kept w w' Hstep); [rewrite Ec; discriminate|].
      exact Hc.
    + exact (Inert_step w w' (IH eq_refl) Hstep Hc).
Qed.

(** C7.  When initialisation failed and the audio context is still null,
    each of [play], [stop], [stopImmediate], [setVolume], [toggleMute],
    [isMuted], [isCurrentlyPlaying] and [getCurrentTrack] returns normally
    and leaves the engine without context, gain, buffer, oscillators, song or
    timer, and the world without timers or voices; the console is not
    written.  [setVolume] and [toggleMute] store the new volume and the new
    flag; the other calls change nothing at all. *)
Theorem inert_engine_calls_are_harmless (c : PublicCall) (w : World) :
  Reachable w ->
  audioCtx (engine w) = None ->
  exists w' v,
    invoke c w = (Returned w', v) /\
    Inert w' /\
    console w' = console w /\
    w' = with_engine (set_settings (volume (engine w')) (muted (engine w'))
                        (engine w)) w /\
    match c with
    | call_setVolume _ _ | call_toggleMute _ => True
    | _ => w' = w
    end.
Proof.
  intros Hreach Hc. pose proof (Inert_reachable w Hreach Hc) as HI.
  assert (Hself : w = with_engine (set_settings (volume (engine w))
                                     (muted (engine w)) (engine w)) w)
    by (open_world w; reflexivity).
  destruct c; cbn [invoke].
  - rewrite play_not_ready by (apply Inert_not_ready; exact HI).
    exists w, void. auto.
  - rewrite Inert_stop by exact HI. exists w, void. auto.
  - unfold stopImmediate. rewrite Inert_stopInternal by exact HI.
    exists w, void. auto.
  - rewrite Inert_setVolume by exact HI.
    eexists _, void. split; [reflexivity|].
    split; [apply Inert_settings; exact HI|]. cbn. auto.
  - rewrite Inert_toggleMute by exact HI.
    eexists _, (boolean _). split; [reflexivity|].
    split; [apply Inert_settings; exact HI|]. cbn. auto.
  - exists w, (boolean (isMuted w)). auto.
  - exists w, (boolean (isCurrentlyPlaying w)). auto.
  - exists w, (text (getCurrentTrack w)). auto.
Qed.

Lemma failedWorld_reachable : Reachable failedWorld.
Proof.
  apply (reach_step new_World); [exact reach_new|].
  exact (step_init None noAudio new_World).
Defined.

Lemma inert_engine_calls_are_harmless_witness :
  audioCtx (engine failedWorld) = None /\
  exists w' v,
    invoke (call_play "game" 0) failedWorld = (Returned w', v) /\
    Inert w' /\
    console w' = console failedWorld /\
    w' = with_engine (set_settings (volume (engine w')) (muted (engine w'))
                        (engine failedWorld)) failedWorld /\
    w' = failedWorld.
Proof.
  split; [reflexivity|].
  exact (inert_engine_calls_are_harmless (call_play "game" 0) failedWorld
           failedWorld_reachable eq_refl).
Defined.

(** * Further properties of the engine *)

(** ** Sessions *)

(** What a call that starts a session leaves behind, besides the fields of
    [play_starts] and [play_frame]: the voices, and one more call of
    [audioCtx.resume()] when the context was suspended. *)
Lemma play_starts_frame (trackName : string) (song : SongData) (now : Q)
  (w : World) :
  ready (engine w) = true ->
  SONGS_get trackName = Track song ->
  isPlaying (engine w) && String.eqb (currentTrackName (engine w)) trackName
    = false ->
  exists w',
    play trackName now w = Returned w' /\
    voiced (engine w') = true /\
    option_map resumeCalls (audioCtx (engine w'))
    = option_map (fun ctx => match state ctx with
                             | suspended => S (resumeCalls ctx)
                             | running => resumeCalls ctx
                             end) (audioCtx (engine w)).
Proof.
  intros Hr Hs Hp. open_world w. unfold ready in Hr. cbn in Hr, Hp.
  destruct ctx as [[cst rate rc rj]|], mg as [[[gv ge] gc]|];
    try discriminate.
  run_play. evaluate_play now.
  destruct tm as [h|], cst; vm_compute; repeat split.
Qed.

Lemma tonal_presence (osc : option OscillatorNode) (g : option GainNode)
  (noteValue : option Q) (channelVol time : Q) :
  present (fst (tonal osc g noteValue channelVol time)) = present osc /\
  present (snd (tonal osc g noteValue channelVol time)) = present g.
Proof.
  unfold tonal. destruct osc as [o|], g as [gn|]; cbn; auto.
  destruct (scheduleTonalNote o gn noteValue channelVol time) as [o' g'].
  cbn. auto.
Qed.

Lemma scheduleStep_voiced (step : nat) (time : Q) (w : World) :
  voiced (engine (world_of (scheduleStep step time w))) = voiced (engine w).
Proof.
  unfold scheduleStep.
  destruct (currentSong (engine w)) as [[song|key]|]; try reflexivity.
  set (idx := (step mod List.length (pulse1 song))%nat).
  destruct (tonal_presence (pulse1Osc (engine w)) (pulse1Gain (engine w))
              (nth_error (pulse1 song) idx) (pulse1Vol song) time) as [A1 A2].
  destruct (tonal_presence (pulse2Osc (engine w)) (pulse2Gain (engine w))
              (nth_error (pulse2 song) idx) (pulse2Vol song) time) as [A3 A4].
  destruct (tonal_presence (triOsc (engine w)) (triGain (engine w))
              (nth_error (triangle song) idx) (triVol song) time) as [A5 A6].
  destruct (tonal (pulse1Osc (engine w)) _ _ _ _) as [p1o p1g].
  destruct (tonal (pulse2Osc (engine w)) _ _ _ _) as [p2o p2g].
  destruct (tonal (triOsc (engine w)) _ _ _ _) as [to tg].
  cbn [world_of].
  match goal with |- voiced (engine (scheduleNoise ?d ?v ?t ?x)) = _ =>
    destruct (scheduleNoise_frame d v t x) as (E & _)
  end.
  rewrite E. unfold voiced. cbn in *.
  rewrite A1, A2, A3, A4, A5, A6. reflexivity.
Qed.

(** *** Calls that leave the session alone *)

Lemma init_SameSession (existingCtx : option AudioContext) (platform : Platform)
  (w : World) :
  SameSession w (init existingCtx platform w).
Proof.
  unfold init. destruct (audioCtx (engine w)); [repeat split|].
  destruct existingCtx, (newAudioContext platform),
    (createGainThrows platform), (createBufferThrows platform);
    repeat split.
Qed.

Lemma stop_SameSession (now gainNow : Q) (w : World) :
  SameSession w (stop now gainNow w).
Proof.
  unfold stop, on_masterGain. destruct (isPlaying (engine w)); cbn;
    [|repeat split].
  destruct (masterGain (engine w)) eqn:Eg, (audioCtx (engine w)) eqn:Ec;
    cbn; rewrite ?Eg; repeat split.
Qed.

Lemma setVolume_SameSession (level now : Q) (w : World) :
  SameSession w (setVolume level now w).
Proof.
  unfold setVolume, on_masterGain. cbn.
  destruct (masterGain (engine w)) eqn:Eg, (audioCtx (engine w)) eqn:Ec;
    cbn; rewrite ?Eg; repeat split.
Qed.

Lemma toggleMute_SameSession (now : Q) (w : World) :
  SameSession w (snd (toggleMute now w)).
Proof.
  unfold toggleMute, on_masterGain. cbn.
  destruct (masterGain (engine w)) eqn:Eg, (audioCtx (engine w)) eqn:Ec;
    cbn; rewrite ?Eg; repeat split.
Qed.

Lemma ready_kept_by_master (f : AudioParam -> AudioParam) (e : MusicEngine) :
  ready (on_masterGain f e) = ready e.
Proof.
  unfold ready, on_masterGain.
  destruct (masterGain e) eqn:Eg, (audioCtx e) eqn:Ec; cbn;
    rewrite ?Eg, ?Ec; reflexivity.
Qed.

Lemma init_ready (existingCtx : option AudioContext) (platform : Platform)
  (w : World) :
  ready (engine w) = true ->
  init existingCtx platform w = w.
Proof.
  unfold ready, init. destruct (audioCtx (engine w)); [reflexivity|discriminate].
Qed.

Lemma stop_ready (now gainNow : Q) (w : World) :
  ready (engine (stop now gainNow w)) = ready (engine w).
Proof.
  unfold stop. destruct (isPlaying (engine w)); cbn; [|reflexivity].
  destruct (masterGain (engine w)) eqn:Eg, (audioCtx (engine w)) eqn:Ec;
    try reflexivity.
  apply ready_kept_by_master.
Qed.

Lemma setVolume_ready (level now : Q) (w : World) :
  ready (engine (setVolume level now w)) = ready (engine w).
Proof.
  open_world w. destruct ctx, mg; reflexivity.
Qed.

Lemma toggleMute_ready (now : Q) (w : World) :
  ready (engine (snd (toggleMute now w))) = ready (engine w).
Proof.
  open_world w. destruct ctx, mg; reflexivity.
Qed.

Lemma SessionConsistent_same (w w' : World) :
  SameSession w w' ->
  (ready (engine w) = true -> ready (engine w') = true) ->
  SessionConsistent w -> SessionConsistent w'.
Proof.
  intros (Ep & Es & En & Ec & _ & Et & E1 & E2 & E3 & E4 & E5 & E6 & Ei & _)
         Hr [HI|HS].
  - left. unfold Idle, voiceless in *. cbv zeta in *.
    rewrite Ep, Es, En, Ec, Et, E1, E2, E3, E4, E5, E6, Ei. exact HI.
  - right. unfold InSession, voiced in *. cbv zeta in *.
    destruct HS as (song & h & H1 & H2 & H3 & H4 & H5 & H6 & H7).
    exists song, h.
    rewrite Ep, Es, En, Et, E1, E2, E3, E4, E5, E6, Ei. auto 10.
Qed.

(** *** The session invariant *)

Lemma stopInternal_Idle (w : World) :
  SessionConsistent w -> Idle (stopInternal w).
Proof.
  intros [HI|HS]; open_world w.
  - unfold Idle, voiceless in HI. cbn in HI.
    destruct HI as (_ & _ & _ & _ & -> & -> & _).
    repeat split.
  - unfold InSession in HS. cbn in HS.
    destruct HS as (song & h & _ & _ & _ & _ & -> & -> & _).
    unfold Idle, voiceless, stopInternal. cbn. rewrite Nat.eqb_refl. cbn.
    repeat split.
Qed.

Lemma advanceStep_voices (w : World) :
  pulse1Osc (engine (advanceStep w)) = pulse1Osc (engine w) /\
  pulse1Gain (engine (advanceStep w)) = pulse1Gain (engine w) /\
  pulse2Osc (engine (advanceStep w)) = pulse2Osc (engine w) /\
  pulse2Gain (engine (advanceStep w)) = pulse2Gain (engine w) /\
  triOsc (engine (advanceStep w)) = triOsc (engine w) /\
  triGain (engine (advanceStep w)) = triGain (engine w).
Proof.
  unfold advanceStep.
  destruct (currentSong (engine w)) as [[song|key]|]; try (repeat split; fail).
  cbn.
  destruct (List.length (pulse1 song) <=? S (currentStep (engine w)))%nat;
    repeat split.
Qed.

Lemma SessionConsistent_iteration (w : World) :
  SessionConsistent w -> SessionConsistent (iteration w).
Proof.
  intros [HI|HS].
  - pose proof HI as (_ & Hs & _).
    rewrite iteration_unloaded by (rewrite Hs; discriminate).
    left. exact HI.
  - right. destruct HS as (song & h & Hr & Hp & Hn & Hs & Ht & Hi & Hv).
    unfold iteration.
    set (w1 := world_of (scheduleStep (currentStep (engine w))
                           (nextStepTime (engine w)) w)).
    destruct (scheduleStep_frame (currentStep (engine w))
                (nextStepTime (engine w)) w)
      as (Ec1 & Eg1 & _ & Es1 & En1 & Ep1 & _ & _ & Et1 & _ & _ & _ & Ei1 & _).
    fold w1 in Ec1, Eg1, Es1, En1, Ep1, Et1, Ei1.
    destruct (advanceStep_frame w1)
      as (Ec2 & Eg2 & _ & Es2 & En2 & Ep2 & Et2 & _ & _ & _ & Ei2 & _).
    cbv zeta in Ec2, Eg2, Es2, En2, Ep2, Et2.
    destruct (advanceStep_voices w1) as (V1 & V2 & V3 & V4 & V5 & V6).
    exists song, h. unfold ready, voiced in *.
    rewrite Ec2, Eg2, Es2, En2, Ep2, Et2, Ei2, V1, V2, V3, V4, V5, V6.
    rewrite Ec1, Eg1, Es1, En1, Ep1, Et1, Ei1.
    repeat split; try assumption.
    pose proof (scheduleStep_voiced (currentStep (engine w))
                  (nextStepTime (engine w)) w) as Hv1.
    fold w1 in Hv1. unfold voiced in Hv1. rewrite Hv1. exact Hv.
Qed.

Lemma SessionConsistent_play (trackName : string) (now : Q) (w : World) :
  SONGS_get trackName <> Inherited ->
  SessionConsistent w -> SessionConsistent (world_of (play trackName now w)).
Proof.
  intros Hown HS.
  destruct (play_cases trackName now w)
    as [E|[(_ & _ & E)|(Hr & Hp & [(song & Hs)|Hs])]];
    try (rewrite E; exact HS); [|contradiction].
  destruct (play_starts trackName song now w Hr Hs Hp)
    as (w1 & E & Hr1 & Es & En & Hpl & _ & _ & Et & Ei & _).
  destruct (play_starts_frame trackName song now w Hr Hs Hp)
    as (w2 & E2 & Hv & _).
  rewrite E in E2. injection E2 as <-.
  rewrite E. cbn [world_of].
  right. exists song, (nextHandle w).
  pose proof (stopInternal_Idle w HS) as (_ & _ & _ & _ & _ & Hi0 & _).
  rewrite En, Ei, Hi0. auto 10.
Qed.

Lemma context_state_SameSession (st : ContextState) (w : World) :
  SameSession w (context_state st w).
Proof.
  unfold context_state. destruct (audioCtx (engine w)); repeat split.
Qed.

Lemma context_state_ready (st : ContextState) (w : World) :
  ready (engine (context_state st w)) = ready (engine w).
Proof.
  unfold context_state, ready.
  destruct (audioCtx (engine w)) eqn:E; [|rewrite E; reflexivity].
  reflexivity.
Qed.

Lemma SessionConsistent_step (w w' : World) :
  SessionConsistent w -> StepWith ownOrUnknown w w' -> SessionConsistent w'.
Proof.
  intros HS Hstep. destruct Hstep.
  - apply (SessionConsistent_same w); [apply init_SameSession| |exact HS].
    intro Hr. rewrite init_ready by exact Hr. exact Hr.
  - exact (SessionConsistent_play trackName now w H HS).
  - apply (SessionConsistent_same w); [apply stop_SameSession| |exact HS].
    rewrite stop_ready. auto.
  - left. apply stopInternal_Idle. exact HS.
  - apply (SessionConsistent_same w); [apply setVolume_SameSession| |exact HS].
    rewrite setVolume_ready. auto.
  - apply (SessionConsistent_same w); [apply toggleMute_SameSession| |exact HS].
    rewrite toggleMute_ready. auto.
  - exact (schedule_preserves SessionConsistent SessionConsistent_iteration
             fuel currentTime w n o HS H0).
  - left. apply stopInternal_Idle.
    apply (SessionConsistent_same w); [repeat split|auto|exact HS].
  - apply (SessionConsistent_same w);
      [apply context_state_SameSession| |exact HS].
    rewrite context_state_ready. auto.
Qed.

Lemma SessionConsistent_reachable (w : World) :
  ReachableWith ownOrUnknown w -> SessionConsistent w.
Proof.
  induction 1 as [|w w' _ IH Hstep].
  - left. repeat split.
  - exact (SessionConsistent_step w w' IH Hstep).
Qed.

Lemma no_track_without_name : SONGS_get "" = Undefined.
Proof. reflexivity. Qed.

(** X1.  In every state reached by a run in which
    [play] is handed names of tracks or names that are no property of the
    table -- none of those the table inherits from [Object.prototype] -- the
    engine is either idle -- not playing, no song loaded, empty track name,
    step 0, no voice node, no scheduler timer -- or in a session: playing,
    with the table's record of the named track loaded, all six voice nodes
    present, a scheduler timer running, audio context and master gain in
    place.  So [isCurrentlyPlaying()] holds exactly when [getCurrentTrack()]
    is not the empty string, and exactly when the voices exist. *)
Theorem session_is_consistent (w : World) :
  ReachableWith ownOrUnknown w ->
  SessionConsistent w /\
  (isCurrentlyPlaying w = true <-> getCurrentTrack w <> ""%string) /\
  (isCurrentlyPlaying w = true <-> currentSong (engine w) <> None) /\
  (isCurrentlyPlaying w = true <-> voiced (engine w) = true).
Proof.
  intro H. apply SessionConsistent_reachable in H.
  split; [exact H|].
  unfold isCurrentlyPlaying, getCurrentTrack.
  destruct H as [(Hp & Hs & Hn & _ & _ & _ & V1 & V2 & V3 & V4 & V5 & V6)
                |(song & h & _ & Hp & Hn & Hs & _ & _ & Hv)].
  - unfold voiced. rewrite Hp, Hs, Hn, V1. cbn.
    repeat split; intro; congruence.
  - rewrite Hp, Hs, Hv.
    assert (Hne : currentTrackName (engine w) <> ""%string).
    { intro E. rewrite E, no_track_without_name in Hn. discriminate. }
    repeat split; intro; congruence.
Qed.

Lemma session_is_consistent_witness :
  ReachableWith ownOrUnknown tickedWorld /\
  (isCurrentlyPlaying tickedWorld = true
   <-> getCurrentTrack tickedWorld <> ""%string).
Proof.
  split; [exact tickedWorld_reachable|].
  exact (proj1 (proj2 (session_is_consistent tickedWorld
                         tickedWorld_reachable))).
Defined.

(** X2.  In every state reached by a run in
    which [play] is handed no name the table inherits from
    [Object.prototype], the live interval timers are exactly the one the
    engine holds in [schedulerTimer], and there is none unless the engine is
    playing: track switches and stops leak no scheduler. *)
Theorem no_interval_timer_leaks (w : World) :
  ReachableWith ownOrUnknown w ->
  intervals w = match schedulerTimer (engine w) with
                | Some h => [h]
                | None => []
                end /\
  (schedulerTimer (engine w) <> None <-> isPlaying (engine w) = true).
Proof.
  intro H. apply SessionConsistent_reachable in H.
  destruct H as [(Hp & _ & _ & _ & Ht & Hi & _)
                |(song & h & _ & Hp & _ & _ & Ht & Hi & _)];
    rewrite Hp, Ht, Hi; split; try reflexivity; split; intro; congruence.
Qed.

Lemma no_interval_timer_leaks_witness :
  ReachableWith ownOrUnknown tickedWorld /\
  intervals tickedWorld = match schedulerTimer (engine tickedWorld) with
                          | Some h => [h]
                          | None => []
                          end.
Proof.
  split; [exact tickedWorld_reachable|].
  exact (proj1 (no_interval_timer_leaks tickedWorld tickedWorld_reachable)).
Defined.

(** *** Selecting a track *)

Lemma tickedWorld_ready : ready (engine tickedWorld) = true.
Proof. vm_compute. reflexivity. Qed.

Lemma tickedWorld_not_menu :
  isPlaying (engine tickedWorld)
  && String.eqb (currentTrackName (engine tickedWorld)) "menu" = false.
Proof. vm_compute. reflexivity. Qed.

Lemma play_in_session (trackName : string) (song : SongData)
  (now : Q) (w : World) :
  SessionConsistent w ->
  ready (engine w) = true ->
  SONGS_get trackName = Track song ->
  exists w',
    play trackName now w = Returned w' /\
    InSession w' /\
    isPlaying (engine w') = true /\
    currentTrackName (engine w') = trackName /\
    currentSong (engine w') = Some (Song song) /\
    timeouts w' = timeouts w.
Proof.
  intros HS Hr Hs.
  destruct (isPlaying (engine w)
            && String.eqb (currentTrackName (engine w)) trackName) eqn:Hp.
  - apply andb_true_iff in Hp. destruct Hp as [Hp Hn].
    apply String.eqb_eq in Hn.
    exists w. rewrite play_already_playing
      by (try rewrite Hs; try discriminate; assumption).
    destruct HS as [(Hp' & _)|HS]; [congruence|].
    pose proof HS as (song' & h & _ & _ & Hn' & Hs' & _).
    rewrite Hn, Hs in Hn'. injection Hn' as <-.
    auto 10.
  - destruct (play_starts trackName song now w Hr Hs Hp) as (w' & E & H').
    exists w'. split; [exact E|].
    assert (HS' : SessionConsistent w').
    { pose proof (SessionConsistent_play trackName now w
                    ltac:(rewrite Hs; discriminate) HS) as HS'.
      rewrite E in HS'. exact HS'. }
    decompose [and] H'.
    destruct HS' as [(Hp' & _)|HS']; [congruence|].
    auto 10.
Qed.

(** X3.  On an initialised engine in a consistent
    state, [play] of a track of the table returns with that track playing:
    the flag set, the name stored, the table's record loaded, the voices and
    the scheduler timer in place -- whether the track was playing already,
    another one was, or none. *)
Theorem play_known_track_plays (trackName : string) (song : SongData)
  (now : Q) (w : World) :
  SessionConsistent w ->
  ready (engine w) = true ->
  SONGS_get trackName = Track song ->
  exists w',
    play trackName now w = Returned w' /\
    Playing trackName w' /\ InSession w' /\
    getCurrentTrack w' = trackName.
Proof.
  intros HS Hr Hs.
  destruct (play_in_session trackName song now w HS Hr Hs)
    as (w' & E & HS' & Hp & Hn & Hl & _).
  exists w'. split; [exact E|]. split; [|split; [exact HS'|exact Hn]].
  split; [exact Hp|]. split; [exact Hn|]. exists song. auto.
Qed.

Lemma play_known_track_plays_witness :
  exists w',
    play "fail" 2 tickedWorld = Returned w' /\
    Playing "fail" w' /\ InSession w' /\
    getCurrentTrack w' = "fail"%string.
Proof.
  apply (play_known_track_plays "fail" Songs.fail 2 tickedWorld).
  - exact (SessionConsistent_reachable tickedWorld tickedWorld_reachable).
  - exact tickedWorld_ready.
  - reflexivity.
Defined.

Lemma play_starts_voices (trackName : string) (song : SongData) (now : Q)
  (w : World) :
  ready (engine w) = true ->
  SONGS_get trackName = Track song ->
  isPlaying (engine w) && String.eqb (currentTrackName (engine w)) trackName
    = false ->
  exists w',
    play trackName now w = Returned w' /\
    pulse1Osc (engine w')
      = Some (freshOscillator
                (custom (createPulseWave (Q2R (pulse1Duty song)))) 440) /\
    pulse2Osc (engine w')
      = Some (freshOscillator
                (custom (createPulseWave (Q2R (pulse2Duty song)))) 440) /\
    triOsc (engine w') = Some (freshOscillator triangleType 110) /\
    pulse1Gain (engine w') = Some silentGain /\
    pulse2Gain (engine w') = Some silentGain /\
    triGain (engine w') = Some silentGain.
Proof.
  intros Hr Hs Hp. open_world w. unfold ready in Hr. cbn in Hr, Hp.
  destruct ctx as [[cst rate rc rj]|], mg as [[[gv ge] gc]|];
    try discriminate.
  run_play. evaluate_play now.
  destruct tm as [h|], cst; vm_compute; repeat split.
Qed.

(** X4.  When [play] starts a track -- none or
    another one was playing -- the three oscillators and their gains are new
    nodes: the pulse oscillators at 440 Hz with the waves of the track's two
    duty cycles, the triangle at 110 Hz, every gain at 0, and no automation
    scheduled on any of them, so nothing scheduled for the previous track
    remains.  The step index is 0, the first step is due 50 ms after the
    call -- the double nearest the sum --, and the only live interval timer
    is the new one. *)
Theorem play_start_rebuilds_voices (trackName : string) (song : SongData)
  (now : Q) (w : World) :
  SessionConsistent w ->
  ready (engine w) = true ->
  SONGS_get trackName = Track song ->
  isPlaying (engine w) && String.eqb (currentTrackName (engine w)) trackName
    = false ->
  exists w',
    play trackName now w = Returned w' /\
    pulse1Osc (engine w')
      = Some (freshOscillator
                (custom (createPulseWave (Q2R (pulse1Duty song)))) 440) /\
    pulse2Osc (engine w')
      = Some (freshOscillator
                (custom (createPulseWave (Q2R (pulse2Duty song)))) 440) /\
    triOsc (engine w') = Some (freshOscillator triangleType 110) /\
    pulse1Gain (engine w') = Some silentGain /\
    pulse2Gain (engine w') = Some silentGain /\
    triGain (engine w') = Some silentGain /\
    currentStep (engine w') = O /\
    nextStepTime (engine w') = fl (now + fl 0.05) /\
    schedulerTimer (engine w') = Some (nextHandle w) /\
    intervals w' = [nextHandle w].
Proof.
  intros HS Hr Hs Hp.
  destruct (play_starts trackName song now w Hr Hs Hp)
    as (w' & E & _ & _ & _ & _ & Ec & Et & Eh & Ei & _).
  destruct (play_starts_voices trackName song now w Hr Hs Hp)
    as (w2 & E2 & V1 & V2 & V3 & V4 & V5 & V6).
  rewrite E in E2. injection E2 as <-.
  pose proof (stopInternal_Idle w HS) as (_ & _ & _ & _ & _ & Hi0 & _).
  rewrite Hi0 in Ei.
  exists w'. auto 15.
Qed.

Lemma play_start_rebuilds_voices_witness :
  exists w',
    play "menu" 2 tickedWorld = Returned w' /\
    pulse1Gain (engine w') = Some silentGain /\
    currentStep (engine w') = O /\
    intervals w' = [nextHandle tickedWorld].
Proof.
  destruct (play_start_rebuilds_voices "menu" Songs.menu 2 tickedWorld
              (SessionConsistent_reachable tickedWorld tickedWorld_reachable)
              tickedWorld_ready eq_refl tickedWorld_not_menu)
    as (w' & E & _ & _ & _ & V & _ & _ & Ec & _ & _ & Ei).
  exists w'. auto.
Defined.

(** ** Volume and mute *)

Lemma clamp_InRange (vol : Q) : InRange (clamp vol).
Proof.
  unfold InRange, clamp. split.
  - apply Q.le_max_l.
  - apply Q.max_lub; [discriminate|apply Q.le_min_l].
Qed.

Lemma clamp_inside (vol : Q) : InRange vol -> (clamp vol == vol)%Q.
Proof.
  intros [H0 H1]. unfold clamp.
  rewrite (Q.min_r 1 vol) by exact H1. apply Q.max_r. exact H0.
Qed.

Lemma effectiveGain_InRange (e : MusicEngine) :
  InRange (volume e) -> InRange (effectiveGain e).
Proof.
  intro H. unfold effectiveGain. destruct (muted e); [|exact H].
  split; discriminate.
Qed.

(** The fields [LevelsInRange] reads. *)
Lemma LevelsInRange_same (w w' : World) :
  volume (engine w') = volume (engine w) ->
  muted (engine w') = muted (engine w) ->
  option_map (fun g => value (gain g)) (masterGain (engine w'))
    = option_map (fun g => value (gain g)) (masterGain (engine w)) ->
  LevelsInRange w -> LevelsInRange w'.
Proof.
  intros Ev Em Eg (Hv & He & Hg). unfold LevelsInRange, effectiveGain in *.
  rewrite Ev, Em. split; [exact Hv|]. split; [exact He|].
  intros g' Hg'. rewrite Hg' in Eg.
  destruct (masterGain (engine w)) as [g|]; [|discriminate].
  cbn in Eg. injection Eg as ->. apply (Hg g). reflexivity.
Qed.

Lemma LevelsInRange_iteration (w : World) :
  LevelsInRange w -> LevelsInRange (iteration w).
Proof.
  unfold iteration.
  set (w1 := world_of (scheduleStep (currentStep (engine w))
                         (nextStepTime (engine w)) w)).
  destruct (scheduleStep_frame (currentStep (engine w))
              (nextStepTime (engine w)) w)
    as (_ & Eg1 & _ & _ & _ & _ & _ & _ & _ & Ev1 & Em1 & _).
  fold w1 in Eg1, Ev1, Em1.
  destruct (advanceStep_frame w1)
    as (_ & Eg2 & _ & _ & _ & _ & _ & Ev2 & Em2 & _).
  cbv zeta in Eg2, Ev2, Em2.
  apply LevelsInRange_same; [congruence|congruence|].
  rewrite Eg2, Eg1. reflexivity.
Qed.

Lemma stop_settings (now gainNow : Q) (w : World) :
  volume (engine (stop now gainNow w)) = volume (engine w) /\
  muted (engine (stop now gainNow w)) = muted (engine w) /\
  option_map (fun g => value (gain g)) (masterGain (engine (stop now gainNow w)))
    = option_map (fun g => value (gain g)) (masterGain (engine w)).
Proof.
  open_world w. destruct pl, ctx, mg; repeat split.
Qed.

Lemma setVolume_settings (level now : Q) (w : World) :
  volume (engine (setVolume level now w)) = clamp level /\
  muted (engine (setVolume level now w)) = muted (engine w) /\
  option_map (fun g => value (gain g))
    (masterGain (engine (setVolume level now w)))
    = option_map (fun g => value (gain g)) (masterGain (engine w)).
Proof.
  open_world w. destruct ctx, mg; repeat split.
Qed.

Lemma toggleMute_settings (now : Q) (w : World) :
  volume (engine (snd (toggleMute now w))) = volume (engine w) /\
  muted (engine (snd (toggleMute now w))) = negb (muted (engine w)) /\
  fst (toggleMute now w) = negb (muted (engine w)) /\
  option_map (fun g => value (gain g))
    (masterGain (engine (snd (toggleMute now w))))
    = option_map (fun g => value (gain g)) (masterGain (engine w)).
Proof.
  open_world w. destruct ctx, mg; repeat split.
Qed.

Lemma init_settings (existingCtx : option AudioContext) (platform : Platform)
  (w : World) :
  volume (engine (init existingCtx platform w)) = volume (engine w) /\
  muted (engine (init existingCtx platform w)) = muted (engine w) /\
  forall g, masterGain (engine (init existingCtx platform w)) = Some g ->
    masterGain (engine w) = Some g \/
    value (gain g) = effectiveGain (engine w).
Proof.
  open_world w. unfold init. cbn.
  destruct ctx as [c0|]; [cbn; auto|].
  destruct existingCtx as [c1|], (newAudioContext platform) as [c2|],
    (createGainThrows platform), (createBufferThrows platform); cbn;
    (split; [reflexivity|]); (split; [reflexivity|]);
    intros g Eg; try (left; exact Eg);
    injection Eg as <-; right; reflexivity.
Qed.

(** Whatever the value of the master gain was, a change of settings leaves
    the three levels in range. *)
Lemma LevelsInRange_settings (w w' : World) :
  InRange (volume (engine w')) ->
  option_map (fun g => value (gain g)) (masterGain (engine w'))
    = option_map (fun g => value (gain g)) (masterGain (engine w)) ->
  LevelsInRange w -> LevelsInRange w'.
Proof.
  intros Hv Eg (_ & _ & Hg). split; [exact Hv|].
  split; [apply effectiveGain_InRange; exact Hv|].
  intros g' Hg'. rewrite Hg' in Eg.
  destruct (masterGain (engine w)) as [g|]; [|discriminate].
  cbn in Eg. injection Eg as ->. apply (Hg g). reflexivity.
Qed.

Lemma LevelsInRange_step (w w' : World) :
  LevelsInRange w -> Step w w' -> LevelsInRange w'.
Proof.
  intros HL Hstep. destruct Hstep.
  - (* init *)
    destruct (init_settings existingCtx platform w) as (Ev & Em & Hg).
    destruct HL as (Hv & He & Hg0).
    unfold LevelsInRange, effectiveGain in *. rewrite Ev, Em.
    split; [exact Hv|]. split; [exact He|].
    intros g Eg. destruct (Hg g Eg) as [E|E].
    + exact (Hg0 g E).
    + rewrite E. exact He.
  - (* play *)
    destruct (play_frame trackName now w)
      as (Ev & Em & _ & _ & _ & _ & Eg & _).
    exact (LevelsInRange_same w _ Ev Em Eg HL).
  - (* stop *)
    destruct (stop_settings now gainNow w) as (Ev & Em & Eg).
    exact (LevelsInRange_same w _ Ev Em Eg HL).
  - (* stopImmediate *)
    apply (LevelsInRange_same w); [| | |exact HL];
      unfold stopImmediate; rewrite stopInternal_engine; reflexivity.
  - (* setVolume *)
    destruct (setVolume_settings vol now w) as (Ev & _ & Eg).
    apply (LevelsInRange_settings w); [|exact Eg|exact HL].
    rewrite Ev. apply clamp_InRange.
  - (* toggleMute *)
    destruct (toggleMute_settings now w) as (Ev & _ & _ & Eg).
    apply (LevelsInRange_settings w); [|exact Eg|exact HL].
    rewrite Ev. exact (proj1 HL).
  - (* schedule *)
    exact (schedule_preserves LevelsInRange LevelsInRange_iteration
             fuel currentTime w n o HL H0).
  - (* deferred stopInternal *)
    apply (LevelsInRange_same w); [| | |exact HL];
      rewrite stopInternal_engine; reflexivity.
  - (* the context changes state *)
    apply (LevelsInRange_same w); [| | |exact HL];
      unfold context_state; destruct (audioCtx (engine w)); reflexivity.
Qed.

(** X5.  In every state a run reaches the stored
    volume lies in [0, 1], whatever number [setVolume] was called with, and
    so do the effective gain (0 when muted, else the volume) and the
    intrinsic value of the master gain.  The numbers of the embedding are
    the finite ones: [NaN], which [Math.min] and [Math.max] hand through, is
    not among the arguments. *)
Theorem levels_stay_in_range (w : World) :
  Reachable w ->
  (0 <= volume (engine w) <= 1)%Q /\
  (0 <= effectiveGain (engine w) <= 1)%Q /\
  forall g, masterGain (engine w) = Some g -> (0 <= value (gain g) <= 1)%Q.
Proof.
  induction 1 as [|w w' _ IH Hstep].
  - split; [|split]; [split; discriminate|split; discriminate|discriminate].
  - exact (LevelsInRange_step w w' IH Hstep).
Qed.

Lemma loudWorld_reachable : Reachable loudWorld.
Proof.
  apply (reach_step tickedWorld);
    [exact (ReachableWith_any tickedWorld tickedWorld_reachable)|].
  exact (step_setVolume 7 0.5 tickedWorld).
Defined.

Lemma levels_stay_in_range_witness :
  Reachable loudWorld /\ (0 <= volume (engine loudWorld) <= 1)%Q.
Proof.
  split; [exact loudWorld_reachable|].
  exact (proj1 (levels_stay_in_range loudWorld loudWorld_reachable)).
Defined.

Lemma setVolume_events (level now : Q) (w : World) :
  ready (engine w) = true ->
  masterEvents (setVolume level now w) =
    filter (fun e => Qltb (eventTime e) now) (masterEvents w)
    ++ [SetValue (if muted (engine w) then 0 else clamp level) now].
Proof.
  intro H. open_world w. unfold ready in H. cbn in H.
  destruct ctx as [c|], mg as [[[gv ge] gc]|]; try discriminate.
  destruct mu; reflexivity.
Qed.

Lemma toggleMute_events (now : Q) (w : World) :
  ready (engine w) = true ->
  masterEvents (snd (toggleMute now w)) =
    filter (fun e => Qltb (eventTime e) now) (masterEvents w)
    ++ [SetValue (if muted (engine w) then volume (engine w) else 0) now].
Proof.
  intro H. open_world w. unfold ready in H. cbn in H.
  destruct ctx as [c|], mg as [[[gv ge] gc]|]; try discriminate.
  destruct mu; reflexivity.
Qed.

(** X6.  On an initialised, muted engine
    [setVolume(v)] keeps the master gain at 0 -- the value it schedules at
    the current time is 0 -- and stores the clamped volume, which is [v]
    itself when [v] is within [0, 1]; the [toggleMute] that follows returns
    [false] and schedules that stored volume. *)
Theorem setVolume_while_muted (v t1 t2 : Q) (w : World) :
  ready (engine w) = true ->
  muted (engine w) = true ->
  let w1 := setVolume v t1 w in
  let w2 := snd (toggleMute t2 w1) in
  masterEvents w1 =
    filter (fun e => Qltb (eventTime e) t1) (masterEvents w)
    ++ [SetValue 0 t1] /\
  volume (engine w1) = clamp v /\
  ((0 <= v <= 1)%Q -> (volume (engine w1) == v)%Q) /\
  fst (toggleMute t2 w1) = false /\
  masterEvents w2 =
    filter (fun e => Qltb (eventTime e) t2) (masterEvents w1)
    ++ [SetValue (clamp v) t2].
Proof.
  intros Hr Hm w1 w2.
  destruct (setVolume_settings v t1 w) as (Ev & Em & _).
  fold w1 in Ev, Em. rewrite Hm in Em.
  assert (Hr1 : ready (engine w1) = true)
    by (subst w1; rewrite setVolume_ready; exact Hr).
  split; [subst w1; rewrite setVolume_events, Hm by exact Hr; reflexivity|].
  split; [exact Ev|].
  split; [intro Hv; rewrite Ev; apply clamp_inside; exact Hv|].
  destruct (toggleMute_settings t2 w1) as (_ & _ & Ef & _).
  split; [rewrite Ef, Em; reflexivity|].
  subst w2. rewrite toggleMute_events, Em, Ev by exact Hr1. reflexivity.
Qed.

Lemma setVolume_while_muted_witness :
  masterEvents (setVolume 0.5 3 mutedWorld) =
    filter (fun e => Qltb (eventTime e) 3) (masterEvents mutedWorld)
    ++ [SetValue 0 3] /\
  fst (toggleMute 4 (setVolume 0.5 3 mutedWorld)) = false.
Proof.
  destruct (setVolume_while_muted 0.5 3 4 mutedWorld
              ltac:(vm_compute; reflexivity) ltac:(vm_compute; reflexivity))
    as (H1 & _ & _ & H4 & _).
  split; [exact H1|exact H4].
Defined.

(** X7.  Two presses of mute give the flag back: the
    second call returns the flag the engine had before the first, the volume
    is untouched, and apart from the automation of the master gain the
    engine is as it was.  On an initialised engine the value the second call
    schedules is the effective gain from before the first. *)
Theorem toggleMute_twice (t1 t2 : Q) (w : World) :
  let w1 := snd (toggleMute t1 w) in
  let w2 := snd (toggleMute t2 w1) in
  fst (toggleMute t2 w1) = muted (engine w) /\
  muted (engine w2) = muted (engine w) /\
  volume (engine w2) = volume (engine w) /\
  set_masterGain (masterGain (engine w)) (engine w2) = engine w /\
  with_engine (engine w) w2 = w /\
  (ready (engine w) = true ->
   masterEvents w2 =
     filter (fun e => Qltb (eventTime e) t2) (masterEvents w1)
     ++ [SetValue (effectiveGain (engine w)) t2]).
Proof.
  intros w1 w2.
  destruct (toggleMute_settings t1 w) as (Ev1 & Em1 & _ & _).
  destruct (toggleMute_settings t2 w1) as (Ev2 & Em2 & Ef2 & _).
  fold w1 in Ev1, Em1. fold w2 in Ev2, Em2.
  split; [rewrite Ef2, Em1; apply negb_involutive|].
  split; [rewrite Em2, Em1; apply negb_involutive|].
  split; [congruence|].
  split; [subst w2 w1; open_world w; destruct ctx, mg, mu; reflexivity|].
  split; [subst w2 w1; open_world w; destruct ctx, mg, mu; reflexivity|].
  intro Hr.
  assert (Hr1 : ready (engine w1) = true)
    by (subst w1; rewrite toggleMute_ready; exact Hr).
  subst w2. rewrite toggleMute_events, Em1, Ev1 by exact Hr1.
  unfold effectiveGain. destruct (muted (engine w)); reflexivity.
Qed.

Lemma toggleMute_twice_witness :
  ready (engine tickedWorld) = true /\
  masterEvents (snd (toggleMute 2 (snd (toggleMute 1 tickedWorld)))) =
    filter (fun e => Qltb (eventTime e) 2)
      (masterEvents (snd (toggleMute 1 tickedWorld)))
    ++ [SetValue (effectiveGain (engine tickedWorld)) 2].
Proof.
  split; [exact tickedWorld_ready|].
  exact (proj2 (proj2 (proj2 (proj2 (proj2
           (toggleMute_twice 1 2 tickedWorld))))) tickedWorld_ready).
Defined.

(** ** Stopping *)

Lemma stop_playing (now gainNow : Q) (w : World) :
  ready (engine w) = true ->
  isPlaying (engine w) = true ->
  masterEvents (stop now gainNow w) =
    filter (fun e => Qltb (eventTime e) now) (masterEvents w)
    ++ [SetValue gainNow now; LinearRamp 0 (now + 0.3)] /\
  timeouts (stop now gainNow w) = S (timeouts w) /\
  console (stop now gainNow w) = console w.
Proof.
  intros Hr Hp. open_world w. unfold ready in Hr. cbn in Hr, Hp. subst pl.
  destruct ctx as [c|], mg as [[[gv ge] gc]|]; try discriminate.
  unfold stop, masterEvents. cbn. rewrite <- app_assoc. repeat split.
Qed.

Lemma stopInternal_keeps (w : World) :
  audioCtx (engine (stopInternal w)) = audioCtx (engine w) /\
  masterGain (engine (stopInternal w)) = masterGain (engine w) /\
  noiseBuffer (engine (stopInternal w)) = noiseBuffer (engine w) /\
  volume (engine (stopInternal w)) = volume (engine w) /\
  muted (engine (stopInternal w)) = muted (engine w) /\
  nextStepTime (engine (stopInternal w)) = nextStepTime (engine w) /\
  console (stopInternal w) = console w /\
  timeouts (stopInternal w) = timeouts w /\
  voices (stopInternal w) = voices w.
Proof.
  rewrite stopInternal_engine.
  destruct (stopInternal_world w) as (Ec & _ & Et & Ev).
  cbn. repeat split; assumption.
Qed.

Lemma SessionConsistent_fire_timeout (w : World) :
  SessionConsistent w -> SessionConsistent (fire_timeout w).
Proof.
  apply SessionConsistent_same; [repeat split|auto].
Qed.

Lemma stop_in_session (now gainNow : Q) (w : World) :
  InSession w ->
  InSession (stop now gainNow w) /\
  timeouts (stop now gainNow w) = S (timeouts w) /\
  masterEvents (stop now gainNow w) =
    filter (fun e => Qltb (eventTime e) now) (masterEvents w)
    ++ [SetValue gainNow now; LinearRamp 0 (now + 0.3)].
Proof.
  intro HS. pose proof HS as (song & h & Hr & Hp & _).
  destruct (stop_playing now gainNow w Hr Hp) as (Ee & Et & _).
  assert (HS1 : SessionConsistent (stop now gainNow w)).
  { apply (SessionConsistent_same w); [apply stop_SameSession| |right; exact HS].
    rewrite stop_ready. auto. }
  split; [|split; [exact Et|exact Ee]].
  destruct HS1 as [(Hp1 & _)|HS1]; [|exact HS1].
  destruct (stop_SameSession now gainNow w) as (Ep & _). congruence.
Qed.

(** X8.  [stop()] on a playing engine only
    starts the fade-out and registers the deferred teardown: it cancels the
    master-gain automation from the current time on, holds the gain at its
    present value and ramps it to 0 over 0.3 s, while the sequencer, the
    voices and the scheduler timer stay as they are -- the music keeps being
    scheduled during the fade.  When the deferred teardown fires, the engine
    is idle and still initialised; the audio context, the noise buffer and
    the settings are kept. *)
Theorem stop_fades_then_tears_down (now gainNow : Q) (w : World) :
  InSession w ->
  let w1 := stop now gainNow w in
  let w2 := stopInternal (fire_timeout w1) in
  SameSession w w1 /\ InSession w1 /\
  masterEvents w1 =
    filter (fun e => Qltb (eventTime e) now) (masterEvents w)
    ++ [SetValue gainNow now; LinearRamp 0 (now + 0.3)] /\
  timeouts w1 = S (timeouts w) /\
  Idle w2 /\ timeouts w2 = timeouts w /\
  audioCtx (engine w2) = audioCtx (engine w) /\
  noiseBuffer (engine w2) = noiseBuffer (engine w) /\
  ready (engine w2) = true /\
  volume (engine w2) = volume (engine w) /\
  muted (engine w2) = muted (engine w).
Proof.
  intros HS w1 w2.
  pose proof HS as (song & h & Hr & Hp & _).
  destruct (stop_in_session now gainNow w HS) as (HS1 & Et & Ee).
  destruct (stop_settings now gainNow w) as (Ev & Em & _).
  fold w1 in HS1, Ee, Et, Ev, Em.
  assert (Hr1 : ready (engine w1) = true)
    by (subst w1; rewrite stop_ready; exact Hr).
  split; [apply stop_SameSession|].
  split; [exact HS1|].
  split; [exact Ee|]. split; [exact Et|].
  split; [apply stopInternal_Idle, SessionConsistent_fire_timeout;
          right; exact HS1|].
  destruct (stopInternal_keeps (fire_timeout w1))
    as (Kc & Kg & Kb & Kv & Km & _ & _ & Kt & _).
  fold w2 in Kc, Kg, Kb, Kv, Km, Kt.
  split; [rewrite Kt; cbn; rewrite Et; reflexivity|].
  assert (Ec1 : audioCtx (engine w1) = audioCtx (engine w) /\
                noiseBuffer (engine w1) = noiseBuffer (engine w))
    by (subst w1; open_world w; destruct pl, ctx, mg; split; reflexivity).
  destruct Ec1 as [Ec1 Eb1].
  split; [rewrite Kc; exact Ec1|].
  split; [rewrite Kb; exact Eb1|].
  split; [unfold ready in *; rewrite Kc, Kg; exact Hr1|].
  split; [rewrite Kv; exact Ev|rewrite Km; exact Em].
Qed.

Lemma tickedWorld_InSession : InSession tickedWorld.
Proof.
  exists Songs.game, O. vm_compute. repeat split.
Defined.

Lemma stop_fades_then_tears_down_witness :
  InSession tickedWorld /\
  Idle (stopInternal (fire_timeout (stop 3 0.105 tickedWorld))).
Proof.
  split; [exact tickedWorld_InSession|].
  destruct (stop_fades_then_tears_down 3 0.105 tickedWorld
              tickedWorld_InSession) as (_ & _ & _ & _ & H & _).
  exact H.
Defined.

(** X9.  The teardown [stop()] defers is
    not withdrawn by a later [play]: when a track of the table is selected
    after [stop()] and before the timeout fires, that track starts playing,
    the timeout is still pending, and its firing leaves the engine idle --
    not playing, with an empty track name, no voices and no timer. *)
Theorem deferred_teardown_outlives_stop (trackName : string) (song : SongData)
  (t1 gainNow t2 : Q) (w : World) :
  InSession w ->
  SONGS_get trackName = Track song ->
  exists w2,
    play trackName t2 (stop t1 gainNow w) = Returned w2 /\
    Playing trackName w2 /\
    timeouts w2 <> O /\
    Step w2 (stopInternal (fire_timeout w2)) /\
    Idle (stopInternal (fire_timeout w2)) /\
    isCurrentlyPlaying (stopInternal (fire_timeout w2)) = false /\
    getCurrentTrack (stopInternal (fire_timeout w2)) = ""%string.
Proof.
  intros HS Hs.
  destruct (stop_in_session t1 gainNow w HS) as (HS1 & Et & _).
  set (w1 := stop t1 gainNow w) in *.
  pose proof HS1 as (song1 & h1 & Hr1 & _).
  destruct (play_in_session trackName song t2 w1 (or_intror HS1) Hr1 Hs)
    as (w2 & E & HS2 & Hp & Hn & Hl & Ht2).
  assert (Hne : timeouts w2 <> O) by (rewrite Ht2, Et; discriminate).
  assert (HI : Idle (stopInternal (fire_timeout w2)))
    by (apply stopInternal_Idle, SessionConsistent_fire_timeout;
        right; exact HS2).
  exists w2. split; [exact E|].
  split; [split; [exact Hp|split; [exact Hn|exists song; auto]]|].
  split; [exact Hne|].
  split; [exact (step_timeout w2 Hne)|]. split; [exact HI|].
  destruct HI as (Hi & _ & Hm & _). split; [exact Hi|exact Hm].
Qed.

Lemma deferred_teardown_outlives_stop_witness :
  exists w2,
    play "menu" 3.125 (stop 3 0.105 tickedWorld) = Returned w2 /\
    Playing "menu" w2 /\
    isCurrentlyPlaying (stopInternal (fire_timeout w2)) = false.
Proof.
  destruct (deferred_teardown_outlives_stop "menu" Songs.menu 3 0.105 3.125
              tickedWorld tickedWorld_InSession eq_refl)
    as (w2 & E & Hp & _ & _ & _ & Hi & _).
  exists w2. auto.
Defined.

(** X10.  [stopImmediate()] brings a consistent
    engine to the idle state at once, keeps the audio context, the master
    gain, the noise buffer, the settings and the pending timeouts, and a
    second call changes nothing. *)
Theorem stopImmediate_is_idempotent (w : World) :
  SessionConsistent w ->
  Idle (stopImmediate w) /\
  stopImmediate (stopImmediate w) = stopImmediate w /\
  audioCtx (engine (stopImmediate w)) = audioCtx (engine w) /\
  masterGain (engine (stopImmediate w)) = masterGain (engine w) /\
  noiseBuffer (engine (stopImmediate w)) = noiseBuffer (engine w) /\
  volume (engine (stopImmediate w)) = volume (engine w) /\
  muted (engine (stopImmediate w)) = muted (engine w) /\
  timeouts (stopImmediate w) = timeouts w.
Proof.
  intro HS. unfold stopImmediate.
  split; [apply stopInternal_Idle; exact HS|].
  split; [open_world w; destruct tm; reflexivity|].
  destruct (stopInternal_keeps w) as (Kc & Kg & Kb & Kv & Km & _ & _ & Kt & _).
  auto 10.
Qed.

Lemma stopImmediate_is_idempotent_witness :
  Idle (stopImmediate tickedWorld) /\
  stopImmediate (stopImmediate tickedWorld) = stopImmediate tickedWorld.
Proof.
  destruct (stopImmediate_is_idempotent tickedWorld
              (or_intror tickedWorld_InSession)) as (H1 & H2 & _).
  split; [exact H1|exact H2].
Defined.

(** ** The scheduler tick *)

Lemma SONGS_tempos :
  Forall (fun entry => 1 <= tempo (snd entry) <= 1000 /\
                       0 < noiseVol (snd entry)) SONGS.
Proof.
  repeat constructor; discriminate.
Qed.

Lemma table_song_tempo (key : string) (song : SongData) :
  SONGS_get key = Track song ->
  1 <= tempo song <= 1000 /\ 0 < noiseVol song.
Proof.
  intro H. apply SONGS_get_Track, ownProperty_In in H.
  pose proof SONGS_tempos as HF. rewrite Forall_forall in HF.
  exact (HF _ H).
Qed.

Lemma TickFrame_iteration (w0 w : World) :
  TickFrame w0 w -> TickFrame w0 (iteration w).
Proof.
  unfold iteration.
  set (w1 := world_of (scheduleStep (currentStep (engine w))
                         (nextStepTime (engine w)) w)).
  intro H. unfold TickFrame in *.
  destruct (scheduleStep_frame (currentStep (engine w))
              (nextStepTime (engine w)) w)
    as (S1 & S2 & S3 & S4 & S5 & S6 & _ & _ & S7 & S8 & S9 & S10 & S11 & S12
        & S13).
  fold w1 in S1, S2, S3, S4, S5, S6, S7, S8, S9, S10, S11, S12, S13.
  destruct (advanceStep_frame w1)
    as (A1 & A2 & A3 & A4 & A5 & A6 & A7 & A8 & A9 & A10 & A11 & A12 & A13 & _).
  cbv zeta in A1, A2, A3, A4, A5, A6, A7, A8, A9.
  destruct H as (H1 & H2 & H3 & H4 & H5 & H6 & H7 & H8 & H9 & H10 & H11 & H12
                 & H13).
  cbv zeta.
  rewrite A1, A2, A3, A4, A5, A6, A7, A8, A9, A10, A11, A12, A13.
  rewrite S1, S2, S3, S4, S5, S6, S7, S8, S9, S10, S11, S12, S13.
  auto 20.
Qed.

Lemma scheduleNoise_voices (drumType : option Q) (channelVol time : Q)
  (w : World) :
  voices (scheduleNoise drumType channelVol time w) = voices w \/
  exists ft cutoff q factor decay,
    voices (scheduleNoise drumType channelVol time w)
    = voices w ++ [drumVoice ft cutoff q (channelVol * factor) decay time] /\
    In (ft, cutoff, q, factor, decay)
       [(lowpass, 180, 1, 2.5, 0.15); (bandpass, 1200, 0.8, 1.8, 0.1);
        (highpass, 8000, 1, 0.9, 0.04); (highpass, 6000, 1, 1.0, 0.18)]%Q.
Proof.
  unfold scheduleNoise.
  destruct (audioCtx (engine w)), (noiseBuffer (engine w)),
    (masterGain (engine w)), drumType as [d|]; auto.
  destruct (Qle_bool d 0); auto.
  destruct (Qeq_bool d Songs.K);
    [right; exists lowpass, 180, 1, 2.5, 0.15; cbn; auto|].
  destruct (Qeq_bool d Songs.SN);
    [right; exists bandpass, 1200, 0.8, 1.8, 0.1; cbn; auto|].
  destruct (Qeq_bool d Songs.HH);
    [right; exists highpass, 8000, 1, 0.9, 0.04; cbn; auto|].
  destruct (Qeq_bool d Songs.OH);
    [right; exists highpass, 6000, 1, 1.0, 0.18; cbn; auto 6|].
  auto.
Qed.

Lemma scheduleStep_voices (step : nat) (time : Q) (song : SongData)
  (w : World) :
  currentSong (engine w) = Some (Song song) ->
  voices (world_of (scheduleStep step time w)) = voices w \/
  exists ft cutoff q factor decay,
    voices (world_of (scheduleStep step time w))
    = voices w ++ [drumVoice ft cutoff q (noiseVol song * factor) decay time] /\
    In (ft, cutoff, q, factor, decay)
       [(lowpass, 180, 1, 2.5, 0.15); (bandpass, 1200, 0.8, 1.8, 0.1);
        (highpass, 8000, 1, 0.9, 0.04); (highpass, 6000, 1, 1.0, 0.18)]%Q.
Proof.
  intro Es. unfold scheduleStep. rewrite Es.
  repeat match goal with |- context [tonal ?a ?b ?c ?d ?e] =>
           destruct (tonal a b c d e) end.
  cbn [world_of].
  match goal with |- context [scheduleNoise ?d ?v ?t ?x] =>
    exact (scheduleNoise_voices d v t x)
  end.
Qed.

Lemma iteration_voices_length (song : SongData) (w : World) :
  currentSong (engine w) = Some (Song song) ->
  (List.length (voices (iteration w)) <= S (List.length (voices w)))%nat.
Proof.
  intro Es. unfold iteration.
  destruct (advanceStep_frame
              (world_of (scheduleStep (currentStep (engine w))
                           (nextStepTime (engine w)) w)))
    as (_ & _ & _ & _ & _ & _ & _ & _ & _ & _ & _ & _ & _ & ->).
  destruct (scheduleStep_voices (currentStep (engine w))
              (nextStepTime (engine w)) song w Es)
    as [->|(ft & cutoff & q & factor & decay & -> & _)].
  - lia.
  - rewrite length_app. cbn. lia.
Qed.

Section Tick.
Variables (song : SongData) (limit : Q).
Hypothesis step_pos : 0 < secondsPerStep song.

(** What [n] iterations of the loop have done when it returns. *)
Lemma schedule_loop_steps :
  forall (fuel : nat) (w : World) (n : nat) (w' : World),
    currentSong (engine w) = Some (Song song) ->
    (currentStep (engine w) < List.length (pulse1 song))%nat ->
    0 <= nextStepTime (engine w) ->
    schedule_loop fuel limit w = Some (n, Returned w') ->
    nextStepTime (engine w')
    = Nat.iter n (fun t => fl (t + secondsPerStep song))
        (nextStepTime (engine w)) /\
    (n <> O ->
     nextStepTime (engine w')
     < (limit + secondsPerStep song) * (1 + unit_roundoff)) /\
    currentStep (engine w')
    = ((currentStep (engine w) + n) mod List.length (pulse1 song))%nat /\
    (List.length (voices w') <= List.length (voices w) + n)%nat.
Proof.
  induction fuel as [|fuel IH]; intros w n w' Hs Hb H0;
    cbn [schedule_loop];
    destruct (Qltb (nextStepTime (engine w)) limit) eqn:Elt;
    try discriminate;
    try (intro H; injection H as <- <-; rewrite !Nat.add_0_r;
         split; [reflexivity|]; split; [congruence|];
         split; [symmetry; apply Nat.mod_small; exact Hb|lia]).
  rewrite (scheduleStep_returns _ _ song w Hs). fold (iteration w).
  destruct (iteration_fields song w Hs) as (Hs1 & Et1 & Ec1).
  pose proof (iteration_voices_length song w Hs) as Hv.
  apply Qltb_lt in Elt.
  destruct (fl_bounds (nextStepTime (engine w) + secondsPerStep song))
    as [_ Hup]; [qlra|].
  assert (H1 : 0 <= nextStepTime (engine (iteration w)))
    by (rewrite Et1; apply fl_nonneg; qlra).
  destruct (schedule_loop fuel limit (iteration w)) as [[m o]|] eqn:El;
    [|discriminate].
  intro H. injection H as <- ->.
  assert (Hb1 : (currentStep (engine (iteration w))
                 < List.length (pulse1 song))%nat)
    by (rewrite Ec1; apply wrap_in_bounds; exact Hb).
  destruct (IH (iteration w) m w' Hs1 Hb1 H1 El) as (Et & Hlt & Ec & Hl).
  split; [rewrite Nat.iter_succ_r; cbv beta; rewrite <- Et1; exact Et|].
  split.
  { intros _. destruct m as [|m]; [|apply Hlt; discriminate].
    cbv [Nat.iter nat_rect] in Et. rewrite Et, Et1.
    unfold unit_roundoff in *. qlra. }
  split; [|lia].
  rewrite Ec, Ec1, wrap_mod by exact Hb.
  rewrite Nat.Div0.add_mod_idemp_l. f_equal. lia.
Qed.

End Tick.

(** X11.  In a run in which [play] is handed no
    name the table inherits from [Object.prototype], with a track playing,
    a step time that is not negative and a clock reading of at most 2^32 s,
    the scheduler tick terminates -- the loaded song is a track of the
    table, whose tempo is between 1 and 1000 -- and it leaves the lookahead
    window full: after [n] iterations the next-step time is the old one
    with the step duration added [n] times, each sum rounded to a double; it
    is not before the limit, the rounded [currentTime + LOOKAHEAD], and,
    when the tick scheduled anything, it is below the limit plus one step
    duration, increased by one rounding.  The step index has advanced by [n]
    modulo the track length, at most one percussive voice was released per
    step, and the audio resources, the song, its name, the playing flag, the
    timers, the settings and the console are as before. *)
Theorem tick_fills_lookahead_window (currentTime : Q) (w : World) :
  ReachableWith ownOrUnknown w ->
  isPlaying (engine w) = true ->
  0 <= nextStepTime (engine w) ->
  0 <= currentTime <= 4294967296 ->
  exists song n w',
    currentSong (engine w) = Some (Song song) /\
    (forall fuel, (n <= fuel)%nat ->
       schedule fuel currentTime w = Some (n, Returned w')) /\
    nextStepTime (engine w')
    = Nat.iter n (fun t => fl (t + secondsPerStep song))
        (nextStepTime (engine w)) /\
    lookaheadLimit currentTime <= nextStepTime (engine w') /\
    (n <> O ->
     nextStepTime (engine w')
     < (lookaheadLimit currentTime + secondsPerStep song)
       * (1 + unit_roundoff)) /\
    currentStep (engine w')
    = ((currentStep (engine w) + n) mod List.length (pulse1 song))%nat /\
    (List.length (voices w') <= List.length (voices w) + n)%nat /\
    TickFrame w w'.
Proof.
  intros HR Hp H0 Hct.
  destruct (SessionConsistent_reachable w HR) as [(Hp' & _)|HS];
    [congruence|].
  destruct HS as (song & h & Hr & _ & Hn & Hs & _).
  destruct (table_song_tempo _ _ Hn) as (Ht & _).
  assert (Ht0 : 0 < tempo song) by qlra.
  pose proof (secondsPerStep_pos song Ht0) as HD.
  pose proof (stepDuration_range song Ht) as Hd.
  pose proof (progress_bound song currentTime Ht Hct) as Hprog.
  destruct (Sequenced_reachable w HR) as (Hb & _).
  unfold StepInBounds in Hb. rewrite Hs in Hb.
  set (limit := lookaheadLimit currentTime) in *.
  assert (Hpos : 0 < progress song limit) by qlra.
  destruct (schedule_loop_terminates song limit HD
              (workBound song limit (nextStepTime (engine w))) w Hs H0)
    as (n & w' & _ & Hrun & _ & Hfull).
  { unfold workBound.
    set (x := (limit - nextStepTime (engine w)) / progress song limit).
    assert (Ex : x * progress song limit == limit - nextStepTime (engine w))
      by (subst x; field; qlra).
    pose proof (to_nat_ceiling_ge x) as H.
    apply (Qmult_le_compat_r _ _ (progress song limit)) in H; qlra. }
  apply ready_true in Hr. destruct Hr as (ctx & g & Hc & Hg).
  assert (Esched : forall fuel,
            schedule fuel currentTime w = schedule_loop fuel limit w)
    by (intro fuel; unfold schedule; rewrite Hp, Hc, Hs; reflexivity).
  pose proof (Hrun n (le_n n)) as El.
  destruct (schedule_loop_steps song limit HD n w n w' Hs Hb H0 El)
    as (Et & Hlt & Ec & Hv).
  exists song, n, w'.
  split; [exact Hs|].
  split; [intros fuel Hf; rewrite Esched; exact (Hrun fuel Hf)|].
  split; [exact Et|]. split; [exact Hfull|]. split; [exact Hlt|].
  split; [exact Ec|]. split; [exact Hv|].
  apply (schedule_loop_preserves (TickFrame w) limit
           (TickFrame_iteration w) n w n (Returned w')); [|exact El].
  unfold TickFrame. auto 20.
Qed.

Lemma tickedWorld_step_time : 0 <= nextStepTime (engine tickedWorld).
Proof. apply Qle_bool_iff. vm_compute. reflexivity. Qed.

Lemma tickedWorld_playing : isPlaying (engine tickedWorld) = true.
Proof. vm_compute. reflexivity. Qed.

Lemma tick_fills_lookahead_window_witness :
  ReachableWith ownOrUnknown tickedWorld /\
  exists song n w',
    currentSong (engine tickedWorld) = Some (Song song) /\
    schedule n 0.3125 tickedWorld = Some (n, Returned w') /\
    lookaheadLimit 0.3125 <= nextStepTime (engine w').
Proof.
  split; [exact tickedWorld_reachable|].
  destruct (tick_fills_lookahead_window 0.3125 tickedWorld
              tickedWorld_reachable tickedWorld_playing
              tickedWorld_step_time)
    as (song & n & w' & Hs & Hrun & _ & Hfull & _).
  { split; apply Qle_bool_iff; vm_compute; reflexivity. }
  exists song, n, w'. split; [exact Hs|].
  split; [exact (Hrun n (le_n n))|exact Hfull].
Defined.

(** ** Time order of the automation timelines *)

Lemma Chronological_filter (f : AutomationEvent -> bool)
  (l : list AutomationEvent) :
  Chronological l -> Chronological (filter f l).
Proof.
  unfold Chronological. induction 1 as [|a l Hs IH Ha]; cbn; [constructor|].
  destruct (f a); [|exact IH].
  constructor; [exact IH|].
  rewrite Forall_forall in *. intros x Hx. apply filter_In in Hx.
  apply Ha, Hx.
Qed.

Lemma Chronological_snoc (l : list AutomationEvent) (a : AutomationEvent) :
  Chronological l -> Forall (fun x => earlier x a) l ->
  Chronological (l ++ [a]).
Proof.
  unfold Chronological. induction 1 as [|b l Hs IH Hb]; cbn; intro HF.
  - constructor; constructor.
  - inversion HF as [|? ? Hba HF']; subst.
    constructor; [exact (IH HF')|].
    apply Forall_app. split; [exact Hb|]. constructor; [exact Hba|constructor].
Qed.

Lemma cancelled_before (t : Q) (l : list AutomationEvent) :
  Forall (fun x => (eventTime x < t)%Q)
         (filter (fun e => Qltb (eventTime e) t) l).
Proof.
  apply Forall_forall. intros x Hx. apply filter_In in Hx.
  apply Qltb_lt, Hx.
Qed.

(** Cancelling from [t] on and then scheduling at [t] or later keeps a
    timeline in time order. *)
Lemma Chronological_reschedule (t : Q) (l : list AutomationEvent)
  (a : AutomationEvent) :
  Chronological l -> (t <= eventTime a)%Q ->
  Chronological (filter (fun e => Qltb (eventTime e) t) l ++ [a]).
Proof.
  intros Hl Ha. apply Chronological_snoc; [apply Chronological_filter, Hl|].
  eapply Forall_impl; [|apply cancelled_before].
  intros x Hx. unfold earlier. cbv beta in Hx. qlra.
Qed.

Lemma Chronological_reschedule2 (t : Q) (l : list AutomationEvent)
  (a b : AutomationEvent) :
  Chronological l -> (t <= eventTime a)%Q -> (eventTime a <= eventTime b)%Q ->
  Chronological (filter (fun e => Qltb (eventTime e) t) l ++ [a; b]).
Proof.
  intros Hl Ha Hb.
  change [a; b] with ([a] ++ [b]). rewrite app_assoc.
  apply Chronological_snoc; [apply Chronological_reschedule; assumption|].
  apply Forall_app. split.
  - eapply Forall_impl; [|apply cancelled_before].
    intros x Hx. unfold earlier. cbv beta in Hx. qlra.
  - constructor; [exact Hb|constructor].
Qed.

Lemma scheduleTonalNote_ordered (osc : OscillatorNode) (g : GainNode)
  (noteValue : option Q) (channelVol time : Q) :
  Chronological (events (frequency osc)) ->
  Chronological (events (gain g)) ->
  Chronological
    (events (frequency (fst (scheduleTonalNote osc g noteValue channelVol time))))
  /\
  Chronological
    (events (gain (snd (scheduleTonalNote osc g noteValue channelVol time)))).
Proof.
  intros Hf Hg. unfold scheduleTonalNote.
  destruct noteValue as [note|]; [|split; assumption].
  destruct (Qltb 0 note).
  - cbn. split.
    + apply Chronological_reschedule; [exact Hf|cbn; qlra].
    + rewrite <- app_assoc.
      apply Chronological_reschedule2; [exact Hg|cbn; qlra|cbn; qlra].
  - destruct (Qeq_bool note 0); [|split; assumption].
    cbn. split; [exact Hf|].
    apply Chronological_reschedule; [exact Hg|cbn; qlra].
Qed.

Lemma tonal_ordered (osc : option OscillatorNode) (g : option GainNode)
  (noteValue : option Q) (channelVol time : Q) :
  Chronological (frequencyEvents osc) ->
  Chronological (gainEvents g) ->
  Chronological
    (frequencyEvents (fst (tonal osc g noteValue channelVol time))) /\
  Chronological (gainEvents (snd (tonal osc g noteValue channelVol time))).
Proof.
  intros Hf Hg. unfold tonal.
  destruct osc as [o|], g as [gn|]; try (split; assumption).
  pose proof (scheduleTonalNote_ordered o gn noteValue channelVol time Hf Hg)
    as H.
  destruct (scheduleTonalNote o gn noteValue channelVol time) as [o' g'].
  exact H.
Qed.

Lemma drumVoice_ordered (ft : FilterType) (cutoff q peak decay time : Q) :
  (0 <= decay)%Q ->
  Chronological (events (voiceGain (drumVoice ft cutoff q peak decay time))).
Proof.
  intro H. cbn. constructor; [constructor; constructor|].
  constructor; [unfold earlier; cbn; qlra|constructor].
Qed.

Lemma scheduleStep_ordered (step : nat) (time : Q) (w : World) :
  TimelinesOrdered w ->
  TimelinesOrdered (world_of (scheduleStep step time w)).
Proof.
  intros (Hm & H1g & H1o & H2g & H2o & H3g & H3o & Hv).
  destruct (currentSong (engine w)) as [[song|key]|] eqn:Es;
    try (rewrite scheduleStep_throws by (rewrite Es; discriminate);
         repeat split; assumption).
  pose proof (scheduleStep_voices step time song w Es) as Hvoices.
  pose proof (scheduleStep_frame step time w) as (_ & Eg & _).
  revert Hvoices Eg. unfold scheduleStep. rewrite Es.
  set (idx := (step mod List.length (pulse1 song))%nat).
  destruct (tonal_ordered (pulse1Osc (engine w)) (pulse1Gain (engine w))
              (nth_error (pulse1 song) idx) (pulse1Vol song) time H1o H1g)
    as [A1 A2].
  destruct (tonal_ordered (pulse2Osc (engine w)) (pulse2Gain (engine w))
              (nth_error (pulse2 song) idx) (pulse2Vol song) time H2o H2g)
    as [A3 A4].
  destruct (tonal_ordered (triOsc (engine w)) (triGain (engine w))
              (nth_error (triangle song) idx) (triVol song) time H3o H3g)
    as [A5 A6].
  destruct (tonal (pulse1Osc (engine w)) _ _ _ _) as [p1o p1g].
  destruct (tonal (pulse2Osc (engine w)) _ _ _ _) as [p2o p2g].
  destruct (tonal (triOsc (engine w)) _ _ _ _) as [to tg].
  cbn [world_of].
  match goal with |- context [scheduleNoise ?d ?v ?t ?x] =>
    destruct (scheduleNoise_frame d v t x) as (E & _);
    set (w1 := scheduleNoise d v t x) in *
  end.
  intros Hvoices Eg.
  unfold TimelinesOrdered, masterEvents. rewrite E. cbn in *.
  unfold masterEvents in Hm.
  split; [exact Hm|].
  repeat (split; [assumption|]).
  destruct Hvoices as [->|(ft & cutoff & q & factor & decay & -> & Hin)];
    [exact Hv|].
  apply Forall_app. split; [exact Hv|].
  constructor; [|constructor].
  apply drumVoice_ordered.
  cbn in Hin.
  repeat (destruct Hin as [Hin|Hin];
          [injection Hin as <- <- <- <- <-; discriminate|]).
  destruct Hin.
Qed.

Lemma advanceStep_ordered (w : World) :
  TimelinesOrdered w -> TimelinesOrdered (advanceStep w).
Proof.
  unfold TimelinesOrdered, masterEvents.
  destruct (advanceStep_voices w) as (-> & -> & -> & -> & -> & ->).
  destruct (advanceStep_frame w)
    as (_ & Eg & _ & _ & _ & _ & _ & _ & _ & _ & _ & _ & _ & Ev).
  cbv zeta in Eg. rewrite Eg, Ev. auto.
Qed.

(** What the four transport and volume calls do to the master timeline. *)
Lemma master_rescheduled (w w' : World) (now : Q) (new : list AutomationEvent) :
  masterEvents w' = masterEvents w \/
  masterEvents w' =
    filter (fun e => Qltb (eventTime e) now) (masterEvents w) ++ new ->
  Chronological new ->
  Forall (fun e => (now <= eventTime e)%Q) new ->
  Chronological (masterEvents w) -> Chronological (masterEvents w').
Proof.
  intros [->| ->] Hn Hb Hm; [exact Hm|].
  revert Hn Hb. induction new as [|a new IH] using rev_ind; intros Hn Hb.
  - rewrite app_nil_r. apply Chronological_filter, Hm.
  - rewrite app_assoc.
    apply Forall_app in Hb. destruct Hb as [Hb Ha].
    inversion Ha as [|? ? Ha' _]; subst.
    assert (Hn' : Chronological new /\ Forall (fun x => earlier x a) new).
    { clear - Hn. unfold Chronological in *.
      induction new as [|b new IH]; cbn in *; [split; constructor|].
      inversion Hn as [|? ? Hs Hf]; subst.
      apply Forall_app in Hf. destruct Hf as [Hf Hba].
      destruct (IH Hs) as [IH1 IH2].
      split; [constructor; assumption|].
      constructor; [inversion Hba; assumption|exact IH2]. }
    destruct Hn' as [Hn1 Hn2].
    apply Chronological_snoc; [exact (IH Hn1 Hb)|].
    apply Forall_app. split; [|exact Hn2].
    eapply Forall_impl; [|apply cancelled_before].
    intros x Hx. unfold earlier. cbv beta in Hx. qlra.
Qed.

Lemma stop_master (now gainNow : Q) (w : World) :
  masterEvents (stop now gainNow w) = masterEvents w \/
  masterEvents (stop now gainNow w) =
    filter (fun e => Qltb (eventTime e) now) (masterEvents w)
    ++ [SetValue gainNow now; LinearRamp 0 (now + 0.3)].
Proof.
  open_world w. destruct pl, ctx, mg as [[[gv ge] gc]|]; auto.
  right. unfold stop, masterEvents. cbn. rewrite <- app_assoc. reflexivity.
Qed.

Lemma setVolume_master (level now : Q) (w : World) :
  masterEvents (setVolume level now w) = masterEvents w \/
  masterEvents (setVolume level now w) =
    filter (fun e => Qltb (eventTime e) now) (masterEvents w)
    ++ [SetValue (if muted (engine w) then 0 else clamp level) now].
Proof.
  open_world w.
  destruct ctx, mg as [[[gv ge] gc]|];
    first [left; reflexivity | right; destruct mu; reflexivity].
Qed.

Lemma toggleMute_master (now : Q) (w : World) :
  masterEvents (snd (toggleMute now w)) = masterEvents w \/
  masterEvents (snd (toggleMute now w)) =
    filter (fun e => Qltb (eventTime e) now) (masterEvents w)
    ++ [SetValue (if muted (engine w) then volume (engine w) else 0) now].
Proof.
  open_world w.
  destruct ctx, mg as [[[gv ge] gc]|];
    first [left; reflexivity | right; destruct mu; reflexivity].
Qed.

Lemma init_master (existingCtx : option AudioContext) (platform : Platform)
  (w : World) :
  masterEvents (init existingCtx platform w) = masterEvents w \/
  masterEvents (init existingCtx platform w) = [].
Proof.
  unfold init. destruct (audioCtx (engine w)) eqn:Ec; [auto|].
  destruct existingCtx, (newAudioContext platform),
    (createGainThrows platform), (createBufferThrows platform);
    unfold masterEvents, createNoiseBuffer; cbn; auto.
Qed.

Lemma TimelinesOrdered_same (w w' : World) :
  SameSession w w' ->
  Chronological (masterEvents w') ->
  TimelinesOrdered w -> TimelinesOrdered w'.
Proof.
  intros (_ & _ & _ & _ & _ & _ & E1 & E2 & E3 & E4 & E5 & E6 & _ & _ & Ev)
         Hm (_ & H).
  unfold TimelinesOrdered. cbv zeta in *.
  rewrite E1, E2, E3, E4, E5, E6, Ev. split; assumption.
Qed.

Lemma TimelinesOrdered_stopInternal (w : World) :
  TimelinesOrdered w -> TimelinesOrdered (stopInternal w).
Proof.
  intros (Hm & _ & _ & _ & _ & _ & _ & Hv).
  destruct (stopInternal_keeps w) as (_ & Kg & _ & _ & _ & _ & _ & _ & Kv).
  unfold TimelinesOrdered, masterEvents. rewrite Kg, Kv.
  rewrite stopInternal_engine. cbn.
  repeat (split; [first [exact Hm | constructor]|]). exact Hv.
Qed.

(** The nodes [play] leaves when it loads a member of [Object.prototype] on
    a platform that lets [NaN] coefficients through. *)
Lemma play_member_voices (trackName : string) (now : Q) (w : World) :
  ready (engine w) = true ->
  SONGS_get trackName = Inherited ->
  isPlaying (engine w) && String.eqb (currentTrackName (engine w)) trackName
    = false ->
  option_map rejectsNaN (audioCtx (engine w)) = Some false ->
  exists w',
    play trackName now w = Returned w' /\
    pulse1Osc (engine w') = Some (freshOscillator customNaN 440) /\
    pulse2Osc (engine w') = Some (freshOscillator customNaN 440) /\
    triOsc (engine w') = Some (freshOscillator triangleType 110) /\
    pulse1Gain (engine w') = Some silentGain /\
    pulse2Gain (engine w') = Some silentGain /\
    triGain (engine w') = Some silentGain.
Proof.
  intros Hr Hs Hp Hj. open_world w. unfold ready in Hr. cbn in Hr, Hp, Hj.
  destruct ctx as [[cst rate rc rj]|], mg as [[[gv ge] gc]|];
    try discriminate.
  injection Hj as ->.
  run_play. evaluate_play now.
  destruct tm as [h|], cst; vm_compute; repeat split.
Qed.

Lemma TimelinesOrdered_play (trackName : string) (now : Q) (w : World) :
  TimelinesOrdered w -> TimelinesOrdered (world_of (play trackName now w)).
Proof.
  intros HT.
  destruct (play_cases trackName now w)
    as [E|[(_ & _ & E)|(Hr & Hp & [(song & Hs)|Hs])]];
    try (rewrite E; exact HT).
  - destruct (play_starts trackName song now w Hr Hs Hp) as (w1 & E1 & H1).
    destruct (play_starts_voices trackName song now w Hr Hs Hp)
      as (w2 & E2 & V1 & V2 & V3 & V4 & V5 & V6).
    rewrite E1 in E2. injection E2 as <-. rewrite E1. cbn [world_of].
    decompose [and] H1.
    destruct HT as (Hm & _ & _ & _ & _ & _ & _ & Hv).
    unfold TimelinesOrdered. cbv zeta.
    rewrite V1, V2, V3, V4, V5, V6.
    split.
    { match goal with Hev : masterEvents w1 = _ |- _ => rewrite Hev end.
      apply Chronological_reschedule2; [exact Hm|cbn; qlra|cbn; qlra]. }
    cbn. repeat (split; [constructor|]).
    match goal with Hvo : voices w1 = _ |- _ => rewrite Hvo end. exact Hv.
  - destruct (option_map rejectsNaN (audioCtx (engine w))) as [[|]|] eqn:Hj.
    + destruct (play_member_throws trackName now w Hr Hs Hp Hj)
        as (w1 & E1 & _ & _ & _ & _ & _ & _ & _ & _ & _ & Eg
            & V1 & V2 & V3 & V4 & V5 & V6 & _ & _ & Ev).
      rewrite E1. cbn [world_of].
      destruct HT as (Hm & _ & _ & _ & _ & _ & _ & Hv).
      unfold TimelinesOrdered, masterEvents in *. cbv zeta.
      rewrite V1, V2, V3, V4, V5, V6, Eg, Ev.
      split; [exact Hm|].
      cbn. repeat (split; [constructor|]). exact Hv.
    + destruct (play_member_returns trackName now w Hr Hs Hp Hj)
        as (w1 & E1 & H1).
      destruct (play_member_voices trackName now w Hr Hs Hp Hj)
        as (w2 & E2 & V1 & V2 & V3 & V4 & V5 & V6).
      rewrite E1 in E2. injection E2 as <-. rewrite E1. cbn [world_of].
      decompose [and] H1.
      destruct HT as (Hm & _ & _ & _ & _ & _ & _ & Hv).
      unfold TimelinesOrdered. cbv zeta.
      rewrite V1, V2, V3, V4, V5, V6.
      split.
      { match goal with Hev : masterEvents w1 = _ |- _ => rewrite Hev end.
        apply Chronological_reschedule2; [exact Hm|cbn; qlra|cbn; qlra]. }
      cbn. repeat (split; [constructor|]).
      match goal with Hvo : voices w1 = _ |- _ => rewrite Hvo end. exact Hv.
    + apply ready_true in Hr. destruct Hr as (ctx & g & Hc & _).
      rewrite Hc in Hj. discriminate.
Qed.

Lemma TimelinesOrdered_iteration (w : World) :
  TimelinesOrdered w -> TimelinesOrdered (iteration w).
Proof.
  intro H. apply advanceStep_ordered, scheduleStep_ordered, H.
Qed.

Lemma TimelinesOrdered_step (w w' : World) :
  TimelinesOrdered w -> Step w w' -> TimelinesOrdered w'.
Proof.
  intros HT Hstep. pose proof HT as (Hm & _). destruct Hstep.
  - apply (TimelinesOrdered_same w); [apply init_SameSession| |exact HT].
    destruct (init_master existingCtx platform w) as [-> | ->];
      [exact Hm|constructor].
  - exact (TimelinesOrdered_play trackName now w HT).
  - apply (TimelinesOrdered_same w); [apply stop_SameSession| |exact HT].
    apply (master_rescheduled w _ now _ (stop_master now gainNow w));
      [|repeat constructor; cbn; qlra|exact Hm].
    constructor; [constructor; constructor|].
    constructor; [unfold earlier; cbn; qlra|constructor].
  - exact (TimelinesOrdered_stopInternal w HT).
  - apply (TimelinesOrdered_same w); [apply setVolume_SameSession| |exact HT].
    apply (master_rescheduled w _ now _ (setVolume_master vol now w));
      [|repeat constructor; cbn; qlra|exact Hm].
    constructor; constructor.
  - apply (TimelinesOrdered_same w); [apply toggleMute_SameSession| |exact HT].
    apply (master_rescheduled w _ now _ (toggleMute_master now w));
      [|repeat constructor; cbn; qlra|exact Hm].
    constructor; constructor.
  - exact (schedule_preserves TimelinesOrdered TimelinesOrdered_iteration
             fuel currentTime w n o HT H0).
  - apply TimelinesOrdered_stopInternal.
    apply (TimelinesOrdered_same w); [repeat split|exact Hm|exact HT].
  - apply (TimelinesOrdered_same w);
      [apply context_state_SameSession| |exact HT].
    unfold context_state, masterEvents in *.
    destruct (audioCtx (engine w)); exact Hm.
Qed.

(** X12.  Every writer of an automation
    timeline cancels from its own time on before it schedules, at that time
    or later.  So in every state a run reaches, whatever the clock readings
    of the calls were, each timeline of the engine -- master gain, gain and
    frequency of the three tonal channels, gain of each percussive voice --
    lists its events in non-decreasing time order: no call leaves an event
    behind that is later than one it adds. *)
Theorem timelines_stay_in_time_order (w : World) :
  Reachable w -> TimelinesOrdered w.
Proof.
  induction 1 as [|w w' _ IH Hstep].
  - repeat split; constructor.
  - exact (TimelinesOrdered_step w w' IH Hstep).
Qed.

Lemma timelines_stay_in_time_order_witness :
  Reachable loudWorld /\ Chronological (masterEvents loudWorld).
Proof.
  split; [exact loudWorld_reachable|].
  exact (proj1 (timelines_stay_in_time_order loudWorld loudWorld_reachable)).
Defined.

(** ** Percussive voices *)

Lemma drumVoice_well_formed (ft : FilterType) (cutoff q factor decay : Q)
  (channelVol time : Q) :
  (0 < channelVol)%Q ->
  In (ft, cutoff, q, factor, decay)
     [(lowpass, 180, 1, 2.5, 0.15); (bandpass, 1200, 0.8, 1.8, 0.1);
      (highpass, 8000, 1, 0.9, 0.04); (highpass, 6000, 1, 1.0, 0.18)]%Q ->
  WellFormedVoice (drumVoice ft cutoff q (channelVol * factor) decay time).
Proof.
  intros Hv Hin. exists (channelVol * factor)%Q, decay.
  cbn in Hin.
  repeat (destruct Hin as [Hin|Hin];
          [injection Hin as <- <- <- <- <-; cbn;
           repeat split; try reflexivity; qlra|]).
  destruct Hin.
Qed.

(** *** What is loaded comes from the table *)

Lemma TrackOrMember_of_song (w w' : World) :
  currentSong (engine w') = currentSong (engine w) ->
  TrackOrMember w -> TrackOrMember w'.
Proof.
  unfold TrackOrMember. intros ->. auto.
Qed.

Lemma TrackOrMember_iteration (w : World) :
  TrackOrMember w -> TrackOrMember (iteration w).
Proof.
  apply TrackOrMember_of_song. unfold iteration.
  destruct (scheduleStep_frame (currentStep (engine w))
              (nextStepTime (engine w)) w) as (_ & _ & _ & Es & _).
  destruct (advanceStep_frame
              (world_of (scheduleStep (currentStep (engine w))
                           (nextStepTime (engine w)) w)))
    as (_ & _ & _ & Es' & _).
  cbv zeta in Es'. congruence.
Qed.

Lemma TrackOrMember_play (trackName : string) (now : Q) (w : World) :
  TrackOrMember w -> TrackOrMember (world_of (play trackName now w)).
Proof.
  intro HT.
  destruct (play_cases trackName now w)
    as [E|[(_ & _ & E)|(Hr & Hp & [(song & Hs)|Hs])]];
    try (rewrite E; exact HT).
  - destruct (play_starts trackName song now w Hr Hs Hp)
      as (w1 & E & _ & Es & _).
    rewrite E. unfold TrackOrMember. cbn [world_of]. rewrite Es.
    exists trackName. exact Hs.
  - destruct (option_map rejectsNaN (audioCtx (engine w))) as [[|]|] eqn:Hj.
    + destruct (play_member_throws trackName now w Hr Hs Hp Hj)
        as (w1 & E & _ & Es & _).
      rewrite E. unfold TrackOrMember. cbn [world_of]. rewrite Es. exact I.
    + destruct (play_member_returns trackName now w Hr Hs Hp Hj)
        as (w1 & E & _ & Es & _).
      rewrite E. unfold TrackOrMember. cbn [world_of]. rewrite Es. exact I.
    + apply ready_true in Hr. destruct Hr as (ctx & g & Hc & _).
      rewrite Hc in Hj. discriminate.
Qed.

Lemma TrackOrMember_step (w w' : World) :
  TrackOrMember w -> Step w w' -> TrackOrMember w'.
Proof.
  intros HT Hstep. destruct Hstep.
  - apply (TrackOrMember_of_song w); [apply init_SameSession|exact HT].
  - exact (TrackOrMember_play trackName now w HT).
  - apply (TrackOrMember_of_song w); [apply stop_SameSession|exact HT].
  - unfold TrackOrMember, stopImmediate. rewrite stopInternal_engine.
    exact I.
  - apply (TrackOrMember_of_song w); [apply setVolume_SameSession|exact HT].
  - apply (TrackOrMember_of_song w); [apply toggleMute_SameSession|exact HT].
  - exact (schedule_preserves TrackOrMember TrackOrMember_iteration
             fuel currentTime w n o HT H0).
  - unfold TrackOrMember. rewrite stopInternal_engine. exact I.
  - apply (TrackOrMember_of_song w);
      [apply context_state_SameSession|exact HT].
Qed.

Lemma TrackOrMember_reachable (w : World) : Reachable w -> TrackOrMember w.
Proof.
  induction 1 as [|w w' _ IH Hstep]; [exact I|].
  exact (TrackOrMember_step w w' IH Hstep).
Qed.

Lemma voices_iteration (w : World) :
  TrackOrMember w /\ Forall WellFormedVoice (voices w) ->
  TrackOrMember (iteration w) /\
  Forall WellFormedVoice (voices (iteration w)).
Proof.
  intros [HS Hv]. split; [exact (TrackOrMember_iteration w HS)|].
  destruct (currentSong (engine w)) as [[song|key]|] eqn:Es;
    try (rewrite iteration_unloaded by (rewrite Es; discriminate);
         exact Hv).
  unfold iteration.
  destruct (advanceStep_frame
              (world_of (scheduleStep (currentStep (engine w))
                           (nextStepTime (engine w)) w)))
    as (_ & _ & _ & _ & _ & _ & _ & _ & _ & _ & _ & _ & _ & ->).
  unfold TrackOrMember in HS. rewrite Es in HS. destruct HS as (key & Hn).
  destruct (table_song_tempo _ _ Hn) as (_ & Hvol).
  destruct (scheduleStep_voices (currentStep (engine w))
              (nextStepTime (engine w)) song w Es)
    as [->|(ft & cutoff & q & factor & decay & -> & Hin)]; [exact Hv|].
  apply Forall_app. split; [exact Hv|].
  constructor; [|constructor].
  exact (drumVoice_well_formed ft cutoff q factor decay _ _ Hvol Hin).
Qed.

Lemma voices_kept_by_step (w w' : World) :
  Step w w' ->
  voices w' = voices w \/
  exists fuel currentTime n o,
    schedule fuel currentTime w = Some (n, o) /\ w' = world_of o.
Proof.
  intro Hstep. destruct Hstep.
  - left. apply init_SameSession.
  - left. apply play_frame.
  - left. apply stop_SameSession.
  - left. apply stopInternal_world.
  - left. apply setVolume_SameSession.
  - left. apply toggleMute_SameSession.
  - right. exists fuel, currentTime, n, o. auto.
  - left. rewrite (proj2 (proj2 (proj2 (stopInternal_world _)))). reflexivity.
  - left. apply context_state_SameSession.
Qed.

(** X13.  Every percussive voice a run releases has
    the shape [scheduleNoise] gives it from a track of the table: the gain
    envelope is a positive peak set at the start time followed by an
    exponential ramp to 0.001, the ramp ends after the start and before the
    source is stopped, the source is stopped 0.3 s after its start, and the
    filter frequency is positive. *)
Theorem voices_are_well_formed (w : World) :
  Reachable w -> Forall WellFormedVoice (voices w).
Proof.
  induction 1 as [|w w' HR IH Hstep]; [constructor|].
  destruct (voices_kept_by_step w w' Hstep)
    as [->|(fuel & currentTime & n & o & Hrun & ->)]; [exact IH|].
  refine (proj2 (schedule_preserves
                   (fun x => TrackOrMember x
                             /\ Forall WellFormedVoice (voices x))
                   voices_iteration fuel currentTime w n o _ Hrun)).
  split; [exact (TrackOrMember_reachable w HR)|exact IH].
Qed.

Lemma voices_are_well_formed_witness :
  Reachable tickedWorld /\ Forall WellFormedVoice (voices tickedWorld).
Proof.
  split; [exact (ReachableWith_any tickedWorld tickedWorld_reachable)|].
  exact (voices_are_well_formed tickedWorld
           (ReachableWith_any tickedWorld tickedWorld_reachable)).
Defined.

(** ** Initialisation happens once *)

Lemma SameResources_refl (w : World) :
  audioCtx (engine w) <> None -> SameResources w w.
Proof.
  intro H. split; [exact H|split; reflexivity].
Qed.

Lemma SameResources_trans (w w1 w2 : World) :
  SameResources w w1 -> SameResources w1 w2 -> SameResources w w2.
Proof.
  intros (_ & Eg & Eb) (Hc & Eg' & Eb').
  split; [exact Hc|]. split; congruence.
Qed.

Lemma init_once (existingCtx : option AudioContext) (platform : Platform)
  (w : World) :
  audioCtx (engine w) <> None -> init existingCtx platform w = w.
Proof.
  intro H. unfold init. destruct (audioCtx (engine w)); [reflexivity|].
  congruence.
Qed.

Lemma scheduleStep_without_buffer (step : nat) (time : Q) (w : World) :
  noiseBuffer (engine w) = None ->
  voices (world_of (scheduleStep step time w)) = voices w.
Proof.
  intro Hb. unfold scheduleStep.
  destruct (currentSong (engine w)) as [[song|key]|]; try reflexivity.
  repeat match goal with |- context [tonal ?a ?b ?c ?d ?e] =>
           destruct (tonal a b c d e) end.
  unfold scheduleNoise. cbn. rewrite Hb.
  destruct (audioCtx (engine w)); reflexivity.
Qed.

Lemma resources_iteration (w0 w : World) :
  TickFrame w0 w /\
  (noiseBuffer (engine w0) = None -> voices w = voices w0) ->
  TickFrame w0 (iteration w) /\
  (noiseBuffer (engine w0) = None -> voices (iteration w) = voices w0).
Proof.
  intros [HF Hv]. split; [exact (TickFrame_iteration w0 w HF)|].
  intro Hb. unfold iteration.
  destruct (advanceStep_frame
              (world_of (scheduleStep (currentStep (engine w))
                           (nextStepTime (engine w)) w)))
    as (_ & _ & _ & _ & _ & _ & _ & _ & _ & _ & _ & _ & _ & ->).
  rewrite scheduleStep_without_buffer; [exact (Hv Hb)|].
  destruct HF as (_ & _ & -> & _). exact Hb.
Qed.

Lemma TickFrame_refl (w : World) : TickFrame w w.
Proof.
  unfold TickFrame. auto 20.
Qed.

Lemma schedule_resources (fuel : nat) (currentTime : Q) (w : World)
  (n : nat) (o : Outcome) :
  schedule fuel currentTime w = Some (n, o) ->
  TickFrame w (world_of o) /\
  (noiseBuffer (engine w) = None -> voices (world_of o) = voices w).
Proof.
  intro H.
  refine (schedule_preserves
            (fun x => TickFrame w x /\
                      (noiseBuffer (engine w) = None -> voices x = voices w))
            (resources_iteration w) fuel currentTime w n o _ H).
  split; [apply TickFrame_refl|reflexivity].
Qed.

Lemma transport_resources (w : World) (now gainNow level : Q) :
  SameResources w (stop now gainNow w) /\
  SameResources w (setVolume level now w) /\
  SameResources w (snd (toggleMute now w)) \/
  audioCtx (engine w) = None.
Proof.
  open_world w. destruct ctx as [c|]; [left|right; reflexivity].
  unfold SameResources.
  destruct pl, mg; cbn; repeat split; discriminate.
Qed.

Lemma SameResources_step (w w' : World) :
  audioCtx (engine w) <> None -> Step w w' ->
  SameResources w w' /\
  (noiseBuffer (engine w) = None -> voices w' = voices w).
Proof.
  intros Hc Hstep.
  assert (Hv : voices w' = voices w \/
               exists fuel currentTime n o,
                 schedule fuel currentTime w = Some (n, o) /\
                 w' = world_of o)
    by exact (voices_kept_by_step w w' Hstep).
  split.
  - split; [exact (audioCtx_kept w w' Hstep Hc)|].
    destruct Hstep.
    + rewrite init_once by exact Hc. split; reflexivity.
    + destruct (play_frame trackName now w)
        as (_ & _ & Eb & _ & _ & _ & _ & Eg & _).
      split; [|exact Eb].
      destruct (masterGain (engine (world_of (play trackName now w)))),
        (masterGain (engine w)); try reflexivity; discriminate.
    + destruct (transport_resources w now gainNow 0)
        as [((_ & H) & _)|H]; [exact H|congruence].
    + unfold stopImmediate.
      destruct (stopInternal_keeps w) as (_ & -> & -> & _). split; reflexivity.
    + destruct (transport_resources w now 0 vol)
        as [(_ & (_ & H) & _)|H]; [exact H|congruence].
    + destruct (transport_resources w now 0 0)
        as [(_ & _ & (_ & H))|H]; [exact H|congruence].
    + destruct (schedule_resources fuel currentTime w n o H0)
        as ((_ & -> & -> & _) & _). split; reflexivity.
    + destruct (stopInternal_keeps (fire_timeout w)) as (_ & -> & -> & _).
      split; reflexivity.
    + unfold context_state. destruct (audioCtx (engine w));
        split; reflexivity.
  - intro Hb. destruct Hv as [Hv|(fuel & currentTime & n & o & Hrun & ->)];
      [exact Hv|].
    exact (proj2 (schedule_resources fuel currentTime w n o Hrun) Hb).
Qed.

Lemma SameResources_steps (w w' : World) :
  audioCtx (engine w) <> None -> Steps w w' ->
  SameResources w w' /\
  (noiseBuffer (engine w) = None -> voices w' = voices w).
Proof.
  intros Hc Hrun. induction Hrun as [w|w w1 w' _ IH Hstep].
  - split; [exact (SameResources_refl w Hc)|reflexivity].
  - destruct (IH Hc) as (HR & Hv).
    pose proof HR as (Hc1 & _ & Eb).
    destruct (SameResources_step w1 w' Hc1 Hstep) as (HR' & Hv').
    split; [exact (SameResources_trans w w1 w' HR HR')|].
    intro Hb. rewrite Hv' by congruence. exact (Hv Hb).
Qed.

(** X14.  Once an audio context is stored, [init] never
    does anything again, whatever it is handed: in every state a run reaches
    from there the context is still stored, a later [init] returns the state
    unchanged, and the master gain and the noise buffer are present exactly
    if they were.  What the first attempt failed to create is therefore never
    created: when [createGain] threw, [play] stays without effect, and when
    [createBuffer] threw, no percussive voice is ever released. *)
Theorem init_happens_once (w w' : World) :
  audioCtx (engine w) <> None ->
  Steps w w' ->
  SameResources w w' /\
  (forall existingCtx platform, init existingCtx platform w' = w') /\
  (masterGain (engine w) = None ->
   forall trackName now, play trackName now w' = Returned w') /\
  (noiseBuffer (engine w) = None -> voices w' = voices w).
Proof.
  intros Hc Hrun.
  destruct (SameResources_steps w w' Hc Hrun) as (HR & Hv).
  pose proof HR as (Hc' & Eg & _).
  split; [exact HR|].
  split; [intros c p; exact (init_once c p w' Hc')|].
  split; [|exact Hv].
  intros Hg trackName now. apply play_not_ready.
  unfold ready. rewrite Hg in Eg.
  destruct (audioCtx (engine w')), (masterGain (engine w'));
    try reflexivity; discriminate.
Qed.

Lemma gainless_run :
  Steps gainlessWorld (setVolume 0.5 1 (init None samplePlatform gainlessWorld)).
Proof.
  eapply steps_step; [eapply steps_step; [apply steps_refl|]|].
  - exact (step_init None samplePlatform gainlessWorld).
  - exact (step_setVolume 0.5 1 _).
Defined.

Lemma init_happens_once_witness :
  audioCtx (engine gainlessWorld) <> None /\
  Steps gainlessWorld
    (setVolume 0.5 1 (init None samplePlatform gainlessWorld)) /\
  (forall trackName now,
     play trackName now
       (setVolume 0.5 1 (init None samplePlatform gainlessWorld))
     = Returned (setVolume 0.5 1 (init None samplePlatform gainlessWorld))).
Proof.
  assert (Hc : audioCtx (engine gainlessWorld) <> None)
    by (vm_compute; discriminate).
  split; [exact Hc|]. split; [exact gainless_run|].
  destruct (init_happens_once gainlessWorld _ Hc gainless_run)
    as (_ & _ & Hplay & _).
  apply Hplay. vm_compute. reflexivity.
Defined.

(** ** Initialisation *)

Lemma init_cases (existingCtx : option AudioContext) (platform : Platform)
  (w : World) :
  Inert w ->
  let obtained := match existingCtx with
                  | Some ctx => Some ctx
                  | None => newAudioContext platform
                  end in
  let w' := init existingCtx platform w in
  audioCtx (engine w') = obtained /\
  volume (engine w') = volume (engine w) /\
  muted (engine w') = muted (engine w) /\
  match obtained with
  | None => w' = console_warn initFailure w
  | Some ctx =>
      if createGainThrows platform then
        console w' = console w ++ [initFailure] /\
        masterGain (engine w') = None /\ noiseBuffer (engine w') = None
      else
        masterGain (engine w')
        = Some {| gain := param (effectiveGain (engine w));
                  gainConnected := true |} /\
        if createBufferThrows platform then
          console w' = console w ++ [initFailure] /\
          noiseBuffer (engine w') = None
        else
          console w' = console w /\
          noiseBuffer (engine w')
          = Some {| bufferLength := Qfloor (sampleRate ctx * 2);
                    bufferRate := sampleRate ctx |}
  end.
Proof.
  intro HI. open_world w. open_inert HI.
  destruct existingCtx as [c|], platform as [[c'|] [|] [|]]; cbn;
    repeat split.
Qed.

Lemma console_grows (l : list string) (msg : string) : l ++ [msg] <> l.
Proof.
  intro H. apply (f_equal (@List.length string)) in H.
  rewrite length_app in H. cbn in H. lia.
Qed.

(** X15.  [init] on an engine without audio context
    stores the context it was handed, or else the one it constructs.  It
    writes to the console exactly when it did not complete -- no context, or
    [createGain] or [createBuffer] threw -- and then it writes one warning
    and leaves what it had created up to the exception.  When it completes
    the master gain is connected, set to the effective gain (0 if muted,
    else the volume) with no automation, and the noise buffer holds
    [floor (2 * sampleRate)] samples at the context's sample rate. *)
Theorem init_reports_failure (existingCtx : option AudioContext)
  (platform : Platform) (w : World) :
  Reachable w ->
  audioCtx (engine w) = None ->
  let w' := init existingCtx platform w in
  audioCtx (engine w') = match existingCtx with
                         | Some ctx => Some ctx
                         | None => newAudioContext platform
                         end /\
  (console w' = console w \/ console w' = console w ++ [initFailure]) /\
  (console w' = console w <->
   ready (engine w') = true /\ noiseBuffer (engine w') <> None) /\
  (forall g, masterGain (engine w') = Some g ->
     g = {| gain := param (effectiveGain (engine w));
            gainConnected := true |}) /\
  (forall b, noiseBuffer (engine w') = Some b ->
     exists ctx, audioCtx (engine w') = Some ctx /\
                 bufferLength b = Qfloor (sampleRate ctx * 2) /\
                 bufferRate b = sampleRate ctx).
Proof.
  intros HR Hc w'.
  pose proof (Inert_reachable w HR Hc) as HI.
  pose proof (init_cases existingCtx platform w HI) as H.
  cbv zeta in H. fold w' in H.
  destruct H as (Ec & _ & _ & H).
  split; [exact Ec|].
  unfold ready. rewrite Ec.
  destruct (match existingCtx with
            | Some ctx => Some ctx
            | None => newAudioContext platform
            end) as [ctx|].
  - destruct (createGainThrows platform).
    + destruct H as (El & Eg & Eb). rewrite El, Eg, Eb.
      split; [right; reflexivity|].
      split; [|split; [discriminate|discriminate]].
      split; [intro E; destruct (console_grows _ _ E)|].
      intros [E _]. discriminate.
    + destruct H as (Eg & H). rewrite Eg.
      destruct (createBufferThrows platform); destruct H as (El & Eb);
        rewrite El, Eb.
      * split; [right; reflexivity|].
        split; [|split; [intros g E; injection E as <-; reflexivity
                        |discriminate]].
        split; [intro E; destruct (console_grows _ _ E)|].
        intros [_ E]. congruence.
      * split; [left; reflexivity|].
        split; [split; [split; [reflexivity|discriminate]|reflexivity]|].
        split; [intros g E; injection E as <-; reflexivity|].
        intros b E. injection E as <-. exists ctx. auto.
  - subst w'. rewrite H. cbn.
    destruct HI as (_ & Eg & Eb & _). rewrite Eg, Eb.
    split; [right; reflexivity|].
    split; [|split; discriminate].
    split; [intro E; destruct (console_grows _ _ E)|].
    intros [E _]. discriminate.
Qed.

Lemma init_reports_failure_witness :
  Reachable new_World /\
  (console (init None noBuffer new_World) = console new_World <->
   ready (engine (init None noBuffer new_World)) = true /\
   noiseBuffer (engine (init None noBuffer new_World)) <> None).
Proof.
  split; [exact reach_new|].
  destruct (init_reports_failure None noBuffer new_World reach_new eq_refl)
    as (_ & _ & H & _).
  exact H.
Defined.

(** X16.  A volume and a mute setting made
    while the engine has no audio context are only stored -- the volume
    clamped to [0, 1] -- and the next [init] that gets as far as the master
    gain applies them: the gain is created at 0 when the engine is muted and
    at the stored volume otherwise. *)
Theorem settings_before_init_are_applied (level t1 t2 : Q)
  (existingCtx : option AudioContext) (platform : Platform) (w : World) :
  Reachable w ->
  audioCtx (engine w) = None ->
  existingCtx <> None \/ newAudioContext platform <> None ->
  createGainThrows platform = false ->
  let w1 := snd (toggleMute t2 (setVolume level t1 w)) in
  let w' := init existingCtx platform w1 in
  masterGain (engine w1) = None /\
  volume (engine w') = clamp level /\
  muted (engine w') = negb (muted (engine w)) /\
  exists g,
    masterGain (engine w') = Some g /\
    value (gain g) = (if muted (engine w) then clamp level else 0) /\
    events (gain g) = [].
Proof.
  intros HR Hc Hctx Hg w1 w'.
  pose proof (Inert_reachable w HR Hc) as HI.
  assert (E1 : w1 = with_engine
                     (set_settings (clamp level) (negb (muted (engine w)))
                        (engine w)) w).
  { subst w1. rewrite (Inert_setVolume level t1 w HI).
    rewrite Inert_toggleMute by (apply Inert_settings; exact HI).
    reflexivity. }
  assert (HI1 : Inert w1) by (rewrite E1; apply Inert_settings; exact HI).
  pose proof (init_cases existingCtx platform w1 HI1) as H.
  cbv zeta in H. fold w' in H. rewrite Hg in H.
  destruct H as (_ & Ev & Em & H).
  split; [apply HI1|].
  split; [rewrite Ev, E1; reflexivity|].
  split; [rewrite Em, E1; reflexivity|].
  destruct (match existingCtx with
            | Some ctx => Some ctx
            | None => newAudioContext platform
            end) as [ctx|] eqn:Eo.
  - destruct H as (Eg & _). eexists. split; [exact Eg|].
    rewrite E1. cbn. unfold effectiveGain. cbn.
    destruct (muted (engine w)); split; reflexivity.
  - exfalso. destruct existingCtx; [discriminate|].
    destruct Hctx as [Hx|Hx]; congruence.
Qed.

Lemma settings_before_init_are_applied_witness :
  exists g,
    masterGain
      (engine (init None samplePlatform
                 (snd (toggleMute 2 (setVolume 0.5 1 failedWorld)))))
    = Some g /\
    value (gain g) = 0.
Proof.
  assert (Hctx : @None AudioContext <> None
                 \/ newAudioContext samplePlatform <> None)
    by (right; discriminate).
  destruct (settings_before_init_are_applied 0.5 1 2 None samplePlatform
              failedWorld failedWorld_reachable eq_refl Hctx eq_refl)
    as (_ & _ & _ & g & Eg & Ev & _).
  exists g. split; [exact Eg|exact Ev].
Defined.

(** ** Drum hits *)

Lemma SONGS_drums :
  Forall (fun entry => Forall (fun d => In d drumValues) (noise (snd entry)))
         SONGS.
Proof.
  assert (H : forallb
                (fun entry =>
                   forallb (fun d => existsb (Qeq_bool d) drumValues
                                     && (Zpos (Qden d) =? 1)%Z)
                           (noise (snd entry)))
                SONGS = true) by (vm_compute; reflexivity).
  rewrite forallb_forall in H. apply Forall_forall. intros entry Hin.
  specialize (H entry Hin). rewrite forallb_forall in H.
  apply Forall_forall. intros d Hd. specialize (H d Hd).
  apply andb_true_iff in H. destruct H as [H Hden].
  apply existsb_exists in H. destruct H as (x & Hx & Heq).
  apply Qeq_bool_iff in Heq. apply Z.eqb_eq in Hden.
  assert (E : d = x).
  { destruct d as [dn dd]. cbn in Hden. injection Hden as ->.
    vm_compute in Hx. unfold Qeq in Heq.
    repeat (destruct Hx as [<-|Hx];
            [cbn in Heq; f_equal; lia|]).
    destruct Hx. }
  rewrite E. exact Hx.
Qed.

Lemma table_song_drums (key : string) (song : SongData) :
  SONGS_get key = Track song -> Forall (fun d => In d drumValues) (noise song).
Proof.
  intro H. apply SONGS_get_Track, ownProperty_In in H.
  pose proof SONGS_drums as HF. rewrite Forall_forall in HF.
  exact (HF _ H).
Qed.

Lemma scheduleStep_noise (step : nat) (time : Q) (song : SongData)
  (w : World) :
  currentSong (engine w) = Some (Song song) ->
  voices (world_of (scheduleStep step time w))
  = voices
      (scheduleNoise
         (nth_error (noise song) (step mod List.length (pulse1 song)))
         (noiseVol song) time w).
Proof.
  intro Es. unfold scheduleStep. rewrite Es.
  repeat match goal with |- context [tonal ?a ?b ?c ?d ?e] =>
           destruct (tonal a b c d e) end.
  unfold scheduleNoise. cbn.
  destruct (audioCtx (engine w)), (noiseBuffer (engine w)),
    (masterGain (engine w)),
    (nth_error (noise song) (step mod List.length (pulse1 song))) as [d|];
    try reflexivity.
  destruct (Qle_bool d 0); [reflexivity|].
  repeat (match goal with |- context [if ?b then _ else _] => destruct b end;
          try reflexivity).
Qed.

(** X17.  In a session on an engine that has
    its noise buffer, [scheduleStep] reads the noise track inside its
    bounds, releases no voice where the track has a rest and exactly one
    where it has a drum: a voice starting at the step time and stopped 0.3 s
    later.  (The noise tracks of the table hold nothing but rests and the
    four drums.) *)
Theorem drum_hits_follow_noise_track (step : nat) (time : Q) (w : World) :
  InSession w ->
  noiseBuffer (engine w) <> None ->
  exists song d,
    currentSong (engine w) = Some (Song song) /\
    nth_error (noise song) (step mod List.length (pulse1 song)) = Some d /\
    In d drumValues /\
    (d = Songs.R ->
     voices (world_of (scheduleStep step time w)) = voices w) /\
    (d <> Songs.R ->
     exists v,
       voices (world_of (scheduleStep step time w)) = voices w ++ [v] /\
               startTime v = time /\ stopTime v = (time + 0.3)%Q).
Proof.
  intros (song & h & Hr & _ & Hn & Es & _) Hb.
  destruct (table_song_lengths _ _ (SONGS_get_Track _ _ Hn))
    as ((E12 & E23 & E34) & Hpos).
  assert (Hidx : (step mod List.length (pulse1 song)
                  < List.length (noise song))%nat).
  { rewrite <- E34, <- E23, <- E12. apply Nat.mod_upper_bound. lia. }
  destruct (nth_error (noise song) (step mod List.length (pulse1 song)))
    as [d|] eqn:Ed; [|apply nth_error_None in Ed; lia].
  pose proof (table_song_drums _ _ Hn) as Hdrums.
  rewrite Forall_forall in Hdrums.
  pose proof (Hdrums d (nth_error_In _ _ Ed)) as Hd.
  exists song, d. split; [exact Es|]. split; [exact Ed|].
  split; [exact Hd|].
  rewrite (scheduleStep_noise step time song w Es), Ed.
  apply ready_true in Hr. destruct Hr as (ctx & g & Hc & Hg).
  unfold scheduleNoise. rewrite Hc, Hg.
  destruct (noiseBuffer (engine w)) as [b|]; [|congruence].
  unfold drumValues in Hd. cbn in Hd.
  destruct Hd as [<-|[<-|[<-|[<-|[<-|[]]]]]]; cbn;
    (split; [intro E; try reflexivity; discriminate|]);
    intro Hne; try congruence; eexists; repeat split.
Qed.

Lemma tickedWorld_buffer : noiseBuffer (engine tickedWorld) <> None.
Proof. vm_compute. discriminate. Defined.

Lemma drum_hits_follow_noise_track_witness :
  exists song d,
    currentSong (engine tickedWorld) = Some (Song song) /\
    nth_error (noise song) (2 mod List.length (pulse1 song)) = Some d /\
    In d drumValues.
Proof.
  destruct (drum_hits_follow_noise_track 2 0.45 tickedWorld
              tickedWorld_InSession tickedWorld_buffer)
    as (song & d & Es & Ed & Hd & _).
  exists song, d. auto.
Defined.

(** ** Stopping twice *)

(** X18.  [stop()] does not remember that a
    fade-out is under way: a second call during the fade cancels the first
    ramp, restarts the fade from the gain it finds and queues a second
    teardown.  The first teardown to fire leaves the engine idle, the
    second one changes nothing but the count of pending timeouts. *)
Theorem stop_twice_queues_two_teardowns (t1 g1 t2 g2 : Q) (w : World) :
  InSession w ->
  let w2 := stop t2 g2 (stop t1 g1 w) in
  let w3 := stopInternal (fire_timeout w2) in
  let w4 := stopInternal (fire_timeout w3) in
  timeouts w2 = S (S (timeouts w)) /\
  masterEvents w2 =
    filter (fun e => Qltb (eventTime e) t2)
      (filter (fun e => Qltb (eventTime e) t1) (masterEvents w)
       ++ [SetValue g1 t1; LinearRamp 0 (t1 + 0.3)])
    ++ [SetValue g2 t2; LinearRamp 0 (t2 + 0.3)] /\
  Idle w3 /\ timeouts w3 = S (timeouts w) /\
  Idle w4 /\ engine w4 = engine w3 /\ timeouts w4 = timeouts w.
Proof.
  intros HS w2 w3 w4.
  destruct (stop_in_session t1 g1 w HS) as (HS1 & Et1 & Ee1).
  destruct (stop_in_session t2 g2 _ HS1) as (HS2 & Et2 & Ee2).
  fold w2 in HS2, Et2, Ee2.
  assert (HI3 : Idle w3)
    by (apply stopInternal_Idle, SessionConsistent_fire_timeout;
        right; exact HS2).
  assert (Ht3 : timeouts w3 = S (timeouts w)).
  { subst w3. rewrite (proj1 (proj2 (proj2 (stopInternal_world _)))).
    cbn. rewrite Et2, Et1. reflexivity. }
  split; [rewrite Et2, Et1; reflexivity|].
  split; [rewrite Ee2, Ee1; reflexivity|].
  split; [exact HI3|]. split; [exact Ht3|].
  assert (E4 : engine w4 = engine w3 /\ timeouts w4 = timeouts w).
  { subst w4. rewrite (proj1 (proj2 (proj2 (stopInternal_world _)))).
    cbn [fire_timeout timeouts]. rewrite Ht3. split; [|reflexivity].
    clear - HI3. destruct HI3 as (Hp & Hs & Hn & Hc & Ht & _ & Hv).
    destruct Hv as (V1 & V2 & V3 & V4 & V5 & V6).
    open_world w3. cbn in *. subst. reflexivity. }
  split; [|exact E4].
  apply stopInternal_Idle, SessionConsistent_fire_timeout. left. exact HI3.
Qed.

Lemma stop_twice_queues_two_teardowns_witness :
  InSession tickedWorld /\
  timeouts (stop 3.125 0.07 (stop 3 0.105 tickedWorld))
  = S (S (timeouts tickedWorld)).
Proof.
  split; [exact tickedWorld_InSession|].
  exact (proj1 (stop_twice_queues_two_teardowns 3 0.105 3.125 0.07 tickedWorld
                  tickedWorld_InSession)).
Defined.

(** ** Calls that leave the sequencer alone *)

(** X19.  [init], [stop], [setVolume] and
    [toggleMute] never touch the sequencer: playing flag, loaded song, track
    name, step index, next-step time, scheduler timer, the six voice nodes
    with their timelines, the live interval timers and the released voices
    are the same before and after, in every state and for every argument;
    only [play], the scheduler tick and the teardown change them. *)
Theorem controls_leave_sequencer_alone (w : World)
  (existingCtx : option AudioContext) (platform : Platform)
  (now gainNow level : Q) :
  SameSession w (init existingCtx platform w) /\
  SameSession w (stop now gainNow w) /\
  SameSession w (setVolume level now w) /\
  SameSession w (snd (toggleMute now w)).
Proof.
  split; [apply init_SameSession|].
  split; [apply stop_SameSession|].
  split; [apply setVolume_SameSession|apply toggleMute_SameSession].
Qed.

(** ** Starting a track: context and master gain *)

(** X20.  When [play] starts a track it calls
    [audioCtx.resume()] if the context is suspended -- once, and not
    otherwise -- and does not wait for it: when [play] returns the context
    is in the state it was in, at its sample rate.  The master gain has its
    automation from the current time on cancelled and replaced by a fade-in
    from 0 to the effective gain (0 if muted, else the volume) over 0.4 s,
    its intrinsic value and its connection untouched; the noise buffer, the
    settings, the console, the pending timeouts and the released voices are
    as before. *)
Theorem play_start_fades_in (trackName : string) (song : SongData)
  (now : Q) (w : World) :
  ready (engine w) = true ->
  SONGS_get trackName = Track song ->
  isPlaying (engine w) && String.eqb (currentTrackName (engine w)) trackName
    = false ->
  exists w',
    play trackName now w = Returned w' /\
    option_map resumeCalls (audioCtx (engine w'))
    = option_map (fun ctx => match state ctx with
                             | suspended => S (resumeCalls ctx)
                             | running => resumeCalls ctx
                             end) (audioCtx (engine w)) /\
    option_map state (audioCtx (engine w'))
      = option_map state (audioCtx (engine w)) /\
    option_map sampleRate (audioCtx (engine w'))
      = option_map sampleRate (audioCtx (engine w)) /\
    masterEvents w' =
      filter (fun e => Qltb (eventTime e) now) (masterEvents w)
      ++ [SetValue 0 now; LinearRamp (effectiveGain (engine w)) (now + 0.4)] /\
    option_map (fun g => value (gain g)) (masterGain (engine w'))
      = option_map (fun g => value (gain g)) (masterGain (engine w)) /\
    option_map gainConnected (masterGain (engine w'))
      = option_map gainConnected (masterGain (engine w)) /\
    noiseBuffer (engine w') = noiseBuffer (engine w) /\
    volume (engine w') = volume (engine w) /\
    muted (engine w') = muted (engine w) /\
    console w' = console w /\ timeouts w' = timeouts w /\
    voices w' = voices w.
Proof.
  intros Hr Hs Hp.
  destruct (play_starts trackName song now w Hr Hs Hp)
    as (w' & E & _ & _ & _ & _ & _ & _ & _ & _ & _ & Ee & Ec & Et & Ev).
  destruct (play_starts_frame trackName song now w Hr Hs Hp)
    as (w2 & E2 & _ & Fr).
  rewrite E in E2. injection E2 as <-.
  pose proof (play_frame trackName now w) as F. rewrite E in F.
  cbn [world_of] in F.
  destruct F as (Fv & Fm & Fb & Fsr & Fs & _ & Fg & Fc & _).
  exists w'. auto 15.
Qed.

Lemma play_start_fades_in_witness :
  exists w',
    play "game" 0 readyWorld = Returned w' /\
    option_map resumeCalls (audioCtx (engine w')) = Some 1%nat /\
    option_map state (audioCtx (engine w')) = Some suspended /\
    masterEvents w' =
      filter (fun e => Qltb (eventTime e) 0) (masterEvents readyWorld)
      ++ [SetValue 0 0;
          LinearRamp (effectiveGain (engine readyWorld)) (0 + 0.4)].
Proof.
  destruct (play_start_fades_in "game" Songs.game 0 readyWorld
              eq_refl eq_refl eq_refl)
    as (w' & E & Hc & Hs & _ & He & _).
  exists w'. auto.
Defined.
